(** * Methylome query engine: a shallow embedding and its properties

    The development follows the C++ sources: [cpg_index] (declared in
    cpg_index.hpp), the bins kernel of bins.cpp, the request header codec
    of request.cpp, the connection state machine of connection.cpp and the
    constructor of [cpg_index_set].  Unsigned 32-bit quantities are
    integers in [Z] with the wrap-around written out by [wrap32]; bytes of
    a [char] buffer are integers in [0, 256). *)

From stdpp Require Import base numbers list gmap strings.
From Stdlib Require Import ZArith Lia.

Local Open Scope Z_scope.

(* ===================================================================== *)
(** * Part I: the embedding *)
(* ===================================================================== *)

(** ** Machine integers *)

Module U32.

Definition modulus : Z := 4294967296.

(** [std::uint32_t] arithmetic is arithmetic modulo [2^32]. *)
Definition wrap32 (z : Z) : Z := z mod modulus.

Definition in_range (z : Z) : bool := (0 <=? z) && (z <? modulus).

End U32.

(** ** Outcomes of a run

    A loop of the source is a fixpoint on a fuel argument; reading a
    vector or an array outside its bounds is undefined behaviour in the
    source and a separate outcome here. *)

Inductive outcome (A : Type) : Type :=
| Done (a : A)
| OutOfFuel
| OutOfBounds.

Arguments Done {A} a.
Arguments OutOfFuel {A}.
Arguments OutOfBounds {A}.

Definition obind {A B} (x : outcome A) (k : A -> outcome B) : outcome B :=
  match x with
  | Done a => k a
  | OutOfFuel => OutOfFuel
  | OutOfBounds => OutOfBounds
  end.

#[global] Instance outcome_ret : MRet outcome := @Done.
#[global] Instance outcome_bind : MBind outcome :=
  fun A B k x => obind x k.

(** ** The CpG index (cpg_index.hpp) *)

Module CpgIndex.

(** [struct cpg_index]: the data members, in declaration order. *)
Record cpg_index : Type := {
  chrom_order : list string;
  chrom_size : list Z;
  positions : list (list Z);
  chrom_offset : list Z;
  chrom_index : gmap string Z;
  n_cpgs_total : Z
}.

(** The invariants of the data model: one entry per chromosome in every
    vector, positions strictly ascending and below the chromosome size,
    [chrom_offset] the running sum of the position counts and
    [n_cpgs_total] their total, all within 32 bits. *)
Fixpoint strictly_ascending (lower : Z) (v : list Z) : bool :=
  match v with
  | [] => true
  | p :: v' => (lower <? p) && strictly_ascending p v'
  end.

Fixpoint running_offsets (acc : Z) (ps : list (list Z)) : list Z :=
  match ps with
  | [] => []
  | p :: ps' => acc :: running_offsets (acc + Z.of_nat (length p)) ps'
  end.

Definition total_cpgs (ps : list (list Z)) : Z :=
  foldr (fun p acc => Z.of_nat (length p) + acc) 0 ps.

Definition chrom_ok (ps_size : list Z * Z) : bool :=
  strictly_ascending (-1) ps_size.1
  && forallb (fun p => p <? ps_size.2) ps_size.1
  && U32.in_range ps_size.2.

Definition well_formed (idx : cpg_index) : bool :=
  bool_decide (length (chrom_size idx) = length (positions idx))
  && bool_decide (length (chrom_order idx) = length (positions idx))
  && forallb chrom_ok (zip (positions idx) (chrom_size idx))
  && bool_decide (chrom_offset idx = running_offsets 0 (positions idx))
  && bool_decide (n_cpgs_total idx = total_cpgs (positions idx))
  && U32.in_range (n_cpgs_total idx).

(** Modelled from the spec: the bodies of the member functions declared
    in cpg_index.hpp live in cpg_index.cpp, which is missing.  The
    declaration says that the offset of a position comes "from
    std::lower_bound", and the specification asks for a binary search
    over [positions[ch_id]], with [chrom_offset[ch_id]] added to give
    global offsets.  [lower_bound] is the textbook loop of
    [std::lower_bound]: it halves [count] until the range is empty. *)
Fixpoint lower_bound_loop (fuel : nat) (v : list Z) (first count : nat)
    (value : Z) : nat :=
  match fuel with
  | O => first
  | S fuel' =>
      match count with
      | O => first
      | S _ =>
          let step := Nat.div2 count in
          match v !! (first + step)%nat with
          | Some x =>
              if x <? value
              then lower_bound_loop fuel' v (first + step + 1)
                     (count - (step + 1)) value
              else lower_bound_loop fuel' v first step value
          | None => first
          end
      end
  end.

Definition lower_bound (v : list Z) (value : Z) : nat :=
  lower_bound_loop (length v) v 0 (length v) value.

(** Modelled from the spec: [get_offset_within_chrom], the number of CpG
    sites of chromosome [ch_id] strictly below [pos].  A [ch_id] outside
    the index is an out-of-bounds read of [positions]. *)
Definition get_offset_within_chrom (idx : cpg_index) (ch_id : Z) (pos : Z)
    : outcome Z :=
  if ch_id <? 0 then OutOfBounds
  else match positions idx !! Z.to_nat ch_id with
       | Some v => Done (Z.of_nat (lower_bound v pos))
       | None => OutOfBounds
       end.

(** Modelled from the spec: [get_offsets_within_chrom], one pair of
    offsets within the chromosome for each pair of positions. *)
Definition get_offsets_within_chrom (idx : cpg_index) (ch_id : Z)
    (pos : list (Z * Z)) : outcome (list (Z * Z)) :=
  foldr (fun se acc =>
           lo ← get_offset_within_chrom idx ch_id se.1;
           hi ← get_offset_within_chrom idx ch_id se.2;
           rest ← acc;
           Done ((lo, hi) :: rest))
        (Done []) pos.

(** Modelled from the spec: [get_offsets], the offsets from the start of
    the data structure: [chrom_offset[ch_id]] is added to both ends in
    32-bit arithmetic. *)
Definition get_offsets (idx : cpg_index) (ch_id : Z) (pos : list (Z * Z))
    : outcome (list (Z * Z)) :=
  if ch_id <? 0 then OutOfBounds
  else match chrom_offset idx !! Z.to_nat ch_id with
       | Some off =>
           within ← get_offsets_within_chrom idx ch_id pos;
           Done (map (fun lh => (U32.wrap32 (off + lh.1),
                                 U32.wrap32 (off + lh.2))) within)
       | None => OutOfBounds
       end.

(** The number of CpG positions of [v] in the half-open range
    [start, stop), and the number below a bound. *)
Definition count_in_range (v : list Z) (start stop : Z) : Z :=
  Z.of_nat (length (filter (fun p => start <= p < stop) v)).

Definition n_below (v : list Z) (bound : Z) : nat :=
  length (filter (fun p => p < bound) v).

Definition count_below (v : list Z) (bound : Z) : Z :=
  Z.of_nat (n_below v bound).

(** Index-wise reading of a strictly ascending vector. *)
Definition ascending_at (v : list Z) : Prop :=
  forall (i j : nat) (x y : Z),
    v !! i = Some x -> v !! j = Some y -> (i < j)%nat -> x < y.

(** A partition point [r] of [v] for [value]: everything before [r] is
    below [value], everything from [r] on is not. *)
Definition partition_point (v : list Z) (value : Z) (r : nat) : Prop :=
  (r <= length v)%nat
  /\ (forall i x, v !! i = Some x -> (i < r)%nat -> x < value)
  /\ (forall i x, v !! i = Some x -> (r <= i)%nat -> value <= x).

(** The index of scenario S1: chr1 = ACGTCGCG, chr2 = CG. *)
Definition s1_index : cpg_index := {|
  chrom_order := ["chr1"%string; "chr2"%string];
  chrom_size := [8; 2];
  positions := [[2; 4; 6]; [0]];
  chrom_offset := [0; 3];
  chrom_index := {[ "chr1"%string := 0; "chr2"%string := 1 ]};
  n_cpgs_total := 4
|}.

End CpgIndex.

(** ** The bins kernel (bins.cpp) *)

Module Bins.
Import CpgIndex.

(** [methylome::cpgs]: one [(m_count, u_count)] pair per CpG site of the
    index.  The header methylome.hpp is missing; the counts are of type
    [methylome::m_count_t], 16 bits wide (the methylome test rounds
    65536 down to 65535; the specification gives 16 bits as baseline). *)
Record methylome : Type := { cpgs : list (Z * Z) }.

Definition m_count_max : Z := 65535.

Definition record_ok (r : Z * Z) : bool :=
  (0 <=? r.1) && (r.1 <=? m_count_max) && (0 <=? r.2) && (r.2 <=? m_count_max).

(** A methylome is aligned to an index when it holds one well-typed
    record per CpG site of the index. *)
Definition aligned (idx : cpg_index) (meth : methylome) : bool :=
  bool_decide (Z.of_nat (length (cpgs meth)) = n_cpgs_total idx)
  && forallb record_ok (cpgs meth).

(** [tuple<uint32_t, uint32_t, uint32_t>]: n_meth, n_unmeth, n_covered. *)
Definition counts : Type := (Z * Z * Z)%type.

(** One turn of the [while] loop of [bin_counts]: the three [+=] on
    [uint32_t] accumulators.  The comparison [first + second > 0] is done
    in [int] after integral promotion of the two 16-bit counts. *)
Definition add_counts (acc : counts) (r : Z * Z) : counts :=
  (U32.wrap32 (acc.1.1 + r.1),
   U32.wrap32 (acc.1.2 + r.2),
   U32.wrap32 (acc.2 + (if 0 <? r.1 + r.2 then 1 else 0))).

(** [bin_counts]: the iterators [posn_itr] and [cpg_itr] are passed by
    reference and advanced in lockstep; an iterator is the suffix of the
    vector that starts at it, and the advanced iterators are returned
    with the counts.  Dereferencing [cpg_itr] at the end of [meth.cpgs]
    is out of bounds. *)
Fixpoint bin_counts_loop (posn_itr : list Z) (bin_end : Z)
    (cpg_itr : list (Z * Z)) (acc : counts)
    : outcome (counts * list Z * list (Z * Z)) :=
  match posn_itr with
  | [] => Done (acc, posn_itr, cpg_itr)
  | p :: posn_next =>
      if p <? bin_end then
        match cpg_itr with
        | [] => OutOfBounds
        | r :: cpg_next =>
            bin_counts_loop posn_next bin_end cpg_next (add_counts acc r)
        end
      else Done (acc, posn_itr, cpg_itr)
  end.

Definition bin_counts (posn_itr : list Z) (bin_end : Z)
    (cpg_itr : list (Z * Z)) : outcome (counts * list Z * list (Z * Z)) :=
  bin_counts_loop posn_itr bin_end cpg_itr (0, 0, 0).

(** The inner loop of [bins_main]:
    [for (uint32_t i = 0; i < chrom_size; i += bin_size)], with
    [bin_end = min(i + bin_size, chrom_size)]; both sums are 32-bit. *)
Fixpoint bins_loop (fuel : nat) (bin_size chrom_size i : Z)
    (posn_itr : list Z) (cpg_itr : list (Z * Z)) (results : list counts)
    : outcome (list counts) :=
  match fuel with
  | O => OutOfFuel
  | S fuel' =>
      if i <? chrom_size then
        let bin_end := Z.min (U32.wrap32 (i + bin_size)) chrom_size in
        '(r, posn_next, cpg_next) ← bin_counts posn_itr bin_end cpg_itr;
        bins_loop fuel' bin_size chrom_size (U32.wrap32 (i + bin_size))
          posn_next cpg_next (results ++ [r])
      else Done results
  end.

(** The outer loop of [bins_main] over
    [zip(index.positions, index.chrom_size, index.chrom_offset)];
    [cpg_itr] starts at [cbegin(meth.cpgs) + offset]. *)
Fixpoint bins_chroms (fuel : nat) (bin_size : Z)
    (zipped : list (list Z * Z * Z)) (meth : methylome)
    (results : list counts) : outcome (list counts) :=
  match zipped with
  | [] => Done results
  | (posns, chrom_size, offset) :: zipped' =>
      if Z.of_nat (length (cpgs meth)) <? offset then OutOfBounds
      else
        results' ← bins_loop fuel bin_size chrom_size 0 posns
                     (drop (Z.to_nat offset) (cpgs meth)) results;
        bins_chroms fuel bin_size zipped' meth results'
  end.

Definition zipped_chroms (idx : cpg_index) : list (list Z * Z * Z) :=
  zip (zip (positions idx) (chrom_size idx)) (chrom_offset idx).

(** [bins_main], from the point where the index and the methylome have
    been read: the vector [results] that is printed afterwards.  [fuel]
    bounds the number of bins walked on one chromosome. *)
Definition bins_main (fuel : nat) (idx : cpg_index) (meth : methylome)
    (bin_size : Z) : outcome (list counts) :=
  bins_chroms fuel bin_size (zipped_chroms idx) meth [].

(** *** What the kernel is to compute *)

Definition ceil_div (s b : Z) : Z := (s + b - 1) / b.

(** The [k]-th bin of a chromosome: [kB, min((k+1)B, S)). *)
Definition bin_bounds (bin_size chrom_size : Z) (k : nat) : Z * Z :=
  (Z.of_nat k * bin_size, Z.min ((Z.of_nat k + 1) * bin_size) chrom_size).

(** The records of a chromosome whose position lies in
    [bin_start, bin_end); [recs] are the records from the chromosome's
    offset on, paired with the positions in order. *)
Definition records_in_bin (posns : list Z) (recs : list (Z * Z))
    (bin_start bin_end : Z) : list (Z * Z) :=
  (filter (fun pr => bin_start <= pr.1 < bin_end) (zip posns recs)).*2.

Definition sum_meth (recs : list (Z * Z)) : Z :=
  foldr (fun r acc => r.1 + acc) 0 recs.

Definition sum_unmeth (recs : list (Z * Z)) : Z :=
  foldr (fun r acc => r.2 + acc) 0 recs.

Definition count_covered (recs : list (Z * Z)) : Z :=
  Z.of_nat (length (filter (fun r => 0 < r.1 + r.2) recs)).

(** The sums as integers, as the specification words them. *)
Definition exact_counts (recs : list (Z * Z)) : counts :=
  (sum_meth recs, sum_unmeth recs, count_covered recs).

(** The sums as the 32-bit accumulators hold them. *)
Definition wrapped_counts (recs : list (Z * Z)) : counts :=
  (U32.wrap32 (sum_meth recs), U32.wrap32 (sum_unmeth recs),
   count_covered recs).

Definition chrom_bins (summary : list (Z * Z) -> counts) (bin_size : Z)
    (meth : methylome) (chrom : list Z * Z * Z) : list counts :=
  let '(posns, chrom_size, offset) := chrom in
  map (fun k =>
         let b := bin_bounds bin_size chrom_size k in
         summary (records_in_bin posns
                    (drop (Z.to_nat offset) (cpgs meth)) b.1 b.2))
      (seq 0 (Z.to_nat (ceil_div chrom_size bin_size))).

Definition all_bins (summary : list (Z * Z) -> counts) (idx : cpg_index)
    (meth : methylome) (bin_size : Z) : list counts :=
  concat (map (chrom_bins summary bin_size meth) (zipped_chroms idx)).

(** No 32-bit wrap in the walk: the end of the last bin, before it is
    clipped to the chromosome, fits in 32 bits. *)
Definition walk_fits (idx : cpg_index) (bin_size : Z) : bool :=
  forallb (fun size => ceil_div size bin_size * bin_size <? U32.modulus)
          (chrom_size idx).

Definition fuel_covers (fuel : nat) (idx : cpg_index) (bin_size : Z) : bool :=
  forallb (fun size => ceil_div size bin_size <? Z.of_nat fuel)
          (chrom_size idx).

(** The methylome of scenarios S3 and S4. *)
Definition s3_methylome : methylome :=
  {| cpgs := [(10, 0); (5, 5); (0, 20); (7, 3)] |}.

Fixpoint every_other (n : nat) (from : Z) : list Z :=
  match n with
  | O => []
  | S n' => from :: every_other n' (from + 2)
  end.

(** One chromosome of 131076 bases with a CpG site at every even
    position, each site with 65535 methylated reads. *)
Definition deep_index : cpg_index := {|
  chrom_order := ["chr1"%string];
  chrom_size := [131076];
  positions := [every_other (Z.to_nat 65538) 0];
  chrom_offset := [0];
  chrom_index := {[ "chr1"%string := 0 ]};
  n_cpgs_total := 65538
|}.

Definition deep_methylome : methylome :=
  {| cpgs := replicate (Z.to_nat 65538) (65535, 0) |}.

(** One chromosome of 3 * 2^30 bases without CpG sites. *)
Definition long_index : cpg_index := {|
  chrom_order := ["chr1"%string];
  chrom_size := [3221225472];
  positions := [[]];
  chrom_offset := [0];
  chrom_index := {[ "chr1"%string := 0 ]};
  n_cpgs_total := 0
|}.

Definition empty_methylome : methylome := {| cpgs := [] |}.

(** *** Totals over the results and the number of bins *)

Definition total_meth (results : list counts) : Z :=
  foldr (fun r acc => r.1.1 + acc) 0 results.

Definition total_unmeth (results : list counts) : Z :=
  foldr (fun r acc => r.1.2 + acc) 0 results.

Definition total_covered (results : list counts) : Z :=
  foldr (fun r acc => r.2 + acc) 0 results.

(** The sum over the chromosomes of [ceil (chrom_size / bin_size)]. *)
Definition n_bins (idx : cpg_index) (bin_size : Z) : nat :=
  foldr (fun size acc => (Z.to_nat (ceil_div size bin_size) + acc)%nat) O
        (chrom_size idx).

(** The records of each bin of a chromosome, bin by bin. *)
Definition chrom_records (bin_size : Z) (meth : methylome)
    (chrom : list Z * Z * Z) : list (list (Z * Z)) :=
  let '(posns, chrom_size, offset) := chrom in
  map (fun k =>
         let b := bin_bounds bin_size chrom_size k in
         records_in_bin posns (drop (Z.to_nat offset) (cpgs meth)) b.1 b.2)
      (seq 0 (Z.to_nat (ceil_div chrom_size bin_size))).

End Bins.

(** ** The request header codec (request.hpp, request.cpp) *)

Module Request.

(** [request::buf_size], the full header. *)
Definition buf_size : Z := 256.

(** The characters ['\t'] and ['\n']. *)
Definition delim : Z := 9.
Definition term : Z := 10.

(** The values of [status_code::value] that request.cpp returns
    (status_code.hpp itself is missing). *)
Inductive status_code : Type :=
| ok
| malformed_accession
| malformed_methylome_size
| malformed_n_intervals.

(** [struct request].  [buf] is a [std::array<char, 256>] and
    [accession] a [std::string]: lists of bytes. *)
Record request : Type := {
  buf : list Z;
  accession : list Z;
  methylome_size : Z;
  n_intervals : Z;
  offsets : list (Z * Z)
}.

Definition is_byte (c : Z) : bool := (0 <=? c) && (c <? 256).

(** The bytes of a string literal, to write examples with. *)
Definition bytes (s : string) : list Z :=
  map (fun a => Z.of_N (Ascii.N_of_ascii a)) (String.list_ascii_of_string s).

(** *** Library functions used by the codec *)

(** [std::format("{}", n)] for an unsigned integer: the decimal digits,
    most significant first, no leading zero.  Ten digits are enough for
    32 bits. *)
Fixpoint to_digits (fuel : nat) (n : Z) (acc : list Z) : list Z :=
  match fuel with
  | O => acc
  | S fuel' =>
      let acc' := (48 + n mod 10) :: acc in
      if n / 10 =? 0 then acc' else to_digits fuel' (n / 10) acc'
  end.

Definition format_u32 (n : Z) : list Z := to_digits 10 n [].

(** [std::ranges::find(first, last, c)]: the distance from [first] to
    the first [c], or to [last] when there is none. *)
Fixpoint find (b : list Z) (c : Z) : nat :=
  match b with
  | [] => O
  | x :: b' => if x =? c then O else S (find b' c)
  end.

(** [std::from_chars(first, last, value)] for [std::uint32_t] in base
    10: the longest run of digits is consumed; without a digit the error
    is [invalid_argument], with a value above [2^32 - 1] it is
    [result_out_of_range]; [value] is written on success only.  The
    result is the distance consumed, the error and the value. *)
Inductive errc : Type :=
| errc_none
| invalid_argument
| result_out_of_range.

Definition is_digit (c : Z) : bool := (48 <=? c) && (c <=? 57).

Fixpoint digits_prefix (b : list Z) : list Z :=
  match b with
  | [] => []
  | c :: b' => if is_digit c then c :: digits_prefix b' else []
  end.

Definition digits_value (ds : list Z) : Z :=
  foldl (fun v d => 10 * v + (d - 48)) 0 ds.

Definition from_chars (range : list Z) (value : Z) : nat * errc * Z :=
  let ds := digits_prefix range in
  match ds with
  | [] => (O, invalid_argument, value)
  | _ :: _ =>
      if digits_value ds <? U32.modulus
      then (length ds, errc_none, digits_value ds)
      else (length ds, result_out_of_range, value)
  end.

(** [std::ranges::fill_n(begin(buf), n, c)] and
    [std::ranges::copy(s, begin(buf))]; copying more than the array
    holds writes past its end. *)
Definition fill_n (n : nat) (c : Z) (b : list Z) : list Z :=
  replicate (Nat.min n (length b)) c ++ drop n b.

Definition copy (s : list Z) (b : list Z) : outcome (list Z) :=
  if (length s <=? length b)%nat then Done (s ++ drop (length s) b)
  else OutOfBounds.

(** [*cursor]: reading the array at index [cursor]; the end of the
    array cannot be read. *)
Definition deref (b : list Z) (cursor : nat) : outcome Z :=
  match b !! cursor with
  | Some c => Done c
  | None => OutOfBounds
  end.

(** *** [request::to_buffer] *)

(** [format("{}\t{}\t{}\n", accession, methylome_size, n_intervals)]. *)
Definition serialized (r : request) : list Z :=
  accession r ++ [delim] ++ format_u32 (methylome_size r) ++ [delim]
    ++ format_u32 (n_intervals r) ++ [term].

Definition with_buf (r : request) (b : list Z) : request :=
  {| buf := b; accession := accession r;
     methylome_size := methylome_size r; n_intervals := n_intervals r;
     offsets := offsets r |}.

Definition to_buffer (r : request) : outcome (request * status_code) :=
  let s := serialized r in
  let zeroed := fill_n (Z.to_nat buf_size) 0 (buf r) in
  b ← copy s zeroed;
  Done (with_buf r b, ok).

(** *** [request::from_buffer] *)

Definition with_accession (r : request) (a : list Z) : request :=
  {| buf := buf r; accession := a;
     methylome_size := methylome_size r; n_intervals := n_intervals r;
     offsets := offsets r |}.

Definition with_methylome_size (r : request) (n : Z) : request :=
  {| buf := buf r; accession := accession r;
     methylome_size := n; n_intervals := n_intervals r;
     offsets := offsets r |}.

Definition with_n_intervals (r : request) (n : Z) : request :=
  {| buf := buf r; accession := accession r;
     methylome_size := methylome_size r; n_intervals := n;
     offsets := offsets r |}.

(** [accession.clear(); methylome_size = 0; n_intervals = 0;] *)
Definition clear (r : request) : request :=
  with_n_intervals (with_methylome_size (with_accession r []) 0) 0.

(** The cursor is an index into [buf]; [data_end] is
    [cbegin(buf) + buf_size]. *)
Definition from_buffer (r : request) : outcome (request * status_code) :=
  let r := clear r in
  let data_end := Z.to_nat buf_size in
  let b := take data_end (buf r) in
  let cursor := find b delim in
  if (cursor =? data_end)%nat then Done (r, malformed_accession)
  else
    let r := with_accession r (take cursor b) in
    c ← deref b cursor;
    let cursor := S cursor in
    if negb (c =? delim) then Done (r, malformed_methylome_size)
    else
      let '(n, ec, value) := from_chars (drop cursor b) (methylome_size r) in
      let r := with_methylome_size r value in
      match ec with
      | errc_none =>
          let cursor := (cursor + n)%nat in
          c ← deref b cursor;
          let cursor := S cursor in
          if negb (c =? delim) then Done (r, malformed_n_intervals)
          else
            let '(n, ec, value) := from_chars (drop cursor b) (n_intervals r) in
            let r := with_n_intervals r value in
            match ec with
            | errc_none =>
                let cursor := (cursor + n)%nat in
                c ← deref b cursor;
                if negb (c =? term) then Done (r, malformed_n_intervals)
                else Done (r, ok)
            | _ => Done (r, malformed_n_intervals)
            end
      | _ => Done (r, malformed_methylome_size)
      end.

(** *** The binary layout of the specification

    Follows the words of the specification, for comparison with
    [to_buffer]: version, command, accession length and a reserved field
    as 16-bit integers in network byte order, the accession, then
    [methylome_size] and [n_intervals] as 32-bit integers in network byte
    order. *)
Definition be16 (x : Z) : list Z := [x / 256 mod 256; x mod 256].

Definition be32 (x : Z) : list Z :=
  [x / 16777216 mod 256; x / 65536 mod 256; x / 256 mod 256; x mod 256].

Definition binary_header (version command reserved : Z) (r : request)
    : list Z :=
  be16 version ++ be16 command ++ be16 (Z.of_nat (length (accession r)))
    ++ be16 reserved ++ accession r ++ be32 (methylome_size r)
    ++ be32 (n_intervals r).

(** *** Examples *)

Definition empty_request : request :=
  {| buf := replicate (Z.to_nat buf_size) 0; accession := [];
     methylome_size := 0; n_intervals := 0; offsets := [] |}.

(** A request for accession SRX012345 over the S1 index, two intervals. *)
Definition srx_request : request :=
  {| buf := replicate (Z.to_nat buf_size) 0;
     accession := bytes "SRX012345";
     methylome_size := 4; n_intervals := 2; offsets := [] |}.

(** A header whose [methylome_size] digits run to the last byte of the
    buffer: an accession of 245 characters ['a'], a tab and the ten
    digits 1234567890. *)
Definition overrun_request (stale : request) : request :=
  with_buf stale (replicate 245 97 ++ [delim] ++ bytes "1234567890").

(** A header without any tab. *)
Definition zero_request (stale : request) : request :=
  with_buf stale (replicate 256 0).

(** The SRX012345 request as [to_buffer] leaves it. *)
Definition srx_encoded : request :=
  with_buf srx_request
    (serialized srx_request
     ++ replicate (Z.to_nat buf_size - length (serialized srx_request)) 0).

(** A header cut off after [methylome_size]: accession ERR1, a tab and
    the digit 7, where the second tab should follow. *)
Definition truncated_request (stale : request) : request :=
  with_buf stale (bytes "ERR1" ++ [delim] ++ bytes "7" ++ replicate 250 0).

End Request.

(** ** The connection state machine (connection.hpp, connection.cpp) *)

Module Connection.

(** What connection.cpp uses and the sources do not contain: the header
    types, their codecs ([from_chars], [to_chars]), the request handler,
    the buffer sizes and the way the bytes received are stored into
    [req.offsets].  A codec takes the buffer and the object it is given
    by reference, and returns the distance consumed, whether it failed,
    and the object (or the buffer) as it leaves it. *)
Class Collaborators : Type := {
  request_header : Type;
  response_header : Type;
  response : Type;
  request_handler : Type;
  request_buf_size : nat;
  response_buf_size : nat;
  from_chars_request_header :
    list Z -> request_header -> nat * bool * request_header;
  from_chars_request :
    list Z -> Request.request -> nat * bool * Request.request;
  from_chars_response_header :
    list Z -> response_header -> nat * bool * response_header;
  to_chars_response_header :
    list Z -> response_header -> nat * bool * list Z;
  handle_header :
    request_handler -> request_header -> response_header
    -> request_handler * response_header;
  handle_get_counts :
    request_handler -> request_header -> Request.request -> response_header
    -> response -> request_handler * response_header * response;
  error : response_header -> bool;
  bad_request : response_header;
  counts : response -> list Z;
  store_offsets :
    list (Z * Z) -> Z -> list Z -> list (Z * Z)
}.

(** [struct connection], without the socket and the [verbose] flag. *)
Record connection `{Collaborators} : Type := {
  req_buf : list Z;
  req_hdr : request_header;
  req : Request.request;
  handler : request_handler;
  resp_hdr : response_header;
  resp_buf : list Z;
  resp : response;
  offset_byte : Z;
  offset_remaining : Z
}.

(** The operations a connection starts on its socket, named after the
    member function that starts them, and how each of them ended: the
    completion handler ran without error, ran with an error, or has not
    run. *)
Inductive operation : Type :=
| op_read_request (n : nat)
| op_read_offsets (n : Z)
| op_write_header (data : list Z)
| op_write_error (data : list Z)
| op_write_counts (data : list Z)
| op_shutdown_both.

Inductive ending : Type :=
| completed
| errored
| pending.

Definition event : Type := (operation * ending)%type.

(** What the socket delivers to a completion handler: an error code, or
    the bytes transferred. *)
Inductive completion : Type :=
| failed
| transferred (data : list Z).

Section machine.
Context `{Collaborators}.

Definition set_req_buf (c : connection) (b : list Z) : connection :=
  {| req_buf := b; req_hdr := req_hdr c; req := req c; handler := handler c;
     resp_hdr := resp_hdr c; resp_buf := resp_buf c; resp := resp c;
     offset_byte := offset_byte c; offset_remaining := offset_remaining c |}.

Definition set_req_hdr (c : connection) (h : request_header) : connection :=
  {| req_buf := req_buf c; req_hdr := h; req := req c; handler := handler c;
     resp_hdr := resp_hdr c; resp_buf := resp_buf c; resp := resp c;
     offset_byte := offset_byte c; offset_remaining := offset_remaining c |}.

Definition set_req (c : connection) (r : Request.request) : connection :=
  {| req_buf := req_buf c; req_hdr := req_hdr c; req := r; handler := handler c;
     resp_hdr := resp_hdr c; resp_buf := resp_buf c; resp := resp c;
     offset_byte := offset_byte c; offset_remaining := offset_remaining c |}.

Definition set_handler (c : connection) (h : request_handler) : connection :=
  {| req_buf := req_buf c; req_hdr := req_hdr c; req := req c; handler := h;
     resp_hdr := resp_hdr c; resp_buf := resp_buf c; resp := resp c;
     offset_byte := offset_byte c; offset_remaining := offset_remaining c |}.

Definition set_resp_hdr (c : connection) (h : response_header) : connection :=
  {| req_buf := req_buf c; req_hdr := req_hdr c; req := req c;
     handler := handler c;
     resp_hdr := h; resp_buf := resp_buf c; resp := resp c;
     offset_byte := offset_byte c; offset_remaining := offset_remaining c |}.

Definition set_resp_buf (c : connection) (b : list Z) : connection :=
  {| req_buf := req_buf c; req_hdr := req_hdr c; req := req c;
     handler := handler c;
     resp_hdr := resp_hdr c; resp_buf := b; resp := resp c;
     offset_byte := offset_byte c; offset_remaining := offset_remaining c |}.

Definition set_resp (c : connection) (r : response) : connection :=
  {| req_buf := req_buf c; req_hdr := req_hdr c; req := req c;
     handler := handler c;
     resp_hdr := resp_hdr c; resp_buf := resp_buf c; resp := r;
     offset_byte := offset_byte c; offset_remaining := offset_remaining c |}.

Definition set_offset_counters (c : connection) (byte remaining : Z)
    : connection :=
  {| req_buf := req_buf c; req_hdr := req_hdr c; req := req c;
     handler := handler c;
     resp_hdr := resp_hdr c; resp_buf := resp_buf c; resp := resp c;
     offset_byte := byte; offset_remaining := remaining |}.

(** [std::vector::resize]. *)
Definition resize (n : nat) (v : list (Z * Z)) : list (Z * Z) :=
  take n v ++ replicate (n - length v) (0, 0).

(** [request::get_offsets_n_bytes]: [sizeof(offset_type) * size(offsets)]
    returned as [uint32_t]. *)
Definition get_offsets_n_bytes (r : Request.request) : Z :=
  U32.wrap32 (8 * Z.of_nat (length (Request.offsets r))).

Definition set_offsets (r : Request.request) (v : list (Z * Z))
    : Request.request :=
  {| Request.buf := Request.buf r; Request.accession := Request.accession r;
     Request.methylome_size := Request.methylome_size r;
     Request.n_intervals := Request.n_intervals r;
     Request.offsets := v |}.

Definition prepare_to_read_offsets (c : connection) : connection :=
  let r := set_offsets (req c)
             (resize (Z.to_nat (Request.n_intervals (req c)))
                     (Request.offsets (req c))) in
  set_offset_counters (set_req c r) 0 (get_offsets_n_bytes r).

(** [respond_with_counts]: write [resp.counts]; shut the socket down
    when the write went through. *)
Definition respond_with_counts (c : connection) (script : list completion)
    : list event :=
  match script with
  | [] => [(op_write_counts (counts (resp c)), pending)]
  | failed :: _ => [(op_write_counts (counts (resp c)), errored)]
  | transferred _ :: _ =>
      [(op_write_counts (counts (resp c)), completed);
       (op_shutdown_both, completed)]
  end.

(** [respond_with_header]: [to_chars] puts [resp_hdr] into [resp_buf],
    which is then written. *)
Definition respond_with_header (c : connection) (script : list completion)
    : list event :=
  let '(_, resp_err, b) := to_chars_response_header (resp_buf c) (resp_hdr c) in
  if resp_err then [(op_shutdown_both, completed)]
  else
    let c := set_resp_buf c b in
    match script with
    | [] => [(op_write_header (resp_buf c), pending)]
    | failed :: _ =>
        [(op_write_header (resp_buf c), errored);
         (op_shutdown_both, completed)]
    | transferred _ :: script' =>
        (op_write_header (resp_buf c), completed)
          :: respond_with_counts c script'
    end.

(** [respond_with_error]: the source calls [from_chars] here, which reads
    [resp_buf] into [resp_hdr]; [resp_buf] is then written. *)
Definition respond_with_error (c : connection) (script : list completion)
    : list event :=
  let '(_, resp_err, h) :=
    from_chars_response_header (resp_buf c) (resp_hdr c) in
  if resp_err then [(op_shutdown_both, completed)]
  else
    let c := set_resp_hdr c h in
    match script with
    | [] => [(op_write_error (resp_buf c), pending)]
    | failed :: _ => [(op_write_error (resp_buf c), errored)]
    | transferred _ :: _ =>
        [(op_write_error (resp_buf c), completed);
         (op_shutdown_both, completed)]
    end.

(** [read_offsets]: one [async_read_some] into the part of [req.offsets]
    not yet filled; the socket transfers at most [offset_remaining]
    bytes.  The function calls itself from its completion handler until
    nothing remains: one completion of the script per call. *)
Fixpoint read_offsets (c : connection) (script : list completion)
    : list event :=
  match script with
  | [] => [(op_read_offsets (offset_remaining c), pending)]
  | failed :: script' =>
      (op_read_offsets (offset_remaining c), errored)
        :: respond_with_error c script'
  | transferred data :: script' =>
      let data := take (Z.to_nat (offset_remaining c)) data in
      let bytes_transferred := Z.of_nat (length data) in
      let r := set_offsets (req c)
                 (store_offsets (Request.offsets (req c)) (offset_byte c) data) in
      let c' := set_offset_counters (set_req c r)
                  (offset_byte c + bytes_transferred)
                  (offset_remaining c - bytes_transferred) in
      (op_read_offsets (offset_remaining c), completed)
        :: if offset_remaining c' =? 0 then
             let '(h, rh, rs) :=
               handle_get_counts (handler c') (req_hdr c') (req c')
                 (resp_hdr c') (resp c') in
             respond_with_header
               (set_resp (set_resp_hdr (set_handler c' h) rh) rs) script'
           else read_offsets c' script'
  end.

(** [read_request]: read the whole header, parse it, let the handler
    validate it, parse the rest of the request, then read the offsets. *)
Definition read_request (c : connection) (script : list completion)
    : list event :=
  match script with
  | [] => [(op_read_request request_buf_size, pending)]
  | failed :: _ => [(op_read_request request_buf_size, errored)]
  | transferred data :: script' =>
      let c := set_req_buf c (take request_buf_size data) in
      (op_read_request request_buf_size, completed)
        :: let '(req_hdr_ptr, req_hdr_err, h) :=
             from_chars_request_header (req_buf c) (req_hdr c) in
           let c := set_req_hdr c h in
           if req_hdr_err then
             respond_with_error (set_resp_hdr c bad_request) script'
           else
             let '(hd, rh) :=
               handle_header (handler c) (req_hdr c) (resp_hdr c) in
             let c := set_resp_hdr (set_handler c hd) rh in
             if error (resp_hdr c) then respond_with_error c script'
             else
               let '(_, req_err, r) :=
                 from_chars_request (drop req_hdr_ptr (req_buf c)) (req c) in
               let c := set_req c r in
               if req_err then
                 respond_with_error (set_resp_hdr c bad_request) script'
               else read_offsets (prepare_to_read_offsets c) script'
  end.

(** [connection::start]. *)
Definition start (c : connection) (script : list completion) : list event :=
  read_request c script.

Definition is_read (o : operation) : bool :=
  match o with
  | op_read_request _ | op_read_offsets _ => true
  | _ => false
  end.

End machine.

(** *** What follows an operation that ended with an error

    Nothing after a failed read of the header, a failed write of the
    counts or a failed write of an error header; a shutdown after a
    failed write of the response header; after a failed read of the
    offsets whatever [respond_with_error] does: a shutdown, or the write
    of an error header with the shutdown that follows when it goes
    through. *)
Definition reaction (o : operation) (post : list event) : Prop :=
  match o with
  | op_read_request _ | op_write_error _ | op_write_counts _ => post = []
  | op_write_header _ => post = [(op_shutdown_both, completed)]
  | op_read_offsets _ =>
      post = [(op_shutdown_both, completed)]
      \/ exists data,
           post = [(op_write_error data, pending)]
           \/ post = [(op_write_error data, errored)]
           \/ post = [(op_write_error data, completed);
                      (op_shutdown_both, completed)]
  | op_shutdown_both => False
  end.

(** An error header written by the connection carries [data]. *)
Definition error_write_is (data : list Z) (ev : event) : Prop :=
  match ev.1 with
  | op_write_error written => written = data
  | _ => True
  end.

(** *** A small instance to run the machine on

    Headers of one byte: a request header parses when its first byte is
    not zero, the request is the number of intervals in the next byte,
    and a response header is its status byte, zero for success. *)
Definition sample : Collaborators := {|
  request_header := Z;
  response_header := Z;
  response := list Z;
  request_handler := unit;
  request_buf_size := 256;
  response_buf_size := 256;
  from_chars_request_header := fun b h =>
    match b with
    | x :: _ => if x =? 0 then (O, true, h) else (1%nat, false, x)
    | [] => (O, true, h)
    end;
  from_chars_request := fun b r =>
    match b with
    | n :: _ =>
        (1%nat, false,
         {| Request.buf := Request.buf r;
            Request.accession := Request.accession r;
            Request.methylome_size := Request.methylome_size r;
            Request.n_intervals := n;
            Request.offsets := Request.offsets r |})
    | [] => (O, true, r)
    end;
  from_chars_response_header := fun b h =>
    match b with
    | x :: _ => (1%nat, false, x)
    | [] => (O, true, h)
    end;
  to_chars_response_header := fun b h =>
    match b with
    | _ :: b' => (1%nat, false, h :: b')
    | [] => (O, true, b)
    end;
  handle_header := fun hd _ _ => (hd, 0);
  handle_get_counts := fun hd _ _ _ rs => (hd, 0, rs);
  error := fun h => negb (h =? 0);
  bad_request := 400;
  counts := fun rs => rs;
  store_offsets := fun v _ _ => v
|}.

Definition fresh_connection : @connection sample :=
  @Build_connection sample
    (replicate 256 0) 0 Request.empty_request tt 0 (replicate 256 0) [] 0 0.

(** A header that parses and announces one interval. *)
Definition good_header : list Z := 1 :: 1 :: replicate 254 0.

(** *** Kinds of operations, for statements about whole runs *)

Definition is_error_write (o : operation) : bool :=
  match o with
  | op_write_error _ => true
  | _ => false
  end.

Definition is_response_write (o : operation) : bool :=
  match o with
  | op_write_header _ | op_write_counts _ => true
  | _ => false
  end.

Definition is_shutdown (o : operation) : bool :=
  match o with
  | op_shutdown_both => true
  | _ => false
  end.

Definition wrote_error (tr : list event) : bool :=
  existsb (fun ev : event => is_error_write ev.1) tr.

Definition wrote_response (tr : list event) : bool :=
  existsb (fun ev : event => is_response_write ev.1) tr.

(** The reads of offsets in what follows a read that asked for [bound]
    bytes: each asks for some bytes, and for no more than the one
    before it. *)
Fixpoint dwindling (bound : Z) (tr : list event) : Prop :=
  match tr with
  | [] => True
  | (op_read_offsets asked, _) :: tr' =>
      0 < asked <= bound /\ dwindling asked tr'
  | _ :: tr' => dwindling bound tr'
  end.

(** A connection whose request announces [2^29 + 1] intervals, with an
    offset and counters left from before. *)
Definition wide_connection : @connection sample :=
  @Build_connection sample
    (replicate 256 0) 0
    {| Request.buf := replicate 256 0; Request.accession := [];
       Request.methylome_size := 4; Request.n_intervals := 536870913;
       Request.offsets := [(1, 2)] |}
    tt 0 (replicate 256 0) [] 5 7.

End Connection.

(** ** The set of CpG indexes (cpg_index_set.cpp) *)

Module CpgIndexSet.
Import CpgIndex.

(** What the constructor uses and the sources do not contain: the type
    [cpg_index_meta], the listing of a directory, the readers of the two
    files, the helper that names the metadata file, and the search of
    the file-name pattern, which is built from the missing constant
    [cpg_index::filename_extension].  A directory that cannot be listed
    makes the constructor throw: no object is constructed then, and the
    listing is total here. *)
Class Filesystem : Type := {
  cpg_index_meta : Type;
  directory_iterator : string -> list string;
  cpg_index_read : string -> option cpg_index;
  cpg_index_meta_read : string -> option cpg_index_meta;
  get_default_cpg_index_meta_filename : string -> string;
  cpg_index_filename_re_search : string -> bool
}.

Record cpg_index_set `{Filesystem} : Type := {
  cpg_index_directory : string;
  assembly_to_cpg_index : gmap string cpg_index;
  assembly_to_cpg_index_meta : gmap string cpg_index_meta
}.

(** The class [[_[:alnum:]]] in the "C" locale. *)
Definition is_assembly_char (a : Ascii.ascii) : bool :=
  let n := Ascii.nat_of_ascii a in
  ((48 <=? n) && (n <=? 57) || (65 <=? n) && (n <=? 90)
   || (97 <=? n) && (n <=? 122) || (n =? 95))%nat.

(** [std::regex_search(name, base_match, assembly_re)] for the pattern
    [^[_[:alnum:]]+]: the longest prefix of [name] in the class, when it
    is not empty. *)
Fixpoint assembly_prefix (name : string) : string :=
  match name with
  | EmptyString => EmptyString
  | String a name' =>
      if is_assembly_char a then String a (assembly_prefix name')
      else EmptyString
  end.

Definition assembly_re_search (name : string) : option string :=
  match assembly_prefix name with
  | EmptyString => None
  | String a rest => Some (String a rest)
  end.

(** [std::unordered_map::emplace]: nothing is inserted when the key is
    already there. *)
Definition emplace {V : Type} (k : string) (v : V) (m : gmap string V)
    : gmap string V :=
  match m !! k with
  | Some _ => m
  | None => <[k := v]> m
  end.

(** [dir_entry.path().string()] for the entry [name] of [dir]. *)
Definition entry_path (dir name : string) : string :=
  (dir +:+ "/" +:+ name)%string.

Section constructor.
Context `{Filesystem}.

(** The body of the [for] loop over the directory entries; a failed read
    clears both maps and returns. *)
Fixpoint construct (dir : string) (entries : list string)
    (index : gmap string cpg_index) (meta : gmap string cpg_index_meta)
    : gmap string cpg_index * gmap string cpg_index_meta :=
  match entries with
  | [] => (index, meta)
  | name :: entries' =>
      if cpg_index_filename_re_search name then
        match assembly_re_search name with
        | Some assembly =>
            let index_filename := entry_path dir name in
            match cpg_index_read index_filename with
            | None => (∅, ∅)
            | Some idx =>
                let index := emplace assembly idx index in
                let index_filename_meta :=
                  get_default_cpg_index_meta_filename index_filename in
                match cpg_index_meta_read index_filename_meta with
                | None => (∅, ∅)
                | Some cim =>
                    construct dir entries' index (emplace assembly cim meta)
                end
            end
        | None => construct dir entries' index meta
        end
      else construct dir entries' index meta
  end.

(** [cpg_index_set::cpg_index_set(cpg_index_directory)]. *)
Definition new_cpg_index_set (dir : string) : cpg_index_set :=
  let maps := construct dir (directory_iterator dir) ∅ ∅ in
  {| cpg_index_directory := dir;
     assembly_to_cpg_index := maps.1;
     assembly_to_cpg_index_meta := maps.2 |}.

(** The assemblies discovered in a listing, each with the path of its
    index file. *)
Definition discovered (dir : string) (entries : list string)
    : list (string * string) :=
  omap (fun name =>
          if cpg_index_filename_re_search name then
            match assembly_re_search name with
            | Some assembly => Some (assembly, entry_path dir name)
            | None => None
            end
          else None) entries.

(** Both files of a discovered assembly can be read. *)
Definition readable (found : string * string) : bool :=
  match cpg_index_read found.2 with
  | None => false
  | Some _ =>
      match cpg_index_meta_read (get_default_cpg_index_meta_filename found.2) with
      | None => false
      | Some _ => true
      end
  end.

End constructor.

(** *** The lookups

    Both return a tuple of references and an error code; on
    [invalid_argument] the references are bound to temporaries and
    carry nothing, so the result is the error alone. *)
Inductive lookup_result (A : Type) : Type :=
| found (a : A)
| invalid_argument.

Arguments found {A} a.
Arguments invalid_argument {A}.

Section lookups.
Context `{Filesystem}.

(** [cpg_index_set::get_cpg_index_meta]. *)
Definition get_cpg_index_meta (s : cpg_index_set) (assembly_name : string)
    : lookup_result cpg_index_meta :=
  match assembly_to_cpg_index_meta s !! assembly_name with
  | None => invalid_argument
  | Some cim => found cim
  end.

(** [cpg_index_set::get_cpg_index_with_meta]. *)
Definition get_cpg_index_with_meta (s : cpg_index_set) (assembly_name : string)
    : lookup_result (cpg_index * cpg_index_meta) :=
  match assembly_to_cpg_index s !! assembly_name with
  | None => invalid_argument
  | Some idx =>
      match assembly_to_cpg_index_meta s !! assembly_name with
      | None => invalid_argument
      | Some cim => found (idx, cim)
      end
  end.

End lookups.

(** The path of the first entry of a listing found for an assembly. *)
Fixpoint first_found (assembly : string) (entries : list (string * string))
    : option string :=
  match entries with
  | [] => None
  | (a, path) :: entries' =>
      if String.eqb a assembly then Some path else first_found assembly entries'
  end.

(** Every character is in the class of [assembly_re]. *)
Fixpoint all_assembly_chars (s : string) : bool :=
  match s with
  | EmptyString => true
  | String a s' => is_assembly_char a && all_assembly_chars s'
  end.

(** What follows the prefix in the name. *)
Fixpoint after_assembly (name : string) : string :=
  match name with
  | EmptyString => EmptyString
  | String a name' =>
      if is_assembly_char a then after_assembly name' else name
  end.

(** *** A small directory

    Two indexes and a file that is none; the metadata of [mm39] cannot be
    read when [meta_ok] is false. *)
Definition sample_directory (meta_ok : bool) : Filesystem := {|
  cpg_index_meta := unit;
  directory_iterator := fun _ =>
    ["hg38.cpg_idx"; "notes.txt"; "mm39.cpg_idx"]%string;
  cpg_index_read := fun _ => Some s1_index;
  cpg_index_meta_read := fun path =>
    if String.eqb path "indexes/mm39.cpg_idx.json" then
      (if meta_ok then Some tt else None)
    else Some tt;
  get_default_cpg_index_meta_filename := fun path => (path +:+ ".json")%string;
  cpg_index_filename_re_search := fun name =>
    match String.index 0 ".cpg_idx" name with
    | Some _ => true
    | None => false
    end
|}.

End CpgIndexSet.

(** ** Writing bins and intervals (genomic_interval_output.hpp) *)

Module GenomicIntervalOutput.
Import Bins.

Definition buf_size : nat := 512.

(** The characters ['\t'] and ['\n']. *)
Definition delim : Z := 9.
Definition newline : Z := 10.

(** The two members of [cpg_index_meta] that the writers read
    (cpg_index_meta.hpp is missing): the names of the chromosomes, as
    bytes, and their sizes, which [write_bins] compares with a
    [std::uint32_t] and passes to [std::min] with one. *)
Record cpg_index_meta : Type := {
  chrom_order : list (list Z);
  chrom_size : list Z
}.

(** The members of [genomic_interval] that [write_intervals] reads
    (genomic_interval.hpp is missing). *)
Record genomic_interval : Type := {
  ch_id : Z;
  start : Z;
  stop : Z
}.

(** The value of a [std::error_code]; [{}] is 0. *)
Definition error_code : Type := Z.

(** [std::ostream &out], good when the writer is called: the blocks
    handed to [write] so far, and the device.  [device k] is what the
    [k]-th [write] leaves behind: [None] when the stream stays good,
    [Some e] when it does not, with [e] the value of [errno] then. *)
Record ostream : Type := {
  device : nat -> option Z;
  blocks : list (list Z)
}.

(** [out.write(data, n); if (!out) return std::make_error_code(std::errc(errno));] *)
Definition write (out : ostream) (data : list Z) : ostream * option error_code :=
  ({| device := device out; blocks := blocks out ++ [data] |},
   device out (length (blocks out))).

(** [std::to_chars(first, buf_end, value)] for an unsigned integer,
    [first] an index into the array: the digits are written at [first]
    when they fit before the end and the result points past them;
    otherwise the result is the end of the array. *)
Definition to_chars (b : list Z) (first : nat) (value : Z) : list Z * nat :=
  let digits := Request.format_u32 value in
  if (first + length digits <=? length b)%nat
  then (take first b ++ digits ++ drop (first + length digits) b,
        (first + length digits)%nat)
  else (b, length b).

(** [*ptr++ = c] and [buf[i] = c]; neither checks the index. *)
Definition store (b : list Z) (ptr : nat) (c : Z) : outcome (list Z * nat) :=
  if (ptr <? length b)%nat then Done (<[ptr := c]> b, S ptr) else OutOfBounds.

(** The start and the end of a line's range, each followed by [delim]. *)
Definition write_range (b : list Z) (first : nat) (beg end_ : Z)
    : outcome (list Z * nat) :=
  let '(b, ptr) := to_chars b first beg in
  '(b, ptr) ← store b ptr delim;
  let '(b, ptr) := to_chars b ptr end_ in
  store b ptr delim.

(** The counts of a line and the newline.  [cov] tells whether the
    results are of type [counts_res_cov], the case of the
    [if constexpr]. *)
Definition write_counts (cov : bool) (b : list Z) (ptr : nat) (r : counts)
    : outcome (list Z * nat) :=
  let '(b, ptr) := to_chars b ptr r.1.1 in
  '(b, ptr) ← store b ptr delim;
  let '(b, ptr) := to_chars b ptr r.1.2 in
  '(b, ptr) ← (if cov then
                 '(b, ptr) ← store b ptr delim;
                 Done (to_chars b ptr r.2)
               else Done (b, ptr));
  store b ptr newline.

(** [results_itr->n_meth]: the end of the results cannot be read. *)
Definition deref (results_itr : list counts) : outcome counts :=
  match results_itr with
  | [] => OutOfBounds
  | r :: _ => Done r
  end.

(** *** [write_bins] *)

(** The inner loop,
    [for (std::uint32_t bin_beg = 0; bin_beg < chrom_size; bin_beg += bin_size)].
    The first component of the result is the error code of a [return]
    inside the loop. *)
Fixpoint write_bins_loop (fuel : nat) (cov : bool) (bin_size chrom_size : Z)
    (name_size : nat) (bin_beg : Z) (b : list Z) (out : ostream)
    (results_itr : list counts)
    : outcome (option error_code * list Z * ostream * list counts) :=
  match fuel with
  | O => OutOfFuel
  | S fuel' =>
      if bin_beg <? chrom_size then
        let bin_end := Z.min (U32.wrap32 (bin_beg + bin_size)) chrom_size in
        '(b, ptr) ← write_range b (S name_size) bin_beg bin_end;
        r ← deref results_itr;
        '(b, ptr) ← write_counts cov b ptr r;
        let '(out, failed) := write out (take ptr b) in
        match failed with
        | Some e => Done (Some e, b, out, results_itr)
        | None =>
            write_bins_loop fuel' cov bin_size chrom_size name_size
              (U32.wrap32 (bin_beg + bin_size)) b out (tail results_itr)
        end
      else Done (None, b, out, results_itr)
  end.

(** The loop over [zip(cim.chrom_size, cim.chrom_order)]; the result
    holds the stream and [results_itr] as the function leaves them. *)
Fixpoint write_bins_chroms (fuel : nat) (cov : bool) (bin_size : Z)
    (zipped : list (Z * list Z)) (b : list Z) (out : ostream)
    (results_itr : list counts)
    : outcome (error_code * ostream * list counts) :=
  match zipped with
  | [] => Done (0, out, results_itr)
  | (chrom_size, chrom_name) :: zipped' =>
      b ← Request.copy chrom_name b;
      '(b, _) ← store b (length chrom_name) delim;
      '(returned, b, out, results_itr) ←
        write_bins_loop fuel cov bin_size chrom_size (length chrom_name) 0
          b out results_itr;
      match returned with
      | Some e => Done (e, out, results_itr)
      | None => write_bins_chroms fuel cov bin_size zipped' b out results_itr
      end
  end.

(** [write_bins(out, cim, bin_size, results)].  The last component of
    the result is [results_itr] at the end, which the final [assert]
    compares with [std::cend(results)]. *)
Definition write_bins (fuel : nat) (cov : bool) (out : ostream)
    (cim : cpg_index_meta) (bin_size : Z) (results : list counts)
    : outcome (error_code * ostream * list counts) :=
  write_bins_chroms fuel cov bin_size (zip (chrom_size cim) (chrom_order cim))
    (replicate buf_size 0) out results.

(** *** [write_intervals] *)

(** [std::views::chunk_by(same)]: maximal runs in which [same] holds
    between neighbours. *)
Fixpoint chunk_by {A : Type} (same : A -> A -> bool) (l : list A)
    : list (list A) :=
  match l with
  | [] => []
  | x :: l' =>
      match chunk_by same l' with
      | (y :: chunk) :: chunks =>
          if same x y then (x :: y :: chunk) :: chunks
          else [x] :: (y :: chunk) :: chunks
      | _ => [[x]]
      end
  end.

Definition same_chrom (a b : genomic_interval * counts) : bool :=
  ch_id a.1 =? ch_id b.1.

(** [cim.chrom_order[ch_id]]. *)
Definition chrom_of (cim : cpg_index_meta) (id : Z) : outcome (list Z) :=
  if id <? 0 then OutOfBounds
  else match chrom_order cim !! Z.to_nat id with
       | Some chrom => Done chrom
       | None => OutOfBounds
       end.

(** The loop over one chunk. *)
Fixpoint write_intervals_chunk (cov : bool) (name_size : nat) (b : list Z)
    (out : ostream) (chunk : list (genomic_interval * counts))
    : outcome (option error_code * list Z * ostream) :=
  match chunk with
  | [] => Done (None, b, out)
  | (gi, single_result) :: chunk' =>
      '(b, ptr) ← write_range b (S name_size) (start gi) (stop gi);
      '(b, ptr) ← write_counts cov b ptr single_result;
      let '(out, failed) := write out (take ptr b) in
      match failed with
      | Some e => Done (Some e, b, out)
      | None => write_intervals_chunk cov name_size b out chunk'
      end
  end.

(** The loop over the chunks; [chunk.front()] of an empty chunk cannot
    be read. *)
Fixpoint write_intervals_chunks (cov : bool) (cim : cpg_index_meta)
    (b : list Z) (out : ostream)
    (chunks : list (list (genomic_interval * counts)))
    : outcome (error_code * ostream) :=
  match chunks with
  | [] => Done (0, out)
  | chunk :: chunks' =>
      match chunk with
      | [] => OutOfBounds
      | (front, _) :: _ =>
          chrom ← chrom_of cim (ch_id front);
          b ← Request.copy chrom b;
          '(b, _) ← store b (length chrom) delim;
          '(returned, b, out) ←
            write_intervals_chunk cov (length chrom) b out chunk;
          match returned with
          | Some e => Done (e, out)
          | None => write_intervals_chunks cov cim b out chunks'
          end
      end
  end.

(** [write_intervals(out, cim, gis, results)]. *)
Definition write_intervals (cov : bool) (out : ostream) (cim : cpg_index_meta)
    (gis : list genomic_interval) (results : list counts)
    : outcome (error_code * ostream) :=
  write_intervals_chunks cov cim (replicate buf_size 0) out
    (chunk_by same_chrom (zip gis results)).

(** *** The lines *)

(** What follows the name and its [delim] on a line. *)
Definition fields (cov : bool) (beg end_ : Z) (r : counts) : list Z :=
  Request.format_u32 beg ++ [delim] ++ Request.format_u32 end_ ++ [delim]
    ++ Request.format_u32 r.1.1 ++ [delim] ++ Request.format_u32 r.1.2
    ++ (if cov then delim :: Request.format_u32 r.2 else []) ++ [newline].

Definition line (cov : bool) (name : list Z) (beg end_ : Z) (r : counts)
    : list Z :=
  name ++ [delim] ++ fields cov beg end_ r.

(** The line of the [k]-th bin of a chromosome. *)
Definition bin_line (cov : bool) (bin_size : Z) (chrom : Z * list Z)
    (k : nat) (r : counts) : list Z :=
  let b := bin_bounds bin_size chrom.1 k in
  line cov chrom.2 b.1 b.2 r.

(** One line still to be filled with its counts for every bin of every
    chromosome, in order. *)
Definition bin_lines (cov : bool) (bin_size : Z) (zipped : list (Z * list Z))
    : list (counts -> list Z) :=
  concat (map (fun chrom =>
                 map (bin_line cov bin_size chrom)
                     (seq 0 (Z.to_nat (ceil_div chrom.1 bin_size))))
              zipped).

(** Writing lines one after the other as long as there is a result for
    the next and the stream stays good. *)
Fixpoint write_lines (lines : list (counts -> list Z)) (out : ostream)
    (results_itr : list counts)
    : outcome (option error_code * ostream * list counts) :=
  match lines with
  | [] => Done (None, out, results_itr)
  | l :: lines' =>
      match results_itr with
      | [] => OutOfBounds
      | r :: results_next =>
          let '(out, failed) := write out (l r) in
          match failed with
          | Some e => Done (Some e, out, results_itr)
          | None => write_lines lines' out results_next
          end
      end
  end.

(** A chromosome whose walk neither wraps nor outruns the fuel and
    whose lines fit in the buffer. *)
Definition chrom_fits (fuel : nat) (bin_size : Z) (chrom : Z * list Z) : Prop :=
  0 <= chrom.1
  /\ ceil_div chrom.1 bin_size * bin_size < U32.modulus
  /\ ceil_div chrom.1 bin_size < Z.of_nat fuel
  /\ (length chrom.2 + 56 <= buf_size)%nat.

(** The line of an interval, with the name its [ch_id] stands for. *)
Definition interval_line (cov : bool) (cim : cpg_index_meta)
    (entry : genomic_interval * counts) : list Z :=
  line cov (default [] (chrom_order cim !! Z.to_nat (ch_id entry.1)))
       (start entry.1) (stop entry.1) entry.2.

(** The [ch_id] of an interval names a chromosome whose lines fit. *)
Definition interval_fits (cim : cpg_index_meta) (gi : genomic_interval) : Prop :=
  0 <= ch_id gi
  /\ exists chrom, chrom_order cim !! Z.to_nat (ch_id gi) = Some chrom
                   /\ (length chrom + 56 <= buf_size)%nat.

(** *** Notions to state the properties with *)

(** Writing a segment at [p]: past the end when it does not fit. *)
Definition emit (b : list Z) (p : nat) (seg : list Z) : outcome (list Z * nat) :=
  if (p + length seg <=? length b)%nat
  then Done (take p b ++ seg ++ drop (p + length seg) b, (p + length seg)%nat)
  else OutOfBounds.

(** The lines filled with the results, and a stream after more blocks. *)
Definition filled (lines : list (counts -> list Z)) (rs : list counts)
    : list (list Z) :=
  zip_with (fun l r => l r) lines rs.

Definition with_blocks (out : ostream) (new : list (list Z)) : ostream :=
  {| device := device out; blocks := blocks out ++ new |}.

(** Writing blocks one after the other as long as the stream stays good. *)
Fixpoint write_blocks (ls : list (list Z)) (out : ostream)
    : option error_code * ostream :=
  match ls with
  | [] => (None, out)
  | l :: ls' =>
      let '(out, failed) := write out l in
      match failed with
      | Some e => (Some e, out)
      | None => write_blocks ls' out
      end
  end.

(** A chunk as [chunk_by] gives them: not empty, every interval on the
    chromosome of the first, whose lines fit. *)
Definition intervals_ok (cim : cpg_index_meta)
    (chunk : list (genomic_interval * counts)) : Prop :=
  match chunk with
  | [] => False
  | (front, _) :: _ =>
      interval_fits cim front
      /\ Forall (fun entry => ch_id entry.1 = ch_id front) chunk
  end.

(** A stream that stays good, and one that fails at its [k]-th write
    with [errno] left at [e]. *)
Definition good_stream : ostream := {| device := fun _ => None; blocks := [] |}.

Definition failing_stream (k : nat) (e : Z) : ostream :=
  {| device := fun j => if (j =? k)%nat then Some e else None; blocks := [] |}.

(** The sizes and names of the S1 index. *)
Definition s1_meta : cpg_index_meta :=
  {| chrom_order := [Request.bytes "chr1"; Request.bytes "chr2"];
     chrom_size := [8; 2] |}.

End GenomicIntervalOutput.

(* ===================================================================== *)
(** * Part II: properties *)
(* ===================================================================== *)

Module CpgIndexProps.
Import CpgIndex.

Example s2_chr1 : get_offsets s1_index 0 [(3, 7)] = Done [(1, 3)].
Proof. reflexivity. Qed.

Example s2_chr2 : get_offsets s1_index 1 [(0, 2)] = Done [(3, 4)].
Proof. reflexivity. Qed.

Lemma strictly_ascending_lower lower v :
  strictly_ascending lower v = true -> Forall (fun p => lower < p) v.
Proof.
  revert lower; induction v as [|p v IH]; intros lower H; [constructor|].
  simpl in H. apply andb_prop in H as [Hp Hv]. apply Z.ltb_lt in Hp.
  constructor; [exact Hp|].
  eapply Forall_impl; [apply (IH p Hv)|]. simpl; intros; lia.
Qed.

Lemma strictly_ascending_at lower v :
  strictly_ascending lower v = true -> ascending_at v.
Proof.
  revert lower; induction v as [|p v IH]; intros lower H i j x y Hi Hj Hij.
  - rewrite lookup_nil in Hi; discriminate.
  - simpl in H. apply andb_prop in H as [_ Hv].
    destruct j as [|j]; [lia|]. simpl in Hj.
    destruct i as [|i]; simpl in Hi.
    + injection Hi as ->.
      pose proof (strictly_ascending_lower _ _ Hv) as Hall.
      rewrite Forall_forall in Hall.
      apply Hall. eapply list_elem_of_lookup_2; eauto.
    + eapply (IH p Hv i j); eauto; lia.
Qed.

Lemma partition_point_count v value r :
  partition_point v value r ->
  length (filter (fun p => p < value) v) = r.
Proof.
  revert r; induction v as [|a v IH]; intros r (Hlen & Hlt & Hge).
  - simpl in Hlen. rewrite filter_nil. simpl. lia.
  - rewrite filter_cons. destruct r as [|r].
    + pose proof (Hge 0%nat a eq_refl ltac:(lia)) as Ha.
      case_decide; [lia|].
      apply IH. split; [simpl; lia|]. split.
      * intros i x _ Hi; lia.
      * intros i x Hx _. apply (Hge (S i) x Hx). lia.
    + pose proof (Hlt 0%nat a eq_refl ltac:(lia)) as Ha.
      case_decide; [|lia]. simpl. f_equal.
      apply IH. split; [simpl in Hlen; lia|]. split.
      * intros i x Hx Hi. apply (Hlt (S i) x Hx). lia.
      * intros i x Hx Hi. apply (Hge (S i) x Hx). lia.
Qed.

Lemma div2_lt_succ n : (Nat.div2 (S n) <= n)%nat.
Proof.
  pose proof (Nat.lt_div2 (S n) ltac:(lia)). lia.
Qed.

(** The halving loop ends on a partition point of the range it was given. *)
Lemma lower_bound_loop_partition fuel : forall v first count value,
  ascending_at v ->
  (count <= fuel)%nat ->
  (first + count <= length v)%nat ->
  (forall i x, v !! i = Some x -> (i < first)%nat -> x < value) ->
  (forall i x, v !! i = Some x -> (first + count <= i)%nat -> value <= x) ->
  partition_point v value (lower_bound_loop fuel v first count value).
Proof.
  induction fuel as [|fuel IH]; intros v first count value Hasc Hfuel Hlen Hlo Hhi.
  - assert (count = 0%nat) as -> by lia. simpl.
    split; [lia|]. split; [exact Hlo|].
    intros i x Hx Hi. apply (Hhi i x Hx). lia.
  - simpl. destruct count as [|c].
    + split; [lia|]. split; [exact Hlo|].
      intros i x Hx Hi. apply (Hhi i x Hx). lia.
    + pose proof (div2_lt_succ c) as Hstep.
      set (step := Nat.div2 (S c)) in *.
      destruct (lookup_lt_is_Some_2 v (first + step)%nat ltac:(lia)) as [x Hx].
      rewrite Hx. destruct (Z.ltb_spec x value) as [Hxv|Hxv].
      * apply IH; try assumption; try lia.
        intros i y Hy Hi.
        destruct (decide (i = (first + step)%nat)) as [->|Hne].
        -- rewrite Hx in Hy. injection Hy as <-. exact Hxv.
        -- pose proof (Hasc i (first + step)%nat y x Hy Hx ltac:(lia)). lia.
        -- intros i y Hy Hi. apply (Hhi i y Hy). lia.
      * apply IH; try assumption; try lia.
        intros i y Hy Hi.
        destruct (decide (i = (first + step)%nat)) as [->|Hne].
        -- rewrite Hx in Hy. injection Hy as <-. exact Hxv.
        -- pose proof (Hasc (first + step)%nat i x y Hx Hy ltac:(lia)). lia.
Qed.

Lemma lower_bound_count v value :
  ascending_at v -> Z.of_nat (lower_bound v value) = count_below v value.
Proof.
  intros Hasc. unfold count_below, n_below, lower_bound. f_equal. symmetry.
  apply partition_point_count, lower_bound_loop_partition; try assumption; try lia.
  - intros i x Hx Hi.
    apply lookup_lt_Some in Hx. lia.
Qed.

Lemma count_below_split v start stop :
  start <= stop ->
  count_below v start + count_in_range v start stop = count_below v stop.
Proof.
  intros Hle. unfold count_below, count_in_range, n_below.
  induction v as [|p v IH]; [reflexivity|].
  rewrite !filter_cons.
  repeat case_decide; simpl length; lia.
Qed.

Lemma count_below_nonneg v bound : 0 <= count_below v bound.
Proof. unfold count_below, n_below. lia. Qed.

Lemma count_below_length v bound : count_below v bound <= Z.of_nat (length v).
Proof.
  unfold count_below, n_below.
  pose proof (length_filter (fun p => p < bound) v). lia.
Qed.

Lemma count_in_range_nonneg v start stop : 0 <= count_in_range v start stop.
Proof. unfold count_in_range. lia. Qed.

Lemma total_cpgs_nonneg ps : 0 <= total_cpgs ps.
Proof. induction ps; simpl; lia. Qed.

Lemma running_offsets_lookup ps : forall acc i off v,
  running_offsets acc ps !! i = Some off ->
  ps !! i = Some v ->
  acc <= off /\ off + Z.of_nat (length v) <= acc + total_cpgs ps.
Proof.
  induction ps as [|p ps IH]; intros acc i off v Hoff Hv.
  - rewrite lookup_nil in Hv; discriminate.
  - destruct i as [|i]; simpl in *.
    + injection Hoff as <-. injection Hv as <-.
      pose proof (total_cpgs_nonneg ps). lia.
    + destruct (IH _ _ _ _ Hoff Hv). lia.
Qed.

Lemma running_offsets_length ps : forall acc,
  length (running_offsets acc ps) = length ps.
Proof. induction ps; intros; simpl; auto. Qed.

(** What [well_formed] gives for a chromosome that resolves in the index. *)
Lemma well_formed_chrom idx i v :
  well_formed idx = true ->
  positions idx !! i = Some v ->
  exists size off,
    chrom_size idx !! i = Some size
    /\ chrom_offset idx !! i = Some off
    /\ ascending_at v
    /\ strictly_ascending (-1) v = true
    /\ Forall (fun p => 0 <= p < size) v
    /\ 0 <= size < U32.modulus
    /\ 0 <= off
    /\ off + Z.of_nat (length v) <= n_cpgs_total idx
    /\ n_cpgs_total idx < U32.modulus.
Proof.
  unfold well_formed. rewrite !andb_true_iff.
  intros [[[[[Hsz _] Hok] Hoff] Htot] Hrange] Hv.
  apply bool_decide_eq_true in Hsz, Hoff, Htot.
  unfold U32.in_range in Hrange. apply andb_prop in Hrange as [_ Hmax].
  apply Z.ltb_lt in Hmax.
  destruct (lookup_lt_is_Some_2 (chrom_size idx) i) as [size Hsize].
  { rewrite Hsz. eapply lookup_lt_Some; eauto. }
  destruct (lookup_lt_is_Some_2 (chrom_offset idx) i) as [off Ho].
  { rewrite Hoff, running_offsets_length. eapply lookup_lt_Some; eauto. }
  exists size, off.
  assert (chrom_ok (v, size) = true) as Hchrom.
  { rewrite forallb_forall in Hok. apply Hok.
    apply list_elem_of_In. eapply list_elem_of_lookup_2 with (i := i).
    rewrite lookup_zip_with, Hv. simpl. rewrite Hsize. reflexivity. }
  unfold chrom_ok in Hchrom. simpl in Hchrom.
  rewrite !andb_true_iff in Hchrom. destruct Hchrom as [[Hasc Hbelow] Hs].
  unfold U32.in_range in Hs. apply andb_prop in Hs as [Hs0 Hs1].
  apply Z.leb_le in Hs0. apply Z.ltb_lt in Hs1.
  rewrite Hoff in Ho.
  destruct (running_offsets_lookup _ _ _ _ _ Ho Hv) as [Hlo Hhi].
  rewrite <- Hoff in Ho.
  repeat split; try assumption; try lia.
  - eapply strictly_ascending_at; eauto.
  - pose proof (strictly_ascending_lower _ _ Hasc) as Hpos.
    rewrite forallb_forall in Hbelow.
    rewrite Forall_forall in Hpos |- *. intros p Hp.
    specialize (Hpos p Hp). simpl in Hpos.
    apply list_elem_of_In in Hp. apply Hbelow, Z.ltb_lt in Hp. lia.
Qed.

(** C1. For a well-formed index, a chromosome id that resolves in it and
    an interval with [start <= stop], the offset query returns the pair
    [(off + lo, off + hi)] where [off] is [chrom_offset[ch_id]], [lo] is
    the number of CpG positions of the chromosome below [start] and [hi]
    the number below [stop]; so [lo <= hi] and [hi - lo] is the number of
    positions in [start, stop). *)
Theorem get_offsets_counts (idx : cpg_index) (ch_id start stop : Z)
    (v : list Z) :
  well_formed idx = true ->
  0 <= ch_id ->
  positions idx !! Z.to_nat ch_id = Some v ->
  start <= stop ->
  exists off lo hi,
    chrom_offset idx !! Z.to_nat ch_id = Some off
    /\ get_offset_within_chrom idx ch_id start = Done lo
    /\ get_offset_within_chrom idx ch_id stop = Done hi
    /\ lo = count_below v start
    /\ hi = count_below v stop
    /\ lo <= hi
    /\ hi - lo = count_in_range v start stop
    /\ get_offsets idx ch_id [(start, stop)] = Done [(off + lo, off + hi)].
Proof.
  intros Hwf Hch Hv Hle.
  destruct (well_formed_chrom _ _ _ Hwf Hv)
    as (size & off & _ & Hoff & Hasc & _ & _ & _ & Hoff0 & Hsum & Hmax).
  exists off, (count_below v start), (count_below v stop).
  assert (get_offset_within_chrom idx ch_id start = Done (count_below v start)) as Hlo.
  { unfold get_offset_within_chrom.
    destruct (Z.ltb_spec ch_id 0); [lia|].
    rewrite Hv, lower_bound_count by assumption. reflexivity. }
  assert (get_offset_within_chrom idx ch_id stop = Done (count_below v stop)) as Hhi.
  { unfold get_offset_within_chrom.
    destruct (Z.ltb_spec ch_id 0); [lia|].
    rewrite Hv, lower_bound_count by assumption. reflexivity. }
  pose proof (count_below_split v start stop Hle) as Hsplit.
  pose proof (count_in_range_nonneg v start stop).
  pose proof (count_below_nonneg v start).
  pose proof (count_below_length v stop).
  repeat split; try assumption; try reflexivity; try lia.
  unfold get_offsets. destruct (Z.ltb_spec ch_id 0); [lia|].
  rewrite Hoff. simpl. rewrite Hlo, Hhi. simpl.
  unfold U32.wrap32. rewrite !Z.mod_small by lia. reflexivity.
Qed.

Lemma get_offsets_counts_witness :
  exists off lo hi,
    chrom_offset s1_index !! Z.to_nat 0 = Some off
    /\ get_offset_within_chrom s1_index 0 3 = Done lo
    /\ get_offset_within_chrom s1_index 0 7 = Done hi
    /\ lo = count_below [2; 4; 6] 3
    /\ hi = count_below [2; 4; 6] 7
    /\ lo <= hi
    /\ hi - lo = count_in_range [2; 4; 6] 3 7
    /\ get_offsets s1_index 0 [(3, 7)] = Done [(off + lo, off + hi)].
Proof.
  apply (get_offsets_counts s1_index 0 3 7 [2; 4; 6]).
  - reflexivity.
  - lia.
  - reflexivity.
  - lia.
Defined.

End CpgIndexProps.

Module BinsProps.
Import CpgIndex Bins.

Example s4_bins :
  bins_main 3 s1_index s3_methylome 4 = Done [(10, 0, 1); (5, 25, 2); (7, 3, 1)].
Proof. reflexivity. Qed.

Example s4_bins_spec :
  all_bins wrapped_counts s1_index s3_methylome 4 = [(10, 0, 1); (5, 25, 2); (7, 3, 1)].
Proof. reflexivity. Qed.

(** *** Arithmetic of the accumulators *)

Lemma wrap32_add_l x y : U32.wrap32 (U32.wrap32 x + y) = U32.wrap32 (x + y).
Proof. unfold U32.wrap32. apply Zplus_mod_idemp_l. Qed.

Lemma wrap32_small x : 0 <= x < U32.modulus -> U32.wrap32 x = x.
Proof. intros H. unfold U32.wrap32. apply Z.mod_small; exact H. Qed.

Lemma count_covered_cons r recs :
  count_covered (r :: recs)
  = (if 0 <? r.1 + r.2 then 1 else 0) + count_covered recs.
Proof.
  unfold count_covered. rewrite filter_cons.
  destruct (Z.ltb_spec 0 (r.1 + r.2)); case_decide; simpl length; lia.
Qed.

Lemma count_covered_bound recs :
  0 <= count_covered recs <= Z.of_nat (length recs).
Proof.
  unfold count_covered.
  pose proof (length_filter (fun r : Z * Z => 0 < r.1 + r.2) recs). lia.
Qed.

Lemma foldl_add_counts recs : forall a b c,
  foldl add_counts (U32.wrap32 a, U32.wrap32 b, U32.wrap32 c) recs
  = (U32.wrap32 (a + sum_meth recs), U32.wrap32 (b + sum_unmeth recs),
     U32.wrap32 (c + count_covered recs)).
Proof.
  induction recs as [|r recs IH]; intros a b c.
  - simpl. unfold count_covered. simpl. rewrite !Z.add_0_r. reflexivity.
  - simpl foldl. unfold add_counts at 2. simpl fst. simpl snd.
    rewrite !wrap32_add_l, IH, count_covered_cons. simpl sum_meth. simpl sum_unmeth.
    rewrite !Z.add_assoc. reflexivity.
Qed.

Lemma foldl_add_counts_zero recs :
  Z.of_nat (length recs) < U32.modulus ->
  foldl add_counts (0, 0, 0) recs = wrapped_counts recs.
Proof.
  intros Hlen. change (0, 0, 0) with (U32.wrap32 0, U32.wrap32 0, U32.wrap32 0).
  rewrite foldl_add_counts. unfold wrapped_counts. rewrite !Z.add_0_l.
  pose proof (count_covered_bound recs).
  rewrite (wrap32_small (count_covered recs)) by lia. reflexivity.
Qed.

(** *** Positions below a bound in an ascending vector *)

Lemma strictly_ascending_weaken v : forall lower lower',
  lower' <= lower ->
  strictly_ascending lower v = true -> strictly_ascending lower' v = true.
Proof.
  destruct v as [|p v]; intros lower lower' Hle H; [reflexivity|].
  simpl in *. apply andb_prop in H as [Hp Hv]. apply Z.ltb_lt in Hp.
  apply andb_true_intro; split; [apply Z.ltb_lt; lia|exact Hv].
Qed.

Lemma n_below_none v : forall lower bound,
  strictly_ascending lower v = true -> bound <= lower + 1 -> n_below v bound = 0%nat.
Proof.
  induction v as [|p v IH]; intros lower bound H Hb; [reflexivity|].
  simpl in H. apply andb_prop in H as [Hp Hv]. apply Z.ltb_lt in Hp.
  unfold n_below. rewrite filter_cons. case_decide; [lia|].
  apply (IH p bound Hv). lia.
Qed.

Lemma n_below_cons p v bound :
  n_below (p :: v) bound = if decide (p < bound) then S (n_below v bound) else n_below v bound.
Proof. unfold n_below. rewrite filter_cons. case_decide; reflexivity. Qed.

Lemma n_below_clip v bound size :
  Forall (fun p => p < size) v ->
  n_below v (Z.min bound size) = n_below v bound.
Proof.
  induction 1 as [|p v Hp Hv IH]; [reflexivity|].
  rewrite !n_below_cons, IH. repeat case_decide; try reflexivity; lia.
Qed.

Lemma n_below_length v bound : (n_below v bound <= length v)%nat.
Proof. unfold n_below. apply length_filter. Qed.

Lemma records_in_bin_length posns recs lo hi :
  (length (records_in_bin posns recs lo hi) <= length posns)%nat.
Proof.
  unfold records_in_bin. rewrite length_fmap.
  etransitivity; [apply length_filter|].
  rewrite length_zip_with. lia.
Qed.

Lemma records_in_bin_none posns : forall lower recs lo hi,
  strictly_ascending lower posns = true -> hi <= lower + 1 ->
  records_in_bin posns recs lo hi = [].
Proof.
  induction posns as [|p posns IH]; intros lower recs lo hi Hasc Hhi.
  - reflexivity.
  - destruct recs as [|r recs]; [reflexivity|].
    simpl in Hasc. apply andb_prop in Hasc as [Hp Hasc]. apply Z.ltb_lt in Hp.
    unfold records_in_bin. simpl zip. rewrite filter_cons. simpl fst.
    case_decide; [lia|]. apply (IH p); [assumption|lia].
Qed.

(** *** The kernel on one bin *)

(** Started where the positions below [lo] end, [bin_counts] adds up the
    records whose position lies in [lo, hi) and stops where the
    positions below [hi] end. *)
Lemma bin_counts_loop_slice posns : forall lower recs lo hi acc,
  strictly_ascending lower posns = true ->
  lo <= hi ->
  (length posns <= length recs)%nat ->
  bin_counts_loop (drop (n_below posns lo) posns) hi
                  (drop (n_below posns lo) recs) acc
  = Done (foldl add_counts acc (records_in_bin posns recs lo hi),
          drop (n_below posns hi) posns, drop (n_below posns hi) recs).
Proof.
  induction posns as [|p posns IH]; intros lower recs lo hi acc Hasc Hle Hlen.
  - unfold n_below, records_in_bin. simpl. rewrite !drop_0. reflexivity.
  - destruct recs as [|r recs]; [simpl in Hlen; lia|].
    simpl in Hasc. apply andb_prop in Hasc as [Hp Hasc].
    simpl in Hlen. assert (length posns <= length recs)%nat as Hlen' by lia.
    unfold records_in_bin. simpl zip. rewrite filter_cons. simpl fst.
    rewrite !n_below_cons.
    destruct (decide (p < lo)) as [Hplo|Hplo].
    + destruct (decide (p < hi)) as [_|?]; [|lia].
      destruct (decide (lo <= p < hi)) as [?|_]; [lia|].
      simpl drop. apply (IH p); assumption.
    + rewrite (n_below_none posns p lo Hasc) by lia.
      pose proof (IH p recs lo hi) as IH'.
      rewrite (n_below_none posns p lo Hasc) in IH' by lia.
      rewrite !drop_0 in IH'.
      destruct (decide (p < hi)) as [Hphi|Hphi].
      * destruct (decide (lo <= p < hi)) as [_|?]; [|lia].
        simpl drop. simpl bin_counts_loop.
        destruct (Z.ltb_spec p hi); [|lia].
        rewrite IH' by assumption. reflexivity.
      * destruct (decide (lo <= p < hi)) as [?|_]; [lia|].
        rewrite (n_below_none posns p hi Hasc) by lia.
        simpl drop. simpl bin_counts_loop.
        destruct (Z.ltb_spec p hi); [lia|].
        pose proof (records_in_bin_none posns p recs lo hi Hasc ltac:(lia)) as Hnone.
        unfold records_in_bin in Hnone. rewrite Hnone. reflexivity.
Qed.

(** *** The walk over one chromosome *)

Lemma ceil_div_bounds size b :
  0 < b -> b * ceil_div size b - b < size <= b * ceil_div size b.
Proof.
  intros Hb. unfold ceil_div.
  pose proof (Z.mul_div_le (size + b - 1) b Hb).
  pose proof (Z.mul_succ_div_gt (size + b - 1) b Hb). lia.
Qed.

Lemma bin_start_in_chrom size b k :
  0 < b -> (k * b < size <-> k < ceil_div size b).
Proof. intros Hb. pose proof (ceil_div_bounds size b Hb). nia. Qed.

Section chromosome.

Variables (posns : list Z) (recs : list (Z * Z)) (bin_size chrom_size : Z).
Hypothesis Hasc : strictly_ascending (-1) posns = true.
Hypothesis Hbelow : Forall (fun p => p < chrom_size) posns.
Hypothesis Hrecs : (length posns <= length recs)%nat.
Hypothesis Hposns : Z.of_nat (length posns) < U32.modulus.
Hypothesis Hbin : 0 < bin_size.
Hypothesis Hfits : ceil_div chrom_size bin_size * bin_size < U32.modulus.

Let n_bins : nat := Z.to_nat (ceil_div chrom_size bin_size).

Let bin_result (k : nat) : counts :=
  let b := bin_bounds bin_size chrom_size k in
  wrapped_counts (records_in_bin posns recs b.1 b.2).

Lemma bins_loop_from (fuel : nat) : forall (k : nat) (results : list counts),
  (k <= n_bins)%nat ->
  (n_bins - k < fuel)%nat ->
  bins_loop fuel bin_size chrom_size (Z.of_nat k * bin_size)
    (drop (n_below posns (Z.of_nat k * bin_size)) posns)
    (drop (n_below posns (Z.of_nat k * bin_size)) recs) results
  = Done (results ++ map bin_result (seq k (n_bins - k))).
Proof.
  induction fuel as [|fuel IH]; intros k results Hk Hfuel; [lia|].
  pose proof (bin_start_in_chrom chrom_size bin_size (Z.of_nat k) Hbin) as Hin.
  simpl bins_loop.
  destruct (Z.ltb_spec (Z.of_nat k * bin_size) chrom_size) as [Hlt|Hge].
  - assert (k < n_bins)%nat as Hk' by (subst n_bins; lia).
    assert (Z.of_nat k * bin_size + bin_size <= ceil_div chrom_size bin_size * bin_size)
      as Hnext by (subst n_bins; nia).
    rewrite (wrap32_small (Z.of_nat k * bin_size + bin_size)) by nia.
    unfold bin_counts.
    rewrite (bin_counts_loop_slice posns (-1) recs) by (assumption || lia).
    simpl.
    rewrite n_below_clip by assumption.
    replace (Z.of_nat k * bin_size + bin_size) with (Z.of_nat (S k) * bin_size) by lia.
    rewrite IH by lia.
    replace (n_bins - k)%nat with (S (n_bins - S k)) by lia.
    simpl seq. simpl map. rewrite <- app_assoc. simpl app.
    do 3 f_equal. unfold bin_result, bin_bounds. simpl fst. simpl snd.
    replace ((Z.of_nat k + 1) * bin_size) with (Z.of_nat (S k) * bin_size) by lia.
    apply foldl_add_counts_zero.
    pose proof (records_in_bin_length posns recs (Z.of_nat k * bin_size)
                  (Z.min (Z.of_nat (S k) * bin_size) chrom_size)). lia.
  - assert (k = n_bins) as -> by (subst n_bins; lia).
    rewrite Nat.sub_diag. simpl. rewrite app_nil_r. reflexivity.
Qed.

(** The walk ends and gives one result for each of the
    [ceil (chrom_size / bin_size)] bins, in order. *)
Lemma bins_loop_chrom (fuel : nat) (results : list counts) :
  (n_bins < fuel)%nat ->
  bins_loop fuel bin_size chrom_size 0 posns recs results
  = Done (results ++ map bin_result (seq 0 n_bins)).
Proof.
  intros Hfuel.
  pose proof (bins_loop_from fuel 0 results ltac:(lia) ltac:(lia)) as H.
  rewrite (n_below_none posns (-1) (Z.of_nat 0 * bin_size) Hasc) in H by lia.
  rewrite !drop_0, Nat.sub_0_r in H. exact H.
Qed.

End chromosome.

(** *** All chromosomes *)

Lemma bins_chroms_wrapped (fuel : nat) (bin_size : Z) (meth : methylome)
    (zipped : list (list Z * Z * Z)) :
  0 < bin_size ->
  Forall (fun c : list Z * Z * Z =>
            strictly_ascending (-1) c.1.1 = true
            /\ Forall (fun p => p < c.1.2) c.1.1
            /\ 0 <= c.1.2
            /\ 0 <= c.2
            /\ c.2 + Z.of_nat (length c.1.1) <= Z.of_nat (length (cpgs meth))
            /\ Z.of_nat (length c.1.1) < U32.modulus
            /\ ceil_div c.1.2 bin_size * bin_size < U32.modulus
            /\ ceil_div c.1.2 bin_size < Z.of_nat fuel) zipped ->
  forall results,
    bins_chroms fuel bin_size zipped meth results
    = Done (results ++ concat (map (chrom_bins wrapped_counts bin_size meth) zipped)).
Proof.
  intros Hbin Hall.
  induction Hall as [|[[posns size] off] zipped Hc _ IH]; intros results.
  - simpl. rewrite app_nil_r. reflexivity.
  - simpl in Hc.
    destruct Hc as (Hasc & Hbelow & Hsize & Hoff & Hlen & Hn & Hfits & Hfuel).
    simpl bins_chroms.
    destruct (Z.ltb_spec (Z.of_nat (length (cpgs meth))) off); [lia|].
    rewrite bins_loop_chrom; try assumption.
    + simpl. rewrite IH. rewrite <- app_assoc. reflexivity.
    + rewrite length_drop. lia.
    + pose proof (ceil_div_bounds size bin_size Hbin).
      assert (0 <= ceil_div size bin_size) by nia. lia.
Qed.

Lemma zipped_chroms_lookup idx i posns size off :
  zipped_chroms idx !! i = Some (posns, size, off) ->
  positions idx !! i = Some posns
  /\ chrom_size idx !! i = Some size
  /\ chrom_offset idx !! i = Some off.
Proof.
  unfold zipped_chroms. intros H.
  apply lookup_zip_with_Some in H as (ps & off' & Heq & Hps & Hoff).
  injection Heq as <- ->.
  apply lookup_zip_with_Some in Hps as (posns' & size' & Heq & Hposns & Hsize).
  injection Heq as -> ->. auto.
Qed.

Lemma forallb_lookup {A} (f : A -> bool) (l : list A) i x :
  forallb f l = true -> l !! i = Some x -> f x = true.
Proof.
  intros Hall Hx. rewrite forallb_forall in Hall. apply Hall.
  apply list_elem_of_In. eapply list_elem_of_lookup_2; eauto.
Qed.

(** With 32-bit accumulators the results of [bins_main] are, bin by
    bin and chromosome by chromosome, the sums modulo [2^32] over the
    records whose position lies in the bin. *)
Lemma bins_main_wrapped (idx : cpg_index) (meth : methylome) (bin_size : Z)
    (fuel : nat) :
  well_formed idx = true ->
  aligned idx meth = true ->
  0 < bin_size ->
  walk_fits idx bin_size = true ->
  fuel_covers fuel idx bin_size = true ->
  bins_main fuel idx meth bin_size
  = Done (all_bins wrapped_counts idx meth bin_size).
Proof.
  intros Hwf Hal Hbin Hfits Hfuel.
  unfold bins_main, all_bins.
  rewrite bins_chroms_wrapped; [reflexivity|assumption|].
  apply Forall_lookup_2. intros i [[posns size] off] Hi.
  apply zipped_chroms_lookup in Hi as (Hposns & Hsize & Hoff).
  destruct (CpgIndexProps.well_formed_chrom _ _ _ Hwf Hposns)
    as (size' & off' & Hsize' & Hoff' & _ & Hasc & Hrange & Hsz & Hoff0 & Hsum & Hmax).
  rewrite Hsize in Hsize'. injection Hsize' as <-.
  rewrite Hoff in Hoff'. injection Hoff' as <-.
  unfold aligned in Hal. apply andb_prop in Hal as [Hlen _].
  apply bool_decide_eq_true in Hlen.
  pose proof (forallb_lookup _ _ _ _ Hfits Hsize) as Hf. apply Z.ltb_lt in Hf.
  pose proof (forallb_lookup _ _ _ _ Hfuel Hsize) as Hc. apply Z.ltb_lt in Hc.
  simpl. split; [exact Hasc|]. split.
  { eapply Forall_impl; [exact Hrange|]. simpl; intros; lia. }
  repeat split; lia.
Qed.

(** C2. For a well-formed index, a methylome aligned to it, a bin size
    above zero and a walk whose bin ends fit in 32 bits, [bins_main]
    returns for every bin of every chromosome, in order, the sum of the
    m-counts and the sum of the u-counts, both modulo [2^32], and the
    number of records with [m + u > 0], over exactly the records whose
    position lies in the bin; on the S1 index with the S3 methylome and
    bin size 4 the results are (10,0,1), (5,25,2), (7,3,1). *)
Theorem bins_main_counts :
  (forall (idx : cpg_index) (meth : methylome) (bin_size : Z) (fuel : nat),
     well_formed idx = true ->
     aligned idx meth = true ->
     0 < bin_size ->
     walk_fits idx bin_size = true ->
     fuel_covers fuel idx bin_size = true ->
     bins_main fuel idx meth bin_size
     = Done (all_bins wrapped_counts idx meth bin_size))
  /\ bins_main 3 s1_index s3_methylome 4
     = Done [(10, 0, 1); (5, 25, 2); (7, 3, 1)].
Proof. split; [exact bins_main_wrapped|reflexivity]. Qed.

Lemma bins_main_counts_witness :
  bins_main 3 s1_index s3_methylome 4
  = Done (all_bins wrapped_counts s1_index s3_methylome 4).
Proof.
  apply (proj1 bins_main_counts s1_index s3_methylome 4 3%nat).
  - reflexivity.
  - reflexivity.
  - lia.
  - reflexivity.
  - reflexivity.
Defined.

(** With 65538 sites of 65535 methylated reads each in one bin, the
    result is not the sum of the m-counts: 65538 * 65535 does not fit in
    the 32-bit accumulator. *)
Lemma bins_main_sum_wraps :
  well_formed deep_index = true
  /\ aligned deep_index deep_methylome = true
  /\ all_bins exact_counts deep_index deep_methylome 131076
     = [(4295032830, 0, 65538)]
  /\ bins_main 2 deep_index deep_methylome 131076 = Done [(65534, 0, 65538)]
  /\ forall fuel : nat,
       bins_main fuel deep_index deep_methylome 131076
       <> Done (all_bins exact_counts deep_index deep_methylome 131076).
Proof.
  assert (well_formed deep_index = true) as Hwf by (vm_compute; reflexivity).
  assert (aligned deep_index deep_methylome = true) as Hal by (vm_compute; reflexivity).
  assert (all_bins exact_counts deep_index deep_methylome 131076
          = [(4295032830, 0, 65538)]) as Hexact by (vm_compute; reflexivity).
  assert (all_bins wrapped_counts deep_index deep_methylome 131076
          = [(65534, 0, 65538)]) as Hwrapped by (vm_compute; reflexivity).
  assert (forall fuel, (2 <= fuel)%nat ->
            bins_main fuel deep_index deep_methylome 131076
            = Done [(65534, 0, 65538)]) as Hrun.
  { intros fuel Hfuel. rewrite <- Hwrapped.
    apply bins_main_wrapped; try assumption; try lia; try reflexivity.
    unfold fuel_covers. simpl forallb. rewrite andb_true_r.
    apply Z.ltb_lt. change (ceil_div 131076 131076) with 1. lia. }
  split; [exact Hwf|]. split; [exact Hal|]. split; [exact Hexact|].
  split; [apply Hrun; lia|].
  intros fuel. rewrite Hexact.
  destruct (le_lt_dec 2 fuel) as [Hge|Hlt].
  - rewrite (Hrun fuel Hge). discriminate.
  - assert (bins_main fuel deep_index deep_methylome 131076 = OutOfFuel) as ->.
    { destruct fuel as [|[|fuel]]; [vm_compute; reflexivity ..|lia]. }
    discriminate.
Qed.

(** C3. On a chromosome of 3 * 2^30 bases walked with bins of 2^31 bases
    the sum [i + bin_size] of the second turn wraps to 0: the bin that
    starts at 2^31 ends at 0, the walk starts over, and no amount of fuel
    lets [bins_main] return. *)
Theorem bins_walk_wraps :
  well_formed long_index = true
  /\ aligned long_index empty_methylome = true
  /\ U32.in_range 2147483648 = true
  /\ forall fuel : nat,
       bins_main fuel long_index empty_methylome 2147483648 = OutOfFuel.
Proof.
  split; [reflexivity|]. split; [reflexivity|]. split; [reflexivity|].
  assert (forall fuel results,
            bins_loop fuel 2147483648 3221225472 0 [] [] results = OutOfFuel
            /\ bins_loop fuel 2147483648 3221225472 2147483648 [] [] results
               = OutOfFuel) as Hloop.
  { induction fuel as [|fuel IH]; intros results; [split; reflexivity|].
    split.
    - change (bins_loop (S fuel) 2147483648 3221225472 0 [] [] results)
        with (bins_loop fuel 2147483648 3221225472 2147483648 [] []
                (results ++ [(0, 0, 0)])).
      apply IH.
    - change (bins_loop (S fuel) 2147483648 3221225472 2147483648 [] [] results)
        with (bins_loop fuel 2147483648 3221225472 0 [] []
                (results ++ [(0, 0, 0)])).
      apply IH. }
  intros fuel. unfold bins_main.
  change (zipped_chroms long_index) with [([] : list Z, 3221225472, 0)].
  simpl bins_chroms.
  rewrite (proj1 (Hloop fuel [])). reflexivity.
Qed.

(** *** Coverage of the methylome by the bins *)

Lemma n_below_mono v lo hi : lo <= hi -> (n_below v lo <= n_below v hi)%nat.
Proof.
  intros Hle. induction v as [|p v IH]; [reflexivity|].
  rewrite !n_below_cons. repeat case_decide; lia.
Qed.

Lemma n_below_all v bound :
  Forall (fun p => p < bound) v -> n_below v bound = length v.
Proof.
  induction 1 as [|p v Hp _ IH]; [reflexivity|].
  rewrite n_below_cons. case_decide; [simpl; lia|lia].
Qed.

Lemma records_in_bin_slice posns : forall lower recs lo hi,
  strictly_ascending lower posns = true ->
  lo <= hi ->
  (length posns <= length recs)%nat ->
  records_in_bin posns recs lo hi
  = take (n_below posns hi - n_below posns lo) (drop (n_below posns lo) recs).
Proof.
  induction posns as [|p posns IH]; intros lower recs lo hi Hasc Hle Hlen.
  - unfold records_in_bin, n_below. simpl. reflexivity.
  - destruct recs as [|r recs]; [simpl in Hlen; lia|].
    simpl in Hasc. apply andb_prop in Hasc as [Hp Hasc].
    simpl in Hlen. assert (length posns <= length recs)%nat as Hlen' by lia.
    pose proof (IH p recs lo hi Hasc Hle Hlen') as IH'.
    unfold records_in_bin in *. simpl zip. rewrite filter_cons. simpl fst.
    rewrite !n_below_cons.
    destruct (decide (p < lo)) as [Hplo|Hplo].
    + destruct (decide (p < hi)) as [_|?]; [|lia].
      destruct (decide (lo <= p < hi)) as [?|_]; [lia|].
      simpl. exact IH'.
    + rewrite (n_below_none posns p lo Hasc) in * by lia.
      rewrite drop_0, Nat.sub_0_r in *.
      destruct (decide (p < hi)) as [Hphi|Hphi].
      * destruct (decide (lo <= p < hi)) as [_|?]; [|lia].
        simpl. f_equal. exact IH'.
      * destruct (decide (lo <= p < hi)) as [?|_]; [lia|].
        rewrite (n_below_none posns p hi Hasc) in * by lia.
        simpl. exact IH'.
Qed.

Section chromosome_cover.
Variables (posns : list Z) (recs : list (Z * Z)) (bin_size chrom_size : Z).
Hypothesis Hasc : strictly_ascending (-1) posns = true.
Hypothesis Hbelow : Forall (fun p => p < chrom_size) posns.
Hypothesis Hrecs : (length posns <= length recs)%nat.
Hypothesis Hbin : 0 < bin_size.

Let bin_records (k : nat) : list (Z * Z) :=
  let b := bin_bounds bin_size chrom_size k in
  records_in_bin posns recs b.1 b.2.

Lemma bin_records_upto (n : nat) :
  Z.of_nat n <= ceil_div chrom_size bin_size ->
  concat (map bin_records (seq 0 n))
  = take (n_below posns (Z.of_nat n * bin_size)) recs.
Proof.
  induction n as [|n IH]; intros Hn.
  - simpl. rewrite (n_below_none posns (-1) _ Hasc) by lia. reflexivity.
  - rewrite seq_S, map_app, concat_app, IH by lia. simpl.
    rewrite app_nil_r. unfold bin_records, bin_bounds. simpl fst. simpl snd.
    pose proof (bin_start_in_chrom chrom_size bin_size (Z.of_nat n) Hbin) as Hin.
    rewrite (records_in_bin_slice posns (-1)) by (assumption || lia).
    rewrite n_below_clip by assumption.
    replace ((Z.of_nat n + 1) * bin_size) with (Z.of_nat (S n) * bin_size) by lia.
    pose proof (n_below_mono posns (Z.of_nat n * bin_size)
                  (Z.of_nat (S n) * bin_size) ltac:(lia)).
    rewrite take_take_drop. f_equal. lia.
Qed.

Lemma bin_records_all :
  0 <= chrom_size ->
  concat (map bin_records (seq 0 (Z.to_nat (ceil_div chrom_size bin_size))))
  = take (length posns) recs.
Proof.
  intros Hsize. pose proof (ceil_div_bounds chrom_size bin_size Hbin) as Hc.
  assert (0 <= ceil_div chrom_size bin_size) by nia.
  rewrite bin_records_upto by lia. f_equal.
  apply n_below_all. eapply Forall_impl; [exact Hbelow|].
  simpl. intros p Hp. nia.
Qed.

End chromosome_cover.

Lemma sum_meth_app a b : sum_meth (a ++ b) = sum_meth a + sum_meth b.
Proof. induction a as [|r a IH]; simpl; [reflexivity|]. rewrite IH. lia. Qed.

Lemma sum_unmeth_app a b : sum_unmeth (a ++ b) = sum_unmeth a + sum_unmeth b.
Proof. induction a as [|r a IH]; simpl; [reflexivity|]. rewrite IH. lia. Qed.

Lemma count_covered_app a b :
  count_covered (a ++ b) = count_covered a + count_covered b.
Proof. unfold count_covered. rewrite filter_app, length_app. lia. Qed.

Lemma wrap32_add x y :
  U32.wrap32 (U32.wrap32 x + y) = U32.wrap32 (x + y)
  /\ U32.wrap32 (x + U32.wrap32 y) = U32.wrap32 (x + y).
Proof.
  unfold U32.wrap32. split;
    [apply Zplus_mod_idemp_l|apply Zplus_mod_idemp_r].
Qed.

(** The totals of the results of a family of bins are the counts of the
    records of all the bins put together. *)
Lemma totals_of_groups (groups : list (list (Z * Z))) :
  U32.wrap32 (total_meth (map wrapped_counts groups))
  = U32.wrap32 (sum_meth (concat groups))
  /\ U32.wrap32 (total_unmeth (map wrapped_counts groups))
     = U32.wrap32 (sum_unmeth (concat groups))
  /\ total_covered (map wrapped_counts groups) = count_covered (concat groups).
Proof.
  induction groups as [|g groups (IHm & IHu & IHc)]; [repeat split|].
  simpl. rewrite sum_meth_app, sum_unmeth_app, count_covered_app, IHc.
  split; [|split; [|reflexivity]].
  - rewrite (proj1 (wrap32_add _ _)).
    rewrite <- (proj2 (wrap32_add (sum_meth g) _)), IHm.
    apply (proj2 (wrap32_add _ _)).
  - rewrite (proj1 (wrap32_add _ _)).
    rewrite <- (proj2 (wrap32_add (sum_unmeth g) _)), IHu.
    apply (proj2 (wrap32_add _ _)).
Qed.

(** The records of the chromosomes, each taken at its offset, make up
    the methylome. *)
Lemma chromosome_records (l : list (Z * Z)) (pss : list (list Z)) :
  forall (acc : nat),
    concat (zip_with (fun ps off => take (length ps) (drop (Z.to_nat off) l))
              pss (running_offsets (Z.of_nat acc) pss))
    = take (Z.to_nat (total_cpgs pss)) (drop acc l).
Proof.
  induction pss as [|ps pss IH]; intros acc; [reflexivity|].
  simpl. rewrite Nat2Z.id.
  replace (Z.of_nat acc + Z.of_nat (length ps)) with (Z.of_nat (acc + length ps)) by lia.
  rewrite IH. pose proof (CpgIndexProps.total_cpgs_nonneg pss).
  replace (Z.to_nat (Z.of_nat (length ps) + total_cpgs pss))
    with (length ps + Z.to_nat (total_cpgs pss))%nat by lia.
  rewrite <- take_take_drop, drop_drop. reflexivity.
Qed.

Lemma chrom_bins_records summary bin_size meth chrom :
  chrom_bins summary bin_size meth chrom
  = map summary (chrom_records bin_size meth chrom).
Proof.
  destruct chrom as [[posns size] off]. unfold chrom_bins, chrom_records.
  rewrite map_map. reflexivity.
Qed.

Lemma all_bins_records summary idx meth bin_size :
  all_bins summary idx meth bin_size
  = map summary (concat (map (chrom_records bin_size meth) (zipped_chroms idx))).
Proof.
  unfold all_bins. induction (zipped_chroms idx) as [|c l IH]; [reflexivity|].
  simpl. rewrite map_app, chrom_bins_records, IH. reflexivity.
Qed.

Lemma zipped_chroms_good idx meth :
  well_formed idx = true ->
  aligned idx meth = true ->
  Forall (fun c : list Z * Z * Z =>
            strictly_ascending (-1) c.1.1 = true
            /\ Forall (fun p => p < c.1.2) c.1.1
            /\ 0 <= c.1.2
            /\ 0 <= c.2
            /\ c.2 + Z.of_nat (length c.1.1) <= Z.of_nat (length (cpgs meth)))
         (zipped_chroms idx).
Proof.
  intros Hwf Hal. apply Forall_lookup_2. intros i [[posns size] off] Hi.
  apply zipped_chroms_lookup in Hi as (Hposns & Hsize & Hoff).
  destruct (CpgIndexProps.well_formed_chrom _ _ _ Hwf Hposns)
    as (size' & off' & Hsize' & Hoff' & _ & Hasc & Hrange & Hsz & Hoff0 & Hsum & Hmax).
  rewrite Hsize in Hsize'. injection Hsize' as <-.
  rewrite Hoff in Hoff'. injection Hoff' as <-.
  unfold aligned in Hal. apply andb_prop in Hal as [Hlen _].
  apply bool_decide_eq_true in Hlen.
  simpl. split; [exact Hasc|]. split.
  { eapply Forall_impl; [exact Hrange|]. simpl; intros; lia. }
  repeat split; lia.
Qed.

Lemma chrom_records_concat idx meth bin_size :
  well_formed idx = true ->
  aligned idx meth = true ->
  0 < bin_size ->
  concat (concat (map (chrom_records bin_size meth) (zipped_chroms idx)))
  = cpgs meth.
Proof.
  intros Hwf Hal Hbin.
  pose proof (zipped_chroms_good idx meth Hwf Hal) as Hgood.
  assert (concat (concat (map (chrom_records bin_size meth) (zipped_chroms idx)))
          = concat (map (fun c : list Z * Z * Z =>
                           take (length c.1.1) (drop (Z.to_nat c.2) (cpgs meth)))
                        (zipped_chroms idx))) as ->.
  { induction Hgood as [|[[posns size] off] l Hc _ IH]; [reflexivity|].
    simpl in Hc. destruct Hc as (Hasc & Hbelow & Hsize & Hoff & Hlen).
    simpl map. rewrite !concat_cons, concat_app, IH. f_equal.
    unfold chrom_records. apply bin_records_all; try assumption.
    rewrite length_drop. lia. }
  unfold well_formed in Hwf. rewrite !andb_true_iff in Hwf.
  destruct Hwf as [[[[[Hsz _] _] Hoff] Htot] _].
  apply bool_decide_eq_true in Hsz, Hoff, Htot.
  unfold aligned in Hal. apply andb_prop in Hal as [Hlen _].
  apply bool_decide_eq_true in Hlen.
  unfold zipped_chroms. rewrite Hoff.
  assert (forall (pss : list (list Z)) (sizes offs : list Z),
            length sizes = length pss ->
            map (fun c : list Z * Z * Z =>
                   take (length c.1.1) (drop (Z.to_nat c.2) (cpgs meth)))
                (zip (zip pss sizes) offs)
            = zip_with (fun ps off => take (length ps) (drop (Z.to_nat off) (cpgs meth)))
                pss offs) as Hzip.
  { induction pss as [|ps pss IH]; intros [|s sizes] offs Hl; try discriminate;
      [reflexivity|].
    destruct offs as [|o offs]; [reflexivity|].
    simpl. f_equal. apply IH. simpl in Hl. lia. }
  rewrite Hzip by assumption.
  change (running_offsets 0) with (running_offsets (Z.of_nat 0)).
  rewrite (chromosome_records (cpgs meth) (positions idx) 0).
  rewrite drop_0, <- Htot, <- Hlen, Nat2Z.id. apply take_ge. lia.
Qed.

(** X7. Under the conditions of the walk (well-formed index, aligned
    methylome, bin size above zero, bin ends within 32 bits) every CpG
    record is counted in exactly one bin: over all results the covered
    counts add up to the number of covered records of the methylome, and
    the methylated and unmethylated counts add up, modulo [2^32], to the
    sums over the methylome. *)
Theorem bins_count_every_site (idx : cpg_index) (meth : methylome)
    (bin_size : Z) (fuel : nat) :
  well_formed idx = true ->
  aligned idx meth = true ->
  0 < bin_size ->
  walk_fits idx bin_size = true ->
  fuel_covers fuel idx bin_size = true ->
  exists results,
    bins_main fuel idx meth bin_size = Done results
    /\ total_covered results = count_covered (cpgs meth)
    /\ U32.wrap32 (total_meth results) = U32.wrap32 (sum_meth (cpgs meth))
    /\ U32.wrap32 (total_unmeth results) = U32.wrap32 (sum_unmeth (cpgs meth)).
Proof.
  intros Hwf Hal Hbin Hfits Hfuel.
  eexists. split; [apply bins_main_wrapped; assumption|].
  rewrite all_bins_records.
  destruct (totals_of_groups
              (concat (map (chrom_records bin_size meth) (zipped_chroms idx))))
    as (Hm & Hu & Hc).
  rewrite chrom_records_concat in Hm, Hu, Hc by assumption. auto.
Qed.

Lemma bins_count_every_site_witness :
  exists results,
    bins_main 3 s1_index s3_methylome 4 = Done results
    /\ total_covered results = count_covered (cpgs s3_methylome)
    /\ U32.wrap32 (total_meth results) = U32.wrap32 (sum_meth (cpgs s3_methylome))
    /\ U32.wrap32 (total_unmeth results) = U32.wrap32 (sum_unmeth (cpgs s3_methylome)).
Proof.
  apply (bins_count_every_site s1_index s3_methylome 4 3%nat).
  - reflexivity.
  - reflexivity.
  - lia.
  - reflexivity.
  - reflexivity.
Defined.

Lemma chrom_size_of_zipped idx :
  well_formed idx = true ->
  map (fun c : list Z * Z * Z => c.1.2) (zipped_chroms idx) = chrom_size idx.
Proof.
  intros Hwf. unfold well_formed in Hwf. rewrite !andb_true_iff in Hwf.
  destruct Hwf as [[[[[Hsz _] _] Hoff] _] _].
  apply bool_decide_eq_true in Hsz, Hoff.
  unfold zipped_chroms.
  assert (length (chrom_offset idx) = length (positions idx)) as Hlo
    by (rewrite Hoff; apply CpgIndexProps.running_offsets_length).
  revert Hsz Hlo. generalize (positions idx) (chrom_size idx) (chrom_offset idx).
  induction l as [|ps pss IH]; intros [|s sizes] [|o offs] H1 H2;
    try discriminate; [reflexivity|].
  simpl. f_equal. apply IH; simpl in *; lia.
Qed.

(** X6. Under the same conditions [bins_main] returns one result per
    bin: [ceil (chrom_size / bin_size)] of them for each chromosome. *)
Theorem bins_main_length (idx : cpg_index) (meth : methylome)
    (bin_size : Z) (fuel : nat) :
  well_formed idx = true ->
  aligned idx meth = true ->
  0 < bin_size ->
  walk_fits idx bin_size = true ->
  fuel_covers fuel idx bin_size = true ->
  exists results,
    bins_main fuel idx meth bin_size = Done results
    /\ length results = n_bins idx bin_size.
Proof.
  intros Hwf Hal Hbin Hfits Hfuel.
  eexists. split; [apply bins_main_wrapped; assumption|].
  unfold n_bins. rewrite <- (chrom_size_of_zipped idx Hwf).
  unfold all_bins. induction (zipped_chroms idx) as [|[[posns size] off] l IH];
    [reflexivity|].
  simpl. rewrite length_app, IH. f_equal.
  rewrite length_map, length_seq. reflexivity.
Qed.

Lemma bins_main_length_witness :
  exists results,
    bins_main 3 s1_index s3_methylome 4 = Done results
    /\ length results = n_bins s1_index 4.
Proof.
  apply (bins_main_length s1_index s3_methylome 4 3%nat).
  - reflexivity.
  - reflexivity.
  - lia.
  - reflexivity.
  - reflexivity.
Defined.

(** *** A bin size of zero *)

Lemma bin_counts_at_zero posns cpg :
  strictly_ascending (-1) posns = true ->
  bin_counts posns 0 cpg = Done ((0, 0, 0), posns, cpg).
Proof.
  intros Hasc. unfold bin_counts. destruct posns as [|p posns]; [reflexivity|].
  simpl in *. apply andb_prop in Hasc as [Hp _]. apply Z.ltb_lt in Hp.
  destruct (Z.ltb_spec p 0); [lia|reflexivity].
Qed.

Lemma bins_loop_zero_bin_size posns cpg chrom_size (fuel : nat) :
  strictly_ascending (-1) posns = true ->
  0 < chrom_size ->
  forall results, bins_loop fuel 0 chrom_size 0 posns cpg results = OutOfFuel.
Proof.
  intros Hasc Hsize. induction fuel as [|fuel IH]; intros results; [reflexivity|].
  simpl bins_loop. destruct (Z.ltb_spec 0 chrom_size); [|lia].
  change (U32.wrap32 (0 + 0)) with 0.
  replace (Z.min 0 chrom_size) with 0 by lia.
  rewrite bin_counts_at_zero by assumption. simpl. apply IH.
Qed.

Lemma bins_loop_empty_chrom bin_size posns cpg results (fuel : nat) :
  bins_loop (S fuel) bin_size 0 0 posns cpg results = Done results.
Proof. reflexivity. Qed.

(** X8. A bin size of zero is not refused: on an index with a
    chromosome of size above zero the walk stays at [i = 0] and
    [bins_main] does not return, whatever the fuel. *)
Theorem bins_main_zero_bin_size (idx : cpg_index) (meth : methylome)
    (size : Z) (fuel : nat) :
  well_formed idx = true ->
  aligned idx meth = true ->
  size ∈ chrom_size idx ->
  0 < size ->
  bins_main fuel idx meth 0 = OutOfFuel.
Proof.
  intros Hwf Hal Hin Hsize. unfold bins_main.
  pose proof (zipped_chroms_good idx meth Hwf Hal) as Hgood.
  rewrite <- (chrom_size_of_zipped idx Hwf) in Hin.
  apply list_elem_of_fmap in Hin as (c & -> & Hc).
  assert (Exists (fun c : list Z * Z * Z => 0 < c.1.2) (zipped_chroms idx)) as Hex
    by (apply Exists_exists; eauto).
  clear Hc Hsize c. generalize (@nil counts) as results.
  induction Hgood as [|[[posns sz] off] l Hc Hgood IH]; intros results.
  - inversion Hex.
  - simpl in Hc. destruct Hc as (Hasc & _ & Hsz & Hoff & Hlen).
    simpl bins_chroms.
    destruct (Z.ltb_spec (Z.of_nat (length (cpgs meth))) off); [lia|].
    destruct (Z.lt_ge_cases 0 sz) as [Hpos|Hzero].
    + rewrite bins_loop_zero_bin_size by assumption. reflexivity.
    + assert (sz = 0) as -> by lia.
      destruct fuel as [|fuel]; [reflexivity|].
      rewrite bins_loop_empty_chrom. simpl.
      apply IH. inversion Hex as [? ? Hhd|? ? Htl]; subst; [simpl in Hhd; lia|exact Htl].
Qed.

Lemma bins_main_zero_bin_size_witness :
  bins_main 1000 s1_index s3_methylome 0 = OutOfFuel.
Proof.
  apply (bins_main_zero_bin_size s1_index s3_methylome 8 1000).
  - reflexivity.
  - reflexivity.
  - apply list_elem_of_here.
  - lia.
Defined.

(** *** The end of the methylome *)

Lemma bin_counts_loop_out_of_bounds posns : forall lower bin_end cpg acc,
  strictly_ascending lower posns = true ->
  (bin_counts_loop posns bin_end cpg acc = OutOfBounds
   <-> (length cpg < n_below posns bin_end)%nat).
Proof.
  induction posns as [|p posns IH]; intros lower bin_end cpg acc Hasc.
  - simpl. unfold n_below. simpl. split; [discriminate|lia].
  - simpl in Hasc. apply andb_prop in Hasc as [_ Hasc].
    simpl bin_counts_loop. rewrite n_below_cons.
    destruct (Z.ltb_spec p bin_end) as [Hlt|Hge].
    + destruct (decide (p < bin_end)); [|lia].
      destruct cpg as [|r cpg]; [simpl; split; [lia|reflexivity]|].
      rewrite (IH p bin_end cpg _ Hasc). simpl. lia.
    + destruct (decide (p < bin_end)); [lia|].
      rewrite (n_below_none posns p bin_end Hasc) by lia.
      split; [discriminate|lia].
Qed.

(** X9. [bin_counts] reads past the end of [meth.cpgs] exactly when
    fewer records are left than there are positions below [bin_end]. *)
Theorem bin_counts_out_of_bounds (posns : list Z) (lower bin_end : Z)
    (cpg : list (Z * Z)) :
  strictly_ascending lower posns = true ->
  (bin_counts posns bin_end cpg = OutOfBounds
   <-> (length cpg < n_below posns bin_end)%nat).
Proof.
  intros Hasc. unfold bin_counts.
  eapply bin_counts_loop_out_of_bounds; exact Hasc.
Qed.

Lemma bin_counts_out_of_bounds_witness :
  bin_counts [2; 4; 6] 7 [(1, 1)] = OutOfBounds
  <-> (length [(1%Z, 1%Z)] < n_below [2%Z; 4%Z; 6%Z] 7%Z)%nat.
Proof. apply (bin_counts_out_of_bounds [2; 4; 6] (-1) 7 [(1, 1)]). reflexivity. Defined.

End BinsProps.

Module RequestProps.
Import Request.

Example to_buffer_srx :
  exists r, to_buffer srx_request = Done (r, ok)
            /\ take 15 (buf r) = bytes "SRX012345" ++ [9; 52; 9; 50; 10; 0].
Proof. eexists. split; reflexivity. Qed.

Example from_buffer_srx :
  exists r1 r2, to_buffer srx_request = Done (r1, ok)
            /\ from_buffer r1 = Done (r2, ok)
            /\ accession r2 = bytes "SRX012345"
            /\ methylome_size r2 = 4 /\ n_intervals r2 = 2.
Proof. do 2 eexists. repeat split; reflexivity. Qed.

Example from_buffer_zero :
  from_buffer (zero_request srx_request)
  = Done (zero_request empty_request, malformed_accession).
Proof. reflexivity. Qed.

Example from_buffer_overrun :
  from_buffer (overrun_request srx_request) = OutOfBounds.
Proof. reflexivity. Qed.

(** *** Decimal digits *)

Lemma digits_value_snoc ds d :
  digits_value (ds ++ [d]) = 10 * digits_value ds + (d - 48).
Proof. unfold digits_value. rewrite foldl_app. reflexivity. Qed.

Lemma is_digit_mod n : is_digit (48 + n mod 10) = true.
Proof.
  pose proof (Z.mod_pos_bound n 10 ltac:(lia)).
  unfold is_digit. apply andb_true_intro; split; [apply Z.leb_le|apply Z.leb_le]; lia.
Qed.

(** With enough fuel [to_digits] puts in front of [acc] a non-empty run
    of digits whose value is [n]. *)
Lemma to_digits_spec fuel : forall n acc,
  0 <= n < 10 ^ Z.of_nat (S fuel) ->
  exists ds,
    to_digits (S fuel) n acc = ds ++ acc
    /\ ds <> []
    /\ Forall (fun d => is_digit d = true) ds
    /\ digits_value ds = n.
Proof.
  induction fuel as [|fuel IH]; intros n acc Hn.
  - change (10 ^ Z.of_nat 1) with 10 in Hn.
    exists [48 + n mod 10]. simpl.
    rewrite (Z.div_small n 10) by lia. simpl.
    repeat split; [discriminate|repeat constructor; apply is_digit_mod|].
    unfold digits_value. simpl. rewrite Z.mod_small by lia. lia.
  - simpl to_digits. destruct (Z.eqb_spec (n / 10) 0) as [Hz|Hnz].
    + exists [48 + n mod 10].
      repeat split; [discriminate|repeat constructor; apply is_digit_mod|].
      unfold digits_value. simpl.
      pose proof (Z.div_mod n 10 ltac:(lia)). lia.
    + assert (0 <= n / 10 < 10 ^ Z.of_nat (S fuel)) as Hq.
      { split; [apply Z.div_pos; lia|].
        apply Z.div_lt_upper_bound; [lia|].
        replace (Z.of_nat (S (S fuel))) with (1 + Z.of_nat (S fuel)) in Hn by lia.
        rewrite Z.pow_add_r in Hn by lia. lia. }
      destruct (IH (n / 10) ((48 + n mod 10) :: acc) Hq) as (ds & Heq & Hne & Hds & Hval).
      exists (ds ++ [48 + n mod 10]).
      split; [rewrite <- app_assoc; exact Heq|].
      split; [destruct ds; discriminate|].
      split; [apply Forall_app; split; [exact Hds|repeat constructor; apply is_digit_mod]|].
      rewrite digits_value_snoc, Hval.
      pose proof (Z.div_mod n 10 ltac:(lia)). lia.
Qed.

Lemma format_u32_spec n :
  0 <= n < U32.modulus ->
  format_u32 n <> []
  /\ Forall (fun d => is_digit d = true) (format_u32 n)
  /\ digits_value (format_u32 n) = n.
Proof.
  intros Hn. unfold format_u32.
  destruct (to_digits_spec 9 n []) as (ds & Heq & Hne & Hds & Hval).
  { unfold U32.modulus in Hn. change (10 ^ Z.of_nat 10) with 10000000000. lia. }
  rewrite Heq, app_nil_r. auto.
Qed.

Lemma digits_prefix_app ds c rest :
  Forall (fun d => is_digit d = true) ds ->
  is_digit c = false ->
  digits_prefix (ds ++ c :: rest) = ds.
Proof.
  intros Hds Hc. induction Hds as [|d ds Hd _ IH]; simpl.
  - rewrite Hc. reflexivity.
  - rewrite Hd, IH. reflexivity.
Qed.

(** [from_chars] reads back what [format] wrote when a character that
    is not a digit follows. *)
Lemma from_chars_format n c rest value :
  0 <= n < U32.modulus ->
  is_digit c = false ->
  from_chars (format_u32 n ++ c :: rest) value
  = (length (format_u32 n), errc_none, n).
Proof.
  intros Hn Hc. destruct (format_u32_spec n Hn) as (Hne & Hds & Hval).
  unfold from_chars. rewrite digits_prefix_app by assumption.
  destruct (format_u32 n) as [|d ds] eqn:Hfmt; [contradiction|].
  rewrite Hval. destruct (Z.ltb_spec n U32.modulus); [reflexivity|lia].
Qed.

(** *** Cursors *)

Lemma find_app acc c rest :
  c ∉ acc -> find (acc ++ c :: rest) c = length acc.
Proof.
  induction acc as [|x acc IH]; intros Hnot; simpl.
  - rewrite Z.eqb_refl. reflexivity.
  - apply not_elem_of_cons in Hnot as [Hne Hnot].
    destruct (Z.eqb_spec x c); [congruence|]. rewrite IH by assumption. reflexivity.
Qed.

Lemma deref_app (pre : list Z) c rest :
  deref (pre ++ c :: rest) (length pre) = Done c.
Proof. unfold deref. rewrite list_lookup_middle by reflexivity. reflexivity. Qed.

Lemma drop_app_succ (pre : list Z) c rest :
  drop (S (length pre)) (pre ++ c :: rest) = rest.
Proof.
  rewrite (cons_middle c pre rest), app_assoc.
  rewrite drop_app_length'; [reflexivity|]. rewrite length_app. simpl. lia.
Qed.

(** *** Encoding *)

Lemma to_buffer_text (r : request) :
  length (buf r) = Z.to_nat buf_size ->
  (length (serialized r) <= Z.to_nat buf_size)%nat ->
  to_buffer r
  = Done (with_buf r (serialized r
                      ++ replicate (Z.to_nat buf_size - length (serialized r)) 0),
          ok).
Proof.
  intros Hbuf Hfit. unfold to_buffer, fill_n, copy.
  rewrite Hbuf, Nat.min_id.
  rewrite drop_ge by lia. rewrite app_nil_r, length_replicate.
  destruct (Nat.leb_spec (length (serialized r)) (Z.to_nat buf_size)); [|lia].
  rewrite drop_replicate. reflexivity.
Qed.

(** *** Decoding what was encoded *)

Lemma from_buffer_text (r : request) (acc : list Z) (ms ni : Z) (pad : list Z) :
  take (Z.to_nat buf_size) (buf r)
  = acc ++ delim :: format_u32 ms ++ delim :: format_u32 ni ++ term :: pad ->
  delim ∉ acc ->
  0 <= ms < U32.modulus ->
  0 <= ni < U32.modulus ->
  from_buffer r
  = Done (with_n_intervals
            (with_methylome_size (with_accession (clear r) acc) ms) ni, ok).
Proof.
  intros Hb Hacc Hms Hni. unfold from_buffer.
  change (buf (clear r)) with (buf r). rewrite Hb.
  rewrite find_app by assumption.
  assert (length acc < Z.to_nat buf_size)%nat as Hlen.
  { apply (f_equal length) in Hb. rewrite length_take, length_app in Hb.
    cbn [length] in Hb. lia. }
  destruct (Nat.eqb_spec (length acc) (Z.to_nat buf_size)); [lia|].
  rewrite deref_app, take_app_length. simpl obind.
  change (delim =? delim) with true. simpl negb. cbv iota.
  rewrite drop_app_succ.
  rewrite from_chars_format by (assumption || reflexivity).
  replace (S (length acc) + length (format_u32 ms))%nat
    with (length (acc ++ delim :: format_u32 ms))
    by (rewrite length_app; cbn [length]; lia).
  replace (acc ++ delim :: format_u32 ms ++ delim :: format_u32 ni ++ term :: pad)
    with ((acc ++ delim :: format_u32 ms) ++ delim :: format_u32 ni ++ term :: pad)
    by (rewrite <- app_assoc; reflexivity).
  rewrite deref_app. simpl obind.
  change (delim =? delim) with true. simpl negb. cbv iota.
  rewrite drop_app_succ.
  rewrite from_chars_format by (assumption || reflexivity).
  replace (S (length (acc ++ delim :: format_u32 ms)) + length (format_u32 ni))%nat
    with (length ((acc ++ delim :: format_u32 ms) ++ delim :: format_u32 ni))
    by (rewrite !length_app; cbn [length]; rewrite ?length_app; cbn [length]; lia).
  replace ((acc ++ delim :: format_u32 ms) ++ delim :: format_u32 ni ++ term :: pad)
    with (((acc ++ delim :: format_u32 ms) ++ delim :: format_u32 ni) ++ term :: pad)
    by (rewrite <- !app_assoc; reflexivity).
  rewrite deref_app. simpl obind.
  change (term =? term) with true. reflexivity.
Qed.

(** Encoding a request whose accession has no tab and whose text fits
    the buffer, then decoding it, gives back the accession and the two
    numbers. *)
Lemma to_buffer_from_buffer (r : request) :
  length (buf r) = Z.to_nat buf_size ->
  (length (serialized r) <= Z.to_nat buf_size)%nat ->
  delim ∉ accession r ->
  0 <= methylome_size r < U32.modulus ->
  0 <= n_intervals r < U32.modulus ->
  exists r1 r2,
    to_buffer r = Done (r1, ok)
    /\ from_buffer r1 = Done (r2, ok)
    /\ accession r2 = accession r
    /\ methylome_size r2 = methylome_size r
    /\ n_intervals r2 = n_intervals r.
Proof.
  intros Hbuf Hfit Hacc Hms Hni.
  set (pad := replicate (Z.to_nat buf_size - length (serialized r)) 0).
  set (r1 := with_buf r (serialized r ++ pad)).
  exists r1.
  exists (with_n_intervals
            (with_methylome_size (with_accession (clear r1) (accession r))
               (methylome_size r)) (n_intervals r)).
  split; [apply to_buffer_text; assumption|].
  split; [|split; [reflexivity|split; reflexivity]].
  apply from_buffer_text with (pad := pad); try assumption.
  subst r1. cbn [buf with_buf]. rewrite take_ge.
  - unfold serialized. rewrite <- !app_assoc. reflexivity.
  - subst pad. rewrite length_app, length_replicate. lia.
Qed.

(** C4. A 256-byte header made of an accession of 245 characters, a tab
    and ten digits of [methylome_size] makes [from_buffer] read the byte
    after the end of the buffer: the decoder returns neither a request
    nor an error status code.  (That encoding then decoding is the
    identity on requests that fit is [to_buffer_from_buffer].) *)
Theorem from_buffer_reads_past_end :
  forall stale : request,
    length (buf (overrun_request stale)) = Z.to_nat buf_size
    /\ forallb is_byte (buf (overrun_request stale)) = true
    /\ from_buffer (overrun_request stale) = OutOfBounds.
Proof. intros stale. split; [|split]; reflexivity. Qed.

(** C5. The encoded header is text: the accession, a tab, the decimal
    digits of [methylome_size], a tab, the decimal digits of
    [n_intervals] and a newline, followed by zero bytes up to the 256
    bytes of the buffer; the other members of the request are left as
    they were. *)
Theorem to_buffer_layout (r : request) :
  length (buf r) = Z.to_nat buf_size ->
  (length (serialized r) <= Z.to_nat buf_size)%nat ->
  exists r1,
    to_buffer r = Done (r1, ok)
    /\ buf r1 = accession r ++ [delim] ++ format_u32 (methylome_size r)
                 ++ [delim] ++ format_u32 (n_intervals r) ++ [term]
                 ++ replicate (Z.to_nat buf_size - length (serialized r)) 0
    /\ length (buf r1) = Z.to_nat buf_size
    /\ accession r1 = accession r
    /\ methylome_size r1 = methylome_size r
    /\ n_intervals r1 = n_intervals r
    /\ offsets r1 = offsets r.
Proof.
  intros Hbuf Hfit. eexists. split; [apply to_buffer_text; assumption|].
  cbn [buf accession methylome_size n_intervals offsets with_buf].
  split; [unfold serialized; rewrite <- !app_assoc; reflexivity|].
  split; [rewrite length_app, length_replicate; lia|].
  repeat split.
Qed.

Lemma to_buffer_layout_witness :
  exists r1,
    to_buffer srx_request = Done (r1, ok)
    /\ buf r1 = accession srx_request ++ [delim]
                 ++ format_u32 (methylome_size srx_request)
                 ++ [delim] ++ format_u32 (n_intervals srx_request) ++ [term]
                 ++ replicate (Z.to_nat buf_size - length (serialized srx_request)) 0
    /\ length (buf r1) = Z.to_nat buf_size
    /\ accession r1 = accession srx_request
    /\ methylome_size r1 = methylome_size srx_request
    /\ n_intervals r1 = n_intervals srx_request
    /\ offsets r1 = offsets srx_request.
Proof.
  apply (to_buffer_layout srx_request).
  - reflexivity.
  - vm_compute. lia.
Defined.

(** The encoded header of the SRX012345 request does not start with the
    binary layout, whatever the version, command and reserved fields:
    its fifth byte is the character ['1'] of the accession, where the
    layout has the high byte of the accession length. *)
Lemma to_buffer_not_binary :
  exists r1,
    to_buffer srx_request = Done (r1, ok)
    /\ forall version command reserved : Z,
         ~ (binary_header version command reserved srx_request `prefix_of` buf r1).
Proof.
  eexists. split; [reflexivity|].
  intros version command reserved [k Hk].
  apply (f_equal (fun l => l !! 4%nat)) in Hk.
  vm_compute in Hk. discriminate.
Qed.

(** *** Decoding never keeps what an earlier request left *)

Lemma from_chars_value range value n ec value' :
  from_chars range value = (n, ec, value') ->
  (ec = errc_none /\ value' = digits_value (digits_prefix range))
  \/ (ec <> errc_none /\ value' = value).
Proof.
  unfold from_chars. destruct (digits_prefix range) as [|d ds].
  - intros [= <- <- <-]. right. split; [discriminate|reflexivity].
  - destruct (_ <? _); intros [= <- <- <-].
    + left. split; reflexivity.
    + right. split; [discriminate|reflexivity].
Qed.

Lemma from_buffer_fresh (r : request) :
  from_buffer r
  = from_buffer {| buf := buf r; accession := []; methylome_size := 0;
                   n_intervals := 0; offsets := offsets r |}.
Proof. reflexivity. Qed.

Lemma from_chars_cases range value :
  (digits_prefix range <> []
   /\ digits_value (digits_prefix range) < U32.modulus
   /\ from_chars range value
      = (length (digits_prefix range), errc_none,
         digits_value (digits_prefix range)))
  \/ ((digits_prefix range = []
       \/ U32.modulus <= digits_value (digits_prefix range))
      /\ exists n ec, ec <> errc_none /\ from_chars range value = (n, ec, value)).
Proof.
  unfold from_chars. destruct (digits_prefix range) as [|d ds] eqn:Hds.
  - right. split; [left; reflexivity|].
    exists O, invalid_argument. split; [discriminate|reflexivity].
  - destruct (Z.ltb_spec (digits_value (d :: ds)) U32.modulus) as [Hlt|Hge].
    + left. split; [discriminate|]. split; [exact Hlt|reflexivity].
    + right. split; [right; exact Hge|].
      exists (length (d :: ds)), result_out_of_range.
      split; [discriminate|reflexivity].
Qed.

Lemma deref_Done b k c : deref b k = Done c <-> b !! k = Some c.
Proof.
  unfold deref. destruct (b !! k) as [x|]; split; intros Heq;
    try discriminate; congruence.
Qed.

(** C9. Whatever the request object held before, [from_buffer] gives
    what it gives on a freshly constructed object with the same buffer;
    the accession it leaves is empty or the bytes before the first tab of
    the buffer, each number is zero or the value of a run of digits of
    the buffer, and on an error return the fields whose parse was not
    reached are empty or zero: all three for [malformed_accession], the
    two numbers for [malformed_methylome_size], and [n_intervals] for
    [malformed_n_intervals] when the byte after the digits of
    [methylome_size] is not a tab, the return before its parse.  With
    [malformed_n_intervals] the accession and [methylome_size] are those
    of the buffer, and [n_intervals] is zero also when its parse failed;
    it is other than zero only as the value of the digits after the
    second tab.  With any status but [malformed_accession] the accession
    is the bytes before the first tab, and with [ok] both numbers are the
    values of their digits. *)
Theorem from_buffer_no_stale (r r' : request) (st : status_code) :
  from_buffer r = Done (r', st) ->
  let b := take (Z.to_nat buf_size) (buf r) in
  let i := find b delim in
  let ds1 := digits_prefix (drop (S i) b) in
  let j := (S i + length ds1)%nat in
  let ds2 := digits_prefix (drop (S j) b) in
  (forall stale : request,
     buf stale = buf r -> offsets stale = offsets r ->
     from_buffer stale = Done (r', st))
  /\ buf r' = buf r
  /\ offsets r' = offsets r
  /\ (accession r' = [] \/ accession r' = take (find b delim) b)
  /\ (methylome_size r' = 0
      \/ exists k, methylome_size r' = digits_value (digits_prefix (drop k b)))
  /\ (n_intervals r' = 0
      \/ exists k, n_intervals r' = digits_value (digits_prefix (drop k b)))
  /\ (st = malformed_accession ->
      accession r' = [] /\ methylome_size r' = 0 /\ n_intervals r' = 0)
  /\ (st = malformed_methylome_size ->
      methylome_size r' = 0 /\ n_intervals r' = 0)
  /\ (st = malformed_n_intervals ->
      accession r' = take i b
      /\ methylome_size r' = digits_value ds1
      /\ (b !! j <> Some delim -> n_intervals r' = 0)
      /\ (ds2 = [] \/ U32.modulus <= digits_value ds2 -> n_intervals r' = 0)
      /\ (n_intervals r' <> 0 ->
          b !! j = Some delim /\ n_intervals r' = digits_value ds2))
  /\ (st <> malformed_accession -> accession r' = take i b)
  /\ (st = ok ->
      methylome_size r' = digits_value ds1
      /\ n_intervals r' = digits_value ds2).
Proof.
  intros Hrun b i ds1 j ds2. split.
  { intros stale Hbuf Hoff. rewrite from_buffer_fresh, Hbuf, Hoff.
    rewrite <- from_buffer_fresh. exact Hrun. }
  revert Hrun. unfold from_buffer.
  change (buf (clear r)) with (buf r). fold b. fold i.
  destruct (_ =? _)%nat.
  { intros [= <- <-]. cbn. repeat split; auto; try discriminate; congruence. }
  destruct (deref b i) as [c| |]; cbn [mbind outcome_bind obind];
    try discriminate.
  destruct (negb (c =? delim)).
  { intros [= <- <-]. cbn. repeat split; auto; try discriminate; congruence. }
  destruct (from_chars_cases (drop (S i) b)
              (methylome_size (with_accession (clear r) (take i b))))
    as [(Hds1 & Hv1 & ->)|(Hfail1 & n1 & ec1 & Hec1 & ->)].
  2:{ destruct ec1; [congruence| |]; intros [= <- <-]; cbn;
        repeat split; auto; try discriminate; congruence. }
  fold ds1. fold j.
  destruct (deref b j) as [c2| |] eqn:Hc2; cbn [mbind outcome_bind obind];
    try discriminate.
  apply deref_Done in Hc2.
  destruct (Z.eqb_spec c2 delim) as [->|Hdelim]; cbn [negb].
  2:{ intros [= <- <-]. cbn. repeat split; eauto; try discriminate;
        congruence. }
  destruct (from_chars_cases (drop (S j) b)
              (n_intervals (with_methylome_size
                              (with_accession (clear r) (take i b))
                              (digits_value ds1))))
    as [(Hds2 & Hv2 & ->)|(Hfail2 & n2 & ec2 & Hec2 & ->)].
  2:{ destruct ec2; [congruence| |]; intros [= <- <-]; cbn;
        repeat split; eauto; try discriminate; congruence. }
  fold ds2.
  destruct (deref b _) as [c3| |]; cbn [mbind outcome_bind obind];
    try discriminate.
  destruct (negb (c3 =? term)); intros [= <- <-]; cbn;
    repeat split; eauto; try discriminate; try congruence.
  - intros Hno. destruct (Hno Hc2).
  - intros [Hnil|Hbig]; [destruct (Hds2 Hnil)|fold ds2 in Hv2; lia].
Qed.

Lemma from_buffer_no_stale_witness :
  exists r',
    from_buffer (truncated_request srx_request) = Done (r', malformed_n_intervals)
    /\ accession r' = bytes "ERR1"
    /\ methylome_size r' = 7
    /\ n_intervals r' = 0.
Proof.
  eexists. split; [reflexivity|].
  pose proof (from_buffer_no_stale (truncated_request srx_request) _
                malformed_n_intervals eq_refl) as H.
  cbv zeta in H.
  destruct H as (_ & _ & _ & _ & _ & _ & _ & _ & H & _).
  destruct (H eq_refl) as (Hacc & Hms & Hni & _).
  split; [exact Hacc|]. split; [exact Hms|].
  apply Hni. vm_compute. discriminate.
Defined.

(** *** More on the codec *)

Lemma find_le b c : (find b c <= length b)%nat.
Proof. induction b as [|x b IH]; simpl; [lia|]. destruct (x =? c); simpl; lia. Qed.

Lemma find_lookup b c : (find b c < length b)%nat -> b !! find b c = Some c.
Proof.
  induction b as [|x b IH]; simpl; [lia|].
  destruct (Z.eqb_spec x c) as [->|Hne]; [reflexivity|].
  intros H. simpl. apply IH. lia.
Qed.

Lemma find_take_notin b c : c ∉ take (find b c) b.
Proof.
  induction b as [|x b IH]; simpl; [apply not_elem_of_nil|].
  destruct (Z.eqb_spec x c) as [->|Hne]; simpl; [apply not_elem_of_nil|].
  apply not_elem_of_cons. split; [congruence|exact IH].
Qed.

Lemma find_elem b c : c ∈ b -> (find b c < length b)%nat.
Proof.
  induction b as [|x b IH]; intros Hin; [inversion Hin|]. simpl.
  destruct (Z.eqb_spec x c) as [->|Hne]; [simpl; lia|].
  apply elem_of_cons in Hin as [->|Hin]; [congruence|].
  specialize (IH Hin). simpl. lia.
Qed.

Lemma find_notin b c : c ∉ b -> find b c = length b.
Proof.
  induction b as [|x b IH]; intros Hnot; [reflexivity|]. simpl.
  apply not_elem_of_cons in Hnot as [Hne Hnot].
  destruct (Z.eqb_spec x c); [congruence|]. rewrite IH by assumption. reflexivity.
Qed.

Lemma deref_lt (b : list Z) k : (k < length b)%nat -> exists c, deref b k = Done c.
Proof.
  intros Hk. unfold deref.
  destruct (lookup_lt_is_Some_2 b k Hk) as [c Hc]. rewrite Hc. eauto.
Qed.

(** X4. A 256-byte buffer without a tab, and no other, is answered with
    [malformed_accession]; the three fields are then left cleared. *)
Theorem from_buffer_without_tab (r : request) :
  length (buf r) = Z.to_nat buf_size ->
  ((delim ∉ buf r) <-> from_buffer r = Done (clear r, malformed_accession)).
Proof.
  intros Hlen.
  assert (take (Z.to_nat buf_size) (buf r) = buf r) as Htake
    by (apply take_ge; lia).
  unfold from_buffer. change (buf (clear r)) with (buf r). rewrite Htake.
  split.
  - intros Hnot. rewrite (find_notin _ _ Hnot), Hlen, Nat.eqb_refl. reflexivity.
  - destruct (Nat.eqb_spec (find (buf r) delim) (Z.to_nat buf_size)) as [Heq|Hne].
    + intros _ Hin. apply find_elem in Hin. lia.
    + destruct (deref _ _) as [c| |]; cbn [mbind outcome_bind obind];
        try discriminate.
      destruct (negb _); [discriminate|].
      destruct (from_chars _ _) as [[n1 ec1] v1].
      destruct ec1; try discriminate.
      destruct (deref _ _) as [c2| |]; cbn [mbind outcome_bind obind];
        try discriminate.
      destruct (negb _); [discriminate|].
      destruct (from_chars _ _) as [[n2 ec2] v2].
      destruct ec2; try discriminate.
      destruct (deref _ _) as [c3| |]; cbn [mbind outcome_bind obind];
        try discriminate.
      destruct (negb _); discriminate.
Qed.

Lemma digits_prefix_length_le l : (length (digits_prefix l) <= length l)%nat.
Proof.
  induction l as [|c l IH]; simpl; [lia|]. destruct (is_digit c); simpl; lia.
Qed.

Lemma digits_prefix_stops l c :
  last l = Some c -> is_digit c = false ->
  (length (digits_prefix l) < length l)%nat.
Proof.
  induction l as [|x l IH]; intros Hlast Hc; [discriminate|].
  simpl. destruct (is_digit x) eqn:Hx; [|simpl; lia].
  destruct l as [|y l].
  - simpl in Hlast. injection Hlast as ->. congruence.
  - specialize (IH Hlast Hc). simpl in *. lia.
Qed.

Lemma last_drop (l : list Z) k c :
  last l = Some c -> (k < length l)%nat -> last (drop k l) = Some c.
Proof.
  revert k; induction l as [|x l IH]; intros k Hlast Hk; [discriminate|].
  destruct k as [|k]; [exact Hlast|].
  simpl in Hk. destruct l as [|y l]; [simpl in Hk; lia|].
  simpl drop. apply IH; [exact Hlast|simpl in *; lia].
Qed.

Lemma from_chars_none_length range value n v :
  from_chars range value = (n, errc_none, v) ->
  n = length (digits_prefix range) /\ (0 < n)%nat.
Proof.
  unfold from_chars. destruct (digits_prefix range) as [|d ds]; [discriminate|].
  destruct (_ <? _); intros [= <- <-]; simpl; split; (reflexivity || lia).
Qed.

(** X2. When the last byte of the buffer is not a digit, as after
    [to_buffer] of a text shorter than the buffer, [from_buffer] returns
    a status: it never reads past the end. *)
Theorem from_buffer_in_bounds (r : request) (c : Z) :
  length (buf r) = Z.to_nat buf_size ->
  last (buf r) = Some c ->
  is_digit c = false ->
  exists r' st, from_buffer r = Done (r', st).
Proof.
  intros Hlen Hlast Hc.
  assert (take (Z.to_nat buf_size) (buf r) = buf r) as Htake
    by (apply take_ge; lia).
  unfold from_buffer. change (buf (clear r)) with (buf r). rewrite Htake.
  set (b := buf r) in *.
  pose proof (find_le b delim) as Hfind.
  destruct (Nat.eqb_spec (find b delim) (Z.to_nat buf_size)) as [Heq|Hne];
    [eauto|].
  destruct (deref_lt b (find b delim) ltac:(lia)) as [c1 ->].
  cbn [mbind outcome_bind obind].
  destruct (negb _); [eauto|].
  destruct (from_chars _ _) as [[n1 ec1] v1] eqn:Hms.
  destruct ec1; [|eauto|eauto].
  apply from_chars_none_length in Hms as [-> Hn1].
  assert (S (find b delim) < length b)%nat as Hk1.
  { destruct (Nat.lt_ge_cases (S (find b delim)) (length b)) as [?|Hge]; [assumption|].
    rewrite drop_ge in Hn1 by lia. simpl in Hn1. lia. }
  pose proof (digits_prefix_stops _ c (last_drop b _ c Hlast Hk1) Hc) as Hstop1.
  rewrite length_drop in Hstop1.
  destruct (deref_lt b (S (find b delim) + length (digits_prefix (drop (S (find b delim)) b)))
              ltac:(lia)) as [c2 ->].
  cbn [mbind outcome_bind obind].
  destruct (negb _); [eauto|].
  destruct (from_chars _ _) as [[n2 ec2] v2] eqn:Hni.
  destruct ec2; [|eauto|eauto].
  apply from_chars_none_length in Hni as [-> Hn2].
  match type of Hn2 with
  | (0 < length (digits_prefix (drop ?k _)))%nat => set (k2 := k) in *
  end.
  assert (k2 < length b)%nat as Hk2.
  { destruct (Nat.lt_ge_cases k2 (length b)) as [?|Hge]; [assumption|].
    rewrite drop_ge in Hn2 by lia. simpl in Hn2. lia. }
  pose proof (digits_prefix_stops _ c (last_drop b _ c Hlast Hk2) Hc) as Hstop2.
  rewrite length_drop in Hstop2.
  destruct (deref_lt b (k2 + length (digits_prefix (drop k2 b))) ltac:(lia))
    as [c3 ->].
  cbn [mbind outcome_bind obind].
  destruct (negb _); eauto.
Qed.

Lemma deref_drop (b : list Z) k c :
  deref b k = Done c -> drop k b = c :: drop (S k) b.
Proof.
  unfold deref. destruct (b !! k) as [x|] eqn:Hx; [|discriminate].
  intros [= <-]. apply drop_S. exact Hx.
Qed.

Lemma digits_prefix_split l :
  l = digits_prefix l ++ drop (length (digits_prefix l)) l
  /\ Forall (fun d => is_digit d = true) (digits_prefix l).
Proof.
  induction l as [|c l [IH1 IH2]]; simpl; [split; [reflexivity|constructor]|].
  destruct (is_digit c) eqn:Hc; simpl.
  - split; [f_equal; exact IH1|constructor; assumption].
  - split; [reflexivity|constructor].
Qed.

Lemma digits_value_nonneg ds :
  Forall (fun d => is_digit d = true) ds -> 0 <= digits_value ds.
Proof.
  intros Hds.
  assert (forall v, 0 <= v -> 0 <= foldl (fun v d => 10 * v + (d - 48)) v ds) as H.
  { induction Hds as [|d ds Hd _ IH]; intros w Hw; [exact Hw|].
    simpl. apply IH. unfold is_digit in Hd.
    apply andb_prop in Hd as [Hd _]. apply Z.leb_le in Hd. lia. }
  apply H. lia.
Qed.

Lemma from_chars_none range value n v :
  from_chars range value = (n, errc_none, v) ->
  n = length (digits_prefix range)
  /\ digits_prefix range <> []
  /\ v = digits_value (digits_prefix range)
  /\ v < U32.modulus.
Proof.
  unfold from_chars. destruct (digits_prefix range) as [|d ds]; [discriminate|].
  destruct (Z.ltb_spec (digits_value (d :: ds)) U32.modulus);
    intros [= <- <-]; repeat split; (discriminate || assumption).
Qed.

Lemma negb_eqb_false c d : negb (c =? d) = false -> c = d.
Proof. destruct (Z.eqb_spec c d); [auto|discriminate]. Qed.

(** X3. When [from_buffer] returns [ok], the buffer starts with the
    accession it stored, which holds no tab, a tab, a non-empty run of
    digits whose value is the [methylome_size] it stored, a tab, a
    non-empty run of digits whose value is the [n_intervals] it stored,
    and a newline; both numbers fit in 32 bits, and [buf] and [offsets]
    are left as they were. *)
Theorem from_buffer_ok_shape (r r' : request) :
  length (buf r) = Z.to_nat buf_size ->
  from_buffer r = Done (r', ok) ->
  exists ds1 ds2 rest,
    buf r = accession r' ++ [delim] ++ ds1 ++ [delim] ++ ds2 ++ [term] ++ rest
    /\ (delim ∉ accession r')
    /\ ds1 <> [] /\ Forall (fun d => is_digit d = true) ds1
    /\ digits_value ds1 = methylome_size r'
    /\ 0 <= methylome_size r' < U32.modulus
    /\ ds2 <> [] /\ Forall (fun d => is_digit d = true) ds2
    /\ digits_value ds2 = n_intervals r'
    /\ 0 <= n_intervals r' < U32.modulus
    /\ buf r' = buf r /\ offsets r' = offsets r.
Proof.
  intros Hlen.
  assert (take (Z.to_nat buf_size) (buf r) = buf r) as Htake
    by (apply take_ge; lia).
  unfold from_buffer. change (buf (clear r)) with (buf r). rewrite Htake.
  set (b := buf r) in *. set (k0 := find b delim).
  destruct (_ =? _)%nat; [discriminate|].
  destruct (deref b k0) as [c1| |] eqn:Hd1; cbn [mbind outcome_bind obind];
    try discriminate.
  destruct (negb (c1 =? delim)) eqn:Hc1; [discriminate|].
  apply negb_eqb_false in Hc1. subst c1.
  destruct (from_chars _ _) as [[n1 ec1] v1] eqn:Hms.
  destruct ec1; try discriminate.
  apply from_chars_none in Hms as (-> & Hne1 & -> & Hv1).
  set (ds1 := digits_prefix (drop (S k0) b)) in *.
  destruct (deref b (S k0 + length ds1)) as [c2| |] eqn:Hd2;
    cbn [mbind outcome_bind obind]; try discriminate.
  destruct (negb (c2 =? delim)) eqn:Hc2; [discriminate|].
  apply negb_eqb_false in Hc2. subst c2.
  destruct (from_chars _ _) as [[n2 ec2] v2] eqn:Hni.
  destruct ec2; try discriminate.
  apply from_chars_none in Hni as (-> & Hne2 & -> & Hv2).
  set (k2 := S (S k0 + length ds1)) in *.
  set (ds2 := digits_prefix (drop k2 b)) in *.
  destruct (deref b (k2 + length ds2)) as [c3| |] eqn:Hd3;
    cbn [mbind outcome_bind obind]; try discriminate.
  destruct (negb (c3 =? term)) eqn:Hc3; [discriminate|].
  apply negb_eqb_false in Hc3. subst c3.
  intros [= <-]. cbn.
  exists ds1, ds2, (drop (S (k2 + length ds2)) b).
  destruct (digits_prefix_split (drop (S k0) b)) as [Hs1 Hdig1].
  destruct (digits_prefix_split (drop k2 b)) as [Hs2 Hdig2].
  fold ds1 in Hs1, Hdig1. fold ds2 in Hs2, Hdig2.
  split.
  { rewrite <- (take_drop k0 b) at 1. f_equal.
    rewrite (deref_drop _ _ _ Hd1). simpl. f_equal.
    rewrite Hs1 at 1. f_equal.
    rewrite drop_drop. rewrite (deref_drop _ _ _ Hd2). f_equal.
    fold k2. rewrite Hs2 at 1. f_equal.
    rewrite drop_drop. rewrite (deref_drop _ _ _ Hd3). reflexivity. }
  split; [apply find_take_notin|].
  pose proof (digits_value_nonneg _ Hdig1). pose proof (digits_value_nonneg _ Hdig2).
  repeat split; auto.
Qed.


(** X1. Encoding a request whose accession has no tab and whose text
    fits the buffer, then decoding the object that [to_buffer] filled,
    returns [ok] and leaves that very object: no field changes. *)
Theorem request_round_trip (r : request) :
  length (buf r) = Z.to_nat buf_size ->
  (length (serialized r) <= Z.to_nat buf_size)%nat ->
  delim ∉ accession r ->
  0 <= methylome_size r < U32.modulus ->
  0 <= n_intervals r < U32.modulus ->
  exists r1,
    to_buffer r = Done (r1, ok)
    /\ from_buffer r1 = Done (r1, ok)
    /\ accession r1 = accession r
    /\ methylome_size r1 = methylome_size r
    /\ n_intervals r1 = n_intervals r
    /\ offsets r1 = offsets r.
Proof.
  intros Hbuf Hfit Hacc Hms Hni.
  set (pad := replicate (Z.to_nat buf_size - length (serialized r)) 0).
  exists (with_buf r (serialized r ++ pad)).
  split; [apply to_buffer_text; assumption|].
  split; [|repeat split].
  rewrite (from_buffer_text _ (accession r) (methylome_size r) (n_intervals r) pad);
    try assumption.
  - reflexivity.
  - cbn [buf with_buf]. rewrite take_ge.
    + unfold serialized. rewrite <- !app_assoc. reflexivity.
    + subst pad. rewrite length_app, length_replicate. lia.
Qed.

Lemma request_round_trip_witness :
  exists r1,
    to_buffer srx_request = Done (r1, ok)
    /\ from_buffer r1 = Done (r1, ok)
    /\ accession r1 = accession srx_request
    /\ methylome_size r1 = methylome_size srx_request
    /\ n_intervals r1 = n_intervals srx_request
    /\ offsets r1 = offsets srx_request.
Proof.
  apply (request_round_trip srx_request).
  - reflexivity.
  - vm_compute. lia.
  - vm_compute. intros H. repeat (apply elem_of_cons in H as [H|H]; [discriminate|]).
    inversion H.
  - vm_compute. split; [discriminate|reflexivity].
  - vm_compute. split; [discriminate|reflexivity].
Defined.

Lemma to_digits_length fuel : forall n acc,
  (length (to_digits fuel n acc) <= fuel + length acc)%nat.
Proof.
  induction fuel as [|fuel IH]; intros n acc; simpl; [lia|].
  destruct (_ =? 0); [simpl; lia|].
  etransitivity; [apply IH|]. simpl. lia.
Qed.

Lemma format_u32_length n : (length (format_u32 n) <= 10)%nat.
Proof. unfold format_u32. pose proof (to_digits_length 10 n []). simpl in *. lia. Qed.

(** X5. [to_buffer] writes past the end of [buf] exactly when the text
    is longer than the 256 bytes of the buffer; with an accession of at
    most 233 bytes the text always fits, whatever the two numbers. *)
Theorem to_buffer_bounds (r : request) :
  length (buf r) = Z.to_nat buf_size ->
  (to_buffer r = OutOfBounds <-> (Z.to_nat buf_size < length (serialized r))%nat)
  /\ ((length (accession r) <= 233)%nat ->
      exists r1, to_buffer r = Done (r1, ok)).
Proof.
  intros Hbuf. split.
  - unfold to_buffer, fill_n, copy.
    rewrite Hbuf, Nat.min_id, drop_ge by lia.
    rewrite app_nil_r, length_replicate.
    destruct (Nat.leb_spec (length (serialized r)) (Z.to_nat buf_size)).
    + split; [discriminate|lia].
    + split; [lia|reflexivity].
  - intros Hacc. eexists. apply to_buffer_text; [assumption|].
    unfold serialized. rewrite !length_app. cbn [length].
    pose proof (format_u32_length (methylome_size r)).
    pose proof (format_u32_length (n_intervals r)).
    change (Z.to_nat buf_size) with 256%nat. lia.
Qed.

Lemma to_buffer_bounds_witness :
  (to_buffer srx_request = OutOfBounds
   <-> (Z.to_nat buf_size < length (serialized srx_request))%nat)
  /\ ((length (accession srx_request) <= 233)%nat ->
      exists r1, to_buffer srx_request = Done (r1, ok)).
Proof. apply (to_buffer_bounds srx_request). reflexivity. Defined.

Lemma from_buffer_in_bounds_witness :
  exists r' st, from_buffer srx_encoded = Done (r', st).
Proof.
  apply (from_buffer_in_bounds srx_encoded 0); reflexivity.
Defined.

Lemma from_buffer_ok_shape_witness :
  exists ds1 ds2 rest,
    buf srx_encoded
    = accession srx_encoded ++ [delim] ++ ds1 ++ [delim] ++ ds2 ++ [term] ++ rest
    /\ (delim ∉ accession srx_encoded)
    /\ ds1 <> [] /\ Forall (fun d => is_digit d = true) ds1
    /\ digits_value ds1 = methylome_size srx_encoded
    /\ 0 <= methylome_size srx_encoded < U32.modulus
    /\ ds2 <> [] /\ Forall (fun d => is_digit d = true) ds2
    /\ digits_value ds2 = n_intervals srx_encoded
    /\ 0 <= n_intervals srx_encoded < U32.modulus
    /\ buf srx_encoded = buf srx_encoded /\ offsets srx_encoded = offsets srx_request.
Proof.
  apply (from_buffer_ok_shape srx_encoded srx_encoded); reflexivity.
Defined.

Lemma from_buffer_without_tab_witness :
  (delim ∉ buf (zero_request srx_request))
  <-> from_buffer (zero_request srx_request)
      = Done (clear (zero_request srx_request), malformed_accession).
Proof. apply (from_buffer_without_tab (zero_request srx_request)). reflexivity. Defined.

End RequestProps.

Module ConnectionProps.
Import Connection.

Example header_read_fails :
  @start sample fresh_connection [failed] = [(op_read_request 256, errored)].
Proof. reflexivity. Qed.

Example header_does_not_parse :
  @start sample fresh_connection [transferred (replicate 256 0); transferred []]
  = [(op_read_request 256, completed);
     (op_write_error (replicate 256 0), completed);
     (op_shutdown_both, completed)].
Proof. reflexivity. Qed.

Example offsets_read_fails :
  @start sample fresh_connection [transferred good_header; failed; transferred []]
  = [(op_read_request 256, completed);
     (op_read_offsets 8, errored);
     (op_write_error (replicate 256 0), completed);
     (op_shutdown_both, completed)].
Proof. reflexivity. Qed.

Example exchange_goes_through :
  @start sample fresh_connection
    [transferred good_header; transferred [1; 2; 3]; transferred [4; 5; 6; 7; 8; 9];
     transferred []; transferred []]
  = [(op_read_request 256, completed);
     (op_read_offsets 8, completed);
     (op_read_offsets 5, completed);
     (op_write_header (0 :: replicate 255 0), completed);
     (op_write_counts [], completed);
     (op_shutdown_both, completed)].
Proof. reflexivity. Qed.

(** *** Error headers *)

(** The connection passed on has the response buffer of the connection
    that was received: the lemma for the callee closes the goal. *)
Ltac error_written_at lem :=
  match goal with
  | |- Forall _ (_ ?c' ?script) => exact (lem c' script)
  end.

Section error_headers.
Context `{Collaborators}.

Lemma respond_with_error_written (c : connection) script :
  Forall (error_write_is (resp_buf c)) (respond_with_error c script).
Proof.
  unfold respond_with_error.
  destruct (from_chars_response_header _ _) as [[n resp_err] h].
  destruct resp_err; [repeat constructor|].
  destruct script as [|[|data] script]; repeat constructor.
Qed.

Lemma respond_with_counts_written data (c : connection) script :
  Forall (error_write_is data) (respond_with_counts c script).
Proof.
  unfold respond_with_counts.
  destruct script as [|[|d] script]; repeat constructor.
Qed.

Lemma respond_with_header_written data (c : connection) script :
  Forall (error_write_is data) (respond_with_header c script).
Proof.
  unfold respond_with_header.
  destruct (to_chars_response_header _ _) as [[n resp_err] b].
  destruct resp_err; [repeat constructor|].
  destruct script as [|[|d] script]; repeat constructor.
  apply respond_with_counts_written.
Qed.

Lemma read_offsets_written script : forall (c : connection),
  Forall (error_write_is (resp_buf c)) (read_offsets c script).
Proof.
  induction script as [|[|d] script IH]; intros c; simpl.
  - repeat constructor.
  - constructor; [exact I|]. apply respond_with_error_written.
  - constructor; [exact I|].
    destruct (_ =? 0).
    + destruct (handle_get_counts _ _ _ _ _) as [[h rh] rs].
      apply respond_with_header_written.
    + match goal with |- Forall _ (read_offsets ?c' _) => exact (IH c') end.
Qed.

Lemma read_request_written (c : connection) script :
  Forall (error_write_is (resp_buf c)) (read_request c script).
Proof.
  unfold read_request.
  destruct script as [|[|d] script]; try (repeat constructor; fail).
  constructor; [exact I|].
  destruct (from_chars_request_header _ _) as [[ptr req_hdr_err] h].
  destruct req_hdr_err.
  { error_written_at respond_with_error_written. }
  destruct (handle_header _ _ _) as [hd rh].
  destruct (error _).
  { error_written_at respond_with_error_written. }
  destruct (from_chars_request _ _) as [[n req_err] r].
  destruct req_err.
  { error_written_at respond_with_error_written. }
  match goal with
  | |- Forall _ (read_offsets ?c' _) => exact (read_offsets_written script c')
  end.
Qed.

End error_headers.

(** C6. Whatever the request and whatever failed, every error header a
    connection writes is the content its response buffer had when the
    connection started: [respond_with_error] parses that buffer where
    [respond_with_header] fills it, so the status set in [resp_hdr] never
    reaches the socket.  On the sample instance a header of 256 zero
    bytes fails to parse, [resp_hdr] becomes [bad_request] (400), and
    the bytes written are the 256 zero bytes of the fresh buffer. *)
Theorem error_header_is_stale_buffer :
  (forall (C : Collaborators) (c : connection) (script : list completion),
     Forall (error_write_is (resp_buf c)) (start c script))
  /\ @start sample fresh_connection
       [transferred (replicate 256 0); transferred []]
     = [(op_read_request 256, completed);
        (op_write_error (replicate 256 0), completed);
        (op_shutdown_both, completed)].
Proof.
  split; [|reflexivity].
  intros C c script. apply read_request_written.
Qed.

(** *** I/O errors *)

(** [reacts tr]: every operation of [tr] that ended with an error is
    followed by its [reaction]. *)
Local Abbreviation reacts tr :=
  (forall (pre : list event) (o : operation) (post : list event),
     tr = pre ++ (o, errored) :: post -> reaction o post).

Lemma reacts_nil : reacts ([] : list event).
Proof. intros [|? pre] o post Heq; discriminate. Qed.

Lemma reacts_cons (o : operation) (e : ending) (tr : list event) :
  e <> errored -> reacts tr -> reacts ((o, e) :: tr).
Proof.
  intros He Htr [|ev pre] o' post Heq; simpl in Heq.
  - injection Heq as _ -> _. congruence.
  - injection Heq as _ Heq. eapply Htr; eassumption.
Qed.

Lemma reacts_errored (o : operation) (tr : list event) :
  reaction o tr -> reacts tr -> reacts ((o, errored) :: tr).
Proof.
  intros Ho Htr [|ev pre] o' post Heq; simpl in Heq.
  - injection Heq as <- <-. exact Ho.
  - injection Heq as _ Heq. eapply Htr; eassumption.
Qed.

Ltac reacts_step :=
  first [ apply reacts_nil
        | apply reacts_cons; [discriminate|]
        | apply reacts_errored; [simpl; auto|] ].

Section io_errors.
Context `{Collaborators}.

Lemma respond_with_error_reacts (c : connection) script :
  reacts (respond_with_error c script).
Proof.
  unfold respond_with_error.
  destruct (from_chars_response_header _ _) as [[n resp_err] h].
  destruct resp_err; [repeat reacts_step|].
  destruct script as [|[|data] script]; repeat reacts_step.
Qed.

Lemma respond_with_error_reaction (c : connection) script n :
  reaction (op_read_offsets n) (respond_with_error c script).
Proof.
  unfold respond_with_error.
  destruct (from_chars_response_header _ _) as [[k resp_err] h].
  destruct resp_err; [left; reflexivity|].
  right. exists (resp_buf c).
  destruct script as [|[|data] script]; simpl; auto.
Qed.

Lemma respond_with_counts_reacts (c : connection) script :
  reacts (respond_with_counts c script).
Proof.
  unfold respond_with_counts.
  destruct script as [|[|d] script]; repeat reacts_step.
Qed.

Lemma respond_with_header_reacts (c : connection) script :
  reacts (respond_with_header c script).
Proof.
  unfold respond_with_header.
  destruct (to_chars_response_header _ _) as [[n resp_err] b].
  destruct resp_err; [repeat reacts_step|].
  destruct script as [|[|d] script]; repeat reacts_step.
  apply respond_with_counts_reacts.
Qed.

Lemma read_offsets_reacts script : forall (c : connection),
  reacts (read_offsets c script).
Proof.
  induction script as [|[|d] script IH]; intros c; simpl.
  - repeat reacts_step.
  - apply reacts_errored.
    + apply respond_with_error_reaction.
    + apply respond_with_error_reacts.
  - apply reacts_cons; [discriminate|].
    destruct (_ =? 0).
    + destruct (handle_get_counts _ _ _ _ _) as [[h rh] rs].
      apply respond_with_header_reacts.
    + apply IH.
Qed.

Lemma read_request_reacts (c : connection) script :
  reacts (read_request c script).
Proof.
  unfold read_request.
  destruct script as [|[|d] script]; try (repeat reacts_step; fail).
  apply reacts_cons; [discriminate|].
  destruct (from_chars_request_header _ _) as [[ptr req_hdr_err] h].
  destruct req_hdr_err; [apply respond_with_error_reacts|].
  destruct (handle_header _ _ _) as [hd rh].
  destruct (error _); [apply respond_with_error_reacts|].
  destruct (from_chars_request _ _) as [[n req_err] r].
  destruct req_err; [apply respond_with_error_reacts|].
  apply read_offsets_reacts.
Qed.

Lemma reaction_no_read (o : operation) (post : list event) :
  reaction o post -> Forall (fun ev : event => is_read ev.1 = false) post.
Proof.
  destruct o; simpl; intros Hr;
    repeat match goal with
           | H : _ \/ _ |- _ => destruct H
           | H : exists _, _ |- _ => destruct H
           | H : False |- _ => destruct H
           end; subst; repeat constructor.
Qed.

End io_errors.

(** C7. In every run of a connection an operation that ends with an I/O
    error is followed by its [reaction] and by no read: nothing at all
    after a failed read of the header, a failed write of the counts or a
    failed write of an error header (no shutdown is called: the socket
    goes with the connection); a shutdown of both directions after a
    failed write of the response header; and after a failed read of the
    offsets what [respond_with_error] does, a shutdown or the write of
    an error header.  No failed operation is started again. *)
Theorem io_error_reaction `{Collaborators} (c : connection)
    (script : list completion) (pre : list event) (o : operation)
    (post : list event) :
  start c script = pre ++ (o, errored) :: post ->
  reaction o post
  /\ Forall (fun ev : event => is_read ev.1 = false) post.
Proof.
  intros Hrun.
  assert (reaction o post) as Hr
    by (eapply read_request_reacts; exact Hrun).
  split; [exact Hr|]. eapply reaction_no_read; exact Hr.
Qed.

Lemma io_error_reaction_witness :
  reaction (op_read_offsets 8)
    [(op_write_error (replicate 256 0), completed); (op_shutdown_both, completed)]
  /\ Forall (fun ev : event => is_read ev.1 = false)
       [(op_write_error (replicate 256 0), completed);
        (op_shutdown_both, completed)].
Proof.
  apply (@io_error_reaction sample fresh_connection
           [transferred good_header; failed; transferred []]
           [(op_read_request 256, completed)]
           (op_read_offsets 8)
           [(op_write_error (replicate 256 0), completed);
            (op_shutdown_both, completed)]).
  reflexivity.
Defined.

(** When the read of the header fails the connection calls no shutdown;
    when the read of the offsets fails it goes on to write an error
    header. *)
Lemma io_error_not_aborted :
  @start sample fresh_connection [failed]
  = [(op_read_request 256, errored)]
  /\ @start sample fresh_connection
       [transferred good_header; failed; transferred []]
     = [(op_read_request 256, completed);
        (op_read_offsets 8, errored);
        (op_write_error (replicate 256 0), completed);
        (op_shutdown_both, completed)].
Proof. split; reflexivity. Qed.

(** *** The order of the operations *)

Local Abbreviation closes tr :=
  (forall (pre : list event) (e : ending) (post : list event),
     tr = pre ++ (op_shutdown_both, e) :: post -> post = []).

Lemma closes_nil : closes ([] : list event).
Proof. intros [|ev pre] e post Heq; discriminate. Qed.

Lemma closes_cons (o : operation) (e : ending) (tr : list event) :
  is_shutdown o = false -> closes tr -> closes ((o, e) :: tr).
Proof.
  intros Ho Htr [|ev pre] e' post Heq; simpl in Heq.
  - injection Heq as -> _ _. discriminate.
  - injection Heq as _ Heq. eapply Htr; eassumption.
Qed.

Lemma closes_shutdown (e : ending) : closes [(op_shutdown_both, e)].
Proof.
  intros [|ev [|ev' pre]] e' post Heq; simpl in Heq; try discriminate.
  injection Heq as _ <-. reflexivity.
Qed.

Ltac closes_step :=
  first [ apply closes_nil
        | apply closes_shutdown
        | apply closes_cons; [reflexivity|] ].

Section order.
Context `{Collaborators}.

Lemma respond_with_error_closes (c : connection) script :
  closes (respond_with_error c script).
Proof.
  unfold respond_with_error.
  destruct (from_chars_response_header _ _) as [[n resp_err] h].
  destruct resp_err; [closes_step|].
  destruct script as [|[|data] script]; repeat closes_step.
Qed.

Lemma respond_with_counts_closes (c : connection) script :
  closes (respond_with_counts c script).
Proof.
  unfold respond_with_counts.
  destruct script as [|[|d] script]; repeat closes_step.
Qed.

Lemma respond_with_header_closes (c : connection) script :
  closes (respond_with_header c script).
Proof.
  unfold respond_with_header.
  destruct (to_chars_response_header _ _) as [[n resp_err] b].
  destruct resp_err; [closes_step|].
  destruct script as [|[|d] script]; repeat closes_step.
  apply respond_with_counts_closes.
Qed.

Lemma read_offsets_closes script : forall (c : connection),
  closes (read_offsets c script).
Proof.
  induction script as [|[|d] script IH]; intros c; simpl.
  - repeat closes_step.
  - closes_step. apply respond_with_error_closes.
  - closes_step.
    destruct (_ =? 0).
    + destruct (handle_get_counts _ _ _ _ _) as [[h rh] rs].
      apply respond_with_header_closes.
    + apply IH.
Qed.

Lemma read_request_closes (c : connection) script :
  closes (read_request c script).
Proof.
  unfold read_request.
  destruct script as [|[|d] script]; try (repeat closes_step; fail).
  closes_step.
  destruct (from_chars_request_header _ _) as [[ptr req_hdr_err] h].
  destruct req_hdr_err; [apply respond_with_error_closes|].
  destruct (handle_header _ _ _) as [hd rh].
  destruct (error _); [apply respond_with_error_closes|].
  destruct (from_chars_request _ _) as [[n req_err] r].
  destruct req_err; [apply respond_with_error_closes|].
  apply read_offsets_closes.
Qed.

End order.

(** X10. In every run a shutdown is the last thing a connection does,
    and it happens at most once: nothing follows it and none comes
    before it. *)
Theorem shutdown_is_last `{Collaborators} (c : connection)
    (script : list completion) (pre : list event) (e : ending)
    (post : list event) :
  start c script = pre ++ (op_shutdown_both, e) :: post ->
  post = []
  /\ Forall (fun ev : event => is_shutdown ev.1 = false) pre.
Proof.
  intros Hrun.
  assert (post = []) as -> by (eapply read_request_closes; exact Hrun).
  split; [reflexivity|].
  apply Forall_forall. intros [o e'] Hin.
  destruct o; try reflexivity. exfalso.
  apply list_elem_of_In, in_split in Hin as (l1 & l2 & ->).
  rewrite <- app_assoc in Hrun. simpl in Hrun.
  apply read_request_closes in Hrun. destruct l2; discriminate.
Qed.

(** *** One answer per connection *)

Section one_answer.
Context `{Collaborators}.

Lemma respond_with_error_no_response (c : connection) script :
  wrote_response (respond_with_error c script) = false.
Proof.
  unfold respond_with_error.
  destruct (from_chars_response_header _ _) as [[n resp_err] h].
  destruct resp_err; [reflexivity|].
  destruct script as [|[|data] script]; reflexivity.
Qed.

Lemma respond_with_counts_no_error (c : connection) script :
  wrote_error (respond_with_counts c script) = false.
Proof.
  unfold respond_with_counts. destruct script as [|[|d] script]; reflexivity.
Qed.

Lemma respond_with_header_no_error (c : connection) script :
  wrote_error (respond_with_header c script) = false.
Proof.
  unfold respond_with_header.
  destruct (to_chars_response_header _ _) as [[n resp_err] b].
  destruct resp_err; [reflexivity|].
  destruct script as [|[|d] script]; try reflexivity.
  apply (respond_with_counts_no_error (set_resp_buf c b)).
Qed.

Lemma read_offsets_one_answer script : forall (c : connection),
  wrote_error (read_offsets c script) && wrote_response (read_offsets c script)
  = false.
Proof.
  induction script as [|[|d] script IH]; intros c; simpl.
  - reflexivity.
  - change (wrote_error (respond_with_error c script)
            && wrote_response (respond_with_error c script) = false).
    rewrite respond_with_error_no_response. apply andb_false_r.
  - destruct (_ =? 0).
    + destruct (handle_get_counts _ _ _ _ _) as [[h rh] rs].
      match goal with
      | |- context [respond_with_header ?c' ?s] =>
          change (wrote_error (respond_with_header c' s)
                  && wrote_response (respond_with_header c' s) = false);
          rewrite (respond_with_header_no_error c' s)
      end.
      reflexivity.
    + apply IH.
Qed.

Lemma read_request_one_answer (c : connection) script :
  wrote_error (read_request c script) && wrote_response (read_request c script)
  = false.
Proof.
  unfold read_request.
  destruct script as [|[|d] script]; try reflexivity.
  match goal with
  | |- wrote_error (_ :: ?tr) && wrote_response (_ :: ?tr) = false =>
      change (wrote_error tr && wrote_response tr = false)
  end.
  destruct (from_chars_request_header _ _) as [[ptr req_hdr_err] h].
  destruct req_hdr_err;
    [rewrite respond_with_error_no_response; apply andb_false_r|].
  destruct (handle_header _ _ _) as [hd rh].
  destruct (error _);
    [rewrite respond_with_error_no_response; apply andb_false_r|].
  destruct (from_chars_request _ _) as [[n req_err] r].
  destruct req_err;
    [rewrite respond_with_error_no_response; apply andb_false_r|].
  apply read_offsets_one_answer.
Qed.

End one_answer.

(** X11. No run writes both an error header and a response (header or
    counts): a connection gives one kind of answer. *)
Theorem error_or_response `{Collaborators} (c : connection)
    (script : list completion) :
  wrote_error (start c script) && wrote_response (start c script) = false.
Proof. apply read_request_one_answer. Qed.

(** *** What comes before the response *)

Local Abbreviation after_reads tr :=
  (forall (pre : list event) (o : operation) (e : ending) (post : list event),
     tr = pre ++ (o, e) :: post ->
     match o with
     | op_write_header _ =>
         Forall (fun ev : event => is_read ev.1 = true /\ ev.2 = completed) pre
     | op_write_counts _ =>
         exists pre' data, pre = pre' ++ [(op_write_header data, completed)]
     | _ => True
     end).

Lemma after_reads_nil : after_reads ([] : list event).
Proof. intros [|ev pre] o e post Heq; discriminate. Qed.

Lemma after_reads_last (o : operation) (e : ending) :
  is_response_write o = false -> after_reads [(o, e)].
Proof.
  intros Ho [|ev [|ev' pre]] o' e' post Heq; simpl in Heq; try discriminate.
  injection Heq as <- <- <-. destruct o; try exact I; discriminate.
Qed.

(** A completed read in front of a trace that is in order. *)
Lemma after_reads_read (o : operation) (tr : list event) :
  is_read o = true ->
  after_reads tr -> after_reads ((o, completed) :: tr).
Proof.
  intros Ho Htr [|ev pre] o' e' post Heq; simpl in Heq.
  - injection Heq as <- <- <-. destruct o; try exact I; discriminate.
  - injection Heq as <- Heq. specialize (Htr pre o' e' post Heq).
    destruct o'; try exact I.
    + constructor; [split; [exact Ho|reflexivity]|exact Htr].
    + destruct Htr as (pre' & hdr & ->). exists ((o, completed) :: pre'), hdr.
      reflexivity.
Qed.

Lemma after_reads_no_response (tr : list event) :
  wrote_response tr = false -> after_reads tr.
Proof.
  intros Hno pre o e post ->. unfold wrote_response in Hno.
  rewrite existsb_app in Hno. simpl in Hno.
  destruct o; try exact I; simpl in Hno; rewrite orb_true_r in Hno; discriminate.
Qed.

Ltac after_reads_explicit :=
  let pre := fresh "pre" in
  let Heq := fresh "Heq" in
  intros pre ? ? ? Heq;
  do 4 (try (destruct pre as [|? pre]; simpl in Heq;
             [simplify_eq; simpl;
              first [ exact I | constructor
                    | eexists [], _; reflexivity ]
             |try discriminate Heq])).

Section response_order.
Context `{Collaborators}.

Lemma respond_with_header_after_reads (c : connection) script :
  after_reads (respond_with_header c script).
Proof.
  unfold respond_with_header.
  destruct (to_chars_response_header _ _) as [[n resp_err] b].
  destruct resp_err; [after_reads_explicit|].
  destruct script as [|[|d] script]; [after_reads_explicit ..|].
  unfold respond_with_counts.
  destruct script as [|[|d'] script]; after_reads_explicit.
Qed.

Lemma read_offsets_after_reads script : forall (c : connection),
  after_reads (read_offsets c script).
Proof.
  induction script as [|[|d] script IH]; intros c; simpl.
  - apply after_reads_no_response. reflexivity.
  - apply after_reads_no_response.
    change (wrote_response (respond_with_error c script) = false).
    apply respond_with_error_no_response.
  - apply after_reads_read; [reflexivity|].
    destruct (_ =? 0).
    + destruct (handle_get_counts _ _ _ _ _) as [[h rh] rs].
      apply respond_with_header_after_reads.
    + apply IH.
Qed.

Lemma read_request_after_reads (c : connection) script :
  after_reads (read_request c script).
Proof.
  unfold read_request.
  destruct script as [|[|d] script];
    try (apply after_reads_no_response; reflexivity).
  apply after_reads_read; [reflexivity|].
  destruct (from_chars_request_header _ _) as [[ptr req_hdr_err] h].
  destruct req_hdr_err;
    [apply after_reads_no_response, respond_with_error_no_response|].
  destruct (handle_header _ _ _) as [hd rh].
  destruct (error _);
    [apply after_reads_no_response, respond_with_error_no_response|].
  destruct (from_chars_request _ _) as [[n req_err] r].
  destruct req_err;
    [apply after_reads_no_response, respond_with_error_no_response|].
  apply read_offsets_after_reads.
Qed.

End response_order.

(** X12. In every run the response header is started only after reads
    that all completed, and the counts only right after a write of the
    response header that completed. *)
Theorem response_after_reads `{Collaborators} (c : connection)
    (script : list completion) (pre : list event) (o : operation)
    (e : ending) (post : list event) :
  start c script = pre ++ (o, e) :: post ->
  match o with
  | op_write_header _ =>
      Forall (fun ev : event => is_read ev.1 = true /\ ev.2 = completed) pre
  | op_write_counts _ =>
      exists pre' data, pre = pre' ++ [(op_write_header data, completed)]
  | _ => True
  end.
Proof. apply read_request_after_reads. Qed.

Lemma shutdown_is_last_witness :
  ([] : list event) = []
  /\ Forall (fun ev : event => is_shutdown ev.1 = false)
       [(op_read_request 256, completed);
        (op_read_offsets 8, errored);
        (op_write_error (replicate 256 0), completed)].
Proof.
  apply (@shutdown_is_last sample fresh_connection
           [transferred good_header; failed; transferred []]
           [(op_read_request 256, completed);
            (op_read_offsets 8, errored);
            (op_write_error (replicate 256 0), completed)]
           completed []).
  reflexivity.
Defined.

Lemma response_after_reads_witness :
  exists pre' data,
    [(op_read_request 256, completed); (op_read_offsets 8, completed);
     (op_read_offsets 5, completed);
     (op_write_header (0 :: replicate 255 0), completed)]
    = pre' ++ [(op_write_header data, completed)].
Proof.
  apply (@response_after_reads sample fresh_connection
           [transferred good_header; transferred [1; 2; 3];
            transferred [4; 5; 6; 7; 8; 9]; transferred []; transferred []]
           [(op_read_request 256, completed); (op_read_offsets 8, completed);
            (op_read_offsets 5, completed);
            (op_write_header (0 :: replicate 255 0), completed)]
           (op_write_counts []) completed [(op_shutdown_both, completed)]).
  reflexivity.
Defined.

Lemma length_resize n v : length (resize n v) = n.
Proof. unfold resize. rewrite length_app, length_take, length_replicate. lia. Qed.

(** *** What the reads of the offsets ask for *)

Section offsets.
Context `{Collaborators}.

Lemma respond_with_counts_dwindling c script bound :
  dwindling bound (respond_with_counts c script).
Proof. destruct script as [|[|data] script]; cbn; exact I. Qed.

Lemma respond_with_header_dwindling c script bound :
  dwindling bound (respond_with_header c script).
Proof.
  unfold respond_with_header.
  destruct (to_chars_response_header _ _) as [[n resp_err] b].
  destruct resp_err; [exact I|].
  destruct script as [|[|data] script]; cbn [dwindling]; try exact I.
  apply respond_with_counts_dwindling.
Qed.

Lemma respond_with_error_dwindling c script bound :
  dwindling bound (respond_with_error c script).
Proof.
  unfold respond_with_error.
  destruct (from_chars_response_header _ _) as [[n resp_err] h].
  destruct resp_err; [exact I|].
  destruct script as [|[|data] script]; cbn; exact I.
Qed.

Lemma read_offsets_dwindling script : forall c,
  0 <= offset_remaining c ->
  exists e rest,
    read_offsets c script = (op_read_offsets (offset_remaining c), e) :: rest
    /\ dwindling (offset_remaining c) rest.
Proof.
  induction script as [|[|data] script IH]; intros c Hc.
  - exists pending, []. split; [reflexivity|exact I].
  - exists errored, (respond_with_error c script).
    split; [reflexivity|apply respond_with_error_dwindling].
  - cbn [read_offsets]. eexists completed, _. split; [reflexivity|].
    cbn [offset_remaining set_offset_counters].
    set (data' := take (Z.to_nat (offset_remaining c)) data).
    assert (Hlen : 0 <= Z.of_nat (length data') <= offset_remaining c).
    { subst data'. rewrite length_take. lia. }
    destruct (Z.eqb_spec (offset_remaining c - Z.of_nat (length data')) 0)
      as [Hzero|Hmore].
    + destruct (handle_get_counts _ _ _ _ _) as [[h rh] rs].
      apply respond_with_header_dwindling.
    + match goal with
      | |- dwindling _ (read_offsets ?c' script) =>
          destruct (IH c') as (e & rest & -> & Hrest)
      end.
      { cbn [offset_remaining set_offset_counters]. lia. }
      cbn [offset_remaining set_offset_counters] in *. cbn [dwindling].
      split; [lia|exact Hrest].
Qed.

End offsets.

(** X13. [prepare_to_read_offsets] sizes [req.offsets] to
    [n_intervals] entries and resets the counters; the byte count comes
    from [get_offsets_n_bytes] as a 32-bit value, so [offset_remaining]
    is [8 * n_intervals] exactly when [n_intervals] is below [2^29], and
    that product modulo [2^32] otherwise.  The reads that follow ask for
    that many bytes first, then each for some bytes and for no more than
    the one before: the connection never asks for more than the
    truncated count, whatever the socket delivers. *)
Theorem prepare_to_read_offsets_counters `{Collaborators} (c : connection)
    (script : list completion) :
  0 <= Request.n_intervals (req c) ->
  let n := Request.n_intervals (req c) in
  let c' := prepare_to_read_offsets c in
  Z.of_nat (length (Request.offsets (req c'))) = n
  /\ Request.n_intervals (req c') = n
  /\ offset_byte c' = 0
  /\ offset_remaining c' = (8 * n) mod U32.modulus
  /\ (offset_remaining c' = 8 * n <-> n < 536870912)
  /\ resp_buf c' = resp_buf c
  /\ exists e rest,
       read_offsets c' script
       = (op_read_offsets ((8 * n) mod U32.modulus), e) :: rest
       /\ dwindling ((8 * n) mod U32.modulus) rest.
Proof.
  intros Hn n c'.
  assert (Hrem : offset_remaining c' = (8 * n) mod U32.modulus).
  { subst c'. unfold prepare_to_read_offsets.
    cbn [req offset_remaining set_offset_counters set_req].
    unfold get_offsets_n_bytes, U32.wrap32.
    cbn [Request.offsets set_offsets].
    rewrite length_resize, Z2Nat.id by exact Hn. reflexivity. }
  split.
  { subst c'. unfold prepare_to_read_offsets.
    cbn [req set_offset_counters set_req Request.offsets set_offsets].
    rewrite length_resize, Z2Nat.id by exact Hn. reflexivity. }
  split; [reflexivity|]. split; [reflexivity|]. split; [exact Hrem|].
  split.
  { rewrite Hrem. unfold U32.modulus. split.
    - intros Heq. pose proof (Z.mod_pos_bound (8 * n) 4294967296 ltac:(lia)). lia.
    - intros Hlt. apply Z.mod_small. lia. }
  split; [reflexivity|].
  rewrite <- Hrem. apply read_offsets_dwindling.
  rewrite Hrem. apply Z.mod_pos_bound. unfold U32.modulus. lia.
Qed.

Lemma prepare_to_read_offsets_counters_witness :
  let c' := @prepare_to_read_offsets sample wide_connection in
  Z.of_nat (length (Request.offsets (req c'))) = 536870913
  /\ offset_byte c' = 0
  /\ offset_remaining c' = 8
  /\ offset_remaining c' <> 8 * 536870913
  /\ exists e rest,
       read_offsets c' [transferred [1; 2; 3]; failed]
       = (op_read_offsets 8, e) :: rest
       /\ dwindling 8 rest.
Proof.
  intros c'.
  destruct (@prepare_to_read_offsets_counters sample wide_connection
              [transferred [1; 2; 3]; failed])
    as (Hlen & _ & Hbyte & Hrem & Hiff & _ & Hrun).
  { cbn. lia. }
  split; [exact Hlen|]. split; [exact Hbyte|]. split; [exact Hrem|].
  split; [|exact Hrun].
  intros Heq. apply Hiff in Heq. cbn in Heq. lia.
Defined.

End ConnectionProps.

Module CpgIndexSetProps.
Import CpgIndex CpgIndexSet.

Example sample_directory_read :
  dom (assembly_to_cpg_index (@new_cpg_index_set (sample_directory true) "indexes"))
  = {[ "hg38"%string; "mm39"%string ]}.
Proof. vm_compute. reflexivity. Qed.

Example broken_directory_read :
  assembly_to_cpg_index (@new_cpg_index_set (sample_directory false) "indexes") = ∅
  /\ assembly_to_cpg_index_meta (@new_cpg_index_set (sample_directory false) "indexes") = ∅.
Proof. split; reflexivity. Qed.

Lemma dom_emplace {V : Type} (k : string) (v : V) (m : gmap string V) :
  dom (emplace k v m) = {[k]} ∪ dom m.
Proof.
  unfold emplace. destruct (m !! k) as [v'|] eqn:Hk.
  - apply (elem_of_dom_2 m) in Hk. symmetry.
    apply subseteq_union_1_L, singleton_subseteq_l. exact Hk.
  - apply dom_insert_L.
Qed.

Section constructor.
Context `{Filesystem}.

Lemma discovered_cons dir name entries :
  discovered dir (name :: entries)
  = (if cpg_index_filename_re_search name then
       match assembly_re_search name with
       | Some assembly => [(assembly, entry_path dir name)]
       | None => []
       end
     else []) ++ discovered dir entries.
Proof.
  unfold discovered. simpl.
  destruct (cpg_index_filename_re_search name); [|reflexivity].
  destruct (assembly_re_search name); reflexivity.
Qed.

(** The loop keeps the key sets of the two maps equal; a file that
    cannot be read empties both, and without one every assembly found is
    in both and nothing that was there is lost. *)
Lemma construct_agree dir entries :
  forall (index : gmap string cpg_index) (meta : gmap string cpg_index_meta),
    dom index = dom meta ->
    let maps := construct dir entries index meta in
    dom maps.1 = dom maps.2
    /\ (forallb readable (discovered dir entries) = false ->
        maps.1 = ∅ /\ maps.2 = ∅)
    /\ (forallb readable (discovered dir entries) = true ->
        dom index ⊆ dom maps.1
        /\ forall assembly path,
             (assembly, path) ∈ discovered dir entries ->
             assembly ∈ dom maps.1).
Proof.
  induction entries as [|name entries IH]; intros index meta Hdom.
  - simpl. split; [exact Hdom|]. split; [discriminate|].
    intros _. split; [reflexivity|]. intros a p Hin. inversion Hin.
  - rewrite discovered_cons. simpl construct.
    destruct (cpg_index_filename_re_search name); [|exact (IH index meta Hdom)].
    destruct (assembly_re_search name) as [assembly|]; [|exact (IH index meta Hdom)].
    cbn [app forallb]. unfold readable at 1 3. cbn [snd].
    destruct (cpg_index_read (entry_path dir name)) as [idx|].
    2:{ cbn. split; [reflexivity|]. split; [auto|discriminate]. }
    destruct (cpg_index_meta_read _) as [cim|].
    2:{ cbn. split; [reflexivity|]. split; [auto|discriminate]. }
    cbn [andb].
    destruct (IH (emplace assembly idx index) (emplace assembly cim meta))
      as (Heq & Hfail & Hall).
    { rewrite !dom_emplace, Hdom. reflexivity. }
    split; [exact Heq|]. split; [exact Hfail|].
    intros Hread. destruct (Hall Hread) as [Hsub Hfound].
    rewrite dom_emplace in Hsub.
    split; [etransitivity; [apply union_subseteq_r|exact Hsub]|].
    intros a p Hin. apply elem_of_cons in Hin as [[= -> ->]|Hin].
    + apply Hsub, elem_of_union_l, elem_of_singleton. reflexivity.
    + eapply Hfound; exact Hin.
Qed.

End constructor.

(** C10. After construction the two maps have the same keys; when one
    of the files of a discovered assembly cannot be read both maps are
    empty; when all can, every discovered assembly has an index and its
    metadata. *)
Theorem cpg_index_set_maps_agree `{Filesystem} (dir : string) :
  let s := new_cpg_index_set dir in
  let found := discovered dir (directory_iterator dir) in
  dom (assembly_to_cpg_index s) = dom (assembly_to_cpg_index_meta s)
  /\ (forallb readable found = false ->
      assembly_to_cpg_index s = ∅ /\ assembly_to_cpg_index_meta s = ∅)
  /\ (forallb readable found = true ->
      forall assembly path,
        (assembly, path) ∈ found ->
        is_Some (assembly_to_cpg_index s !! assembly)
        /\ is_Some (assembly_to_cpg_index_meta s !! assembly)).
Proof.
  intros s found.
  destruct (construct_agree dir (directory_iterator dir) ∅ ∅)
    as (Heq & Hfail & Hall).
  { rewrite !dom_empty_L. reflexivity. }
  split; [exact Heq|]. split; [exact Hfail|].
  intros Hread a p Hin. destruct (Hall Hread) as [_ Hfound].
  pose proof (Hfound a p Hin) as Ha.
  split; apply elem_of_dom; [exact Ha|].
  subst s. cbn [assembly_to_cpg_index_meta new_cpg_index_set].
  rewrite <- Heq. exact Ha.
Qed.

Lemma cpg_index_set_maps_agree_witness :
  is_Some (assembly_to_cpg_index
             (@new_cpg_index_set (sample_directory true) "indexes")
           !! "mm39"%string)
  /\ is_Some (assembly_to_cpg_index_meta
                (@new_cpg_index_set (sample_directory true) "indexes")
              !! "mm39"%string).
Proof.
  apply (proj2 (proj2 (@cpg_index_set_maps_agree (sample_directory true)
                         "indexes")))
    with (path := "indexes/mm39.cpg_idx"%string).
  - reflexivity.
  - vm_compute. apply list_elem_of_further, list_elem_of_here.
Defined.

Section set_props.
Context `{Filesystem}.

Lemma lookup_emplace {V : Type} (k k' : string) (v : V) (m : gmap string V) :
  emplace k v m !! k'
  = match m !! k' with
    | Some w => Some w
    | None => if String.eqb k k' then Some v else None
    end.
Proof.
  unfold emplace. destruct (String.eqb_spec k k') as [->|Hne].
  - destruct (m !! k') as [w|] eqn:Hk; [exact Hk|]. apply lookup_insert_eq.
  - destruct (m !! k) as [w|] eqn:Hk.
    + destruct (m !! k'); reflexivity.
    + rewrite lookup_insert_ne by exact Hne. destruct (m !! k'); reflexivity.
Qed.

(** With every file readable, the loop adds to each map, for an
    assembly that was not there, what the first entry found for it
    gives. *)
Lemma construct_lookup dir entries :
  forall (index : gmap string cpg_index) (meta : gmap string cpg_index_meta),
    forallb readable (discovered dir entries) = true ->
    forall assembly,
      (construct dir entries index meta).1 !! assembly
      = match index !! assembly with
        | Some idx => Some idx
        | None => first_found assembly (discovered dir entries)
                  ≫= cpg_index_read
        end
      /\ (construct dir entries index meta).2 !! assembly
         = match meta !! assembly with
           | Some cim => Some cim
           | None => first_found assembly (discovered dir entries)
                     ≫= (fun path => cpg_index_meta_read
                                       (get_default_cpg_index_meta_filename path))
           end.
Proof.
  induction entries as [|name entries IH]; intros index meta Hread a.
  - simpl. split; [destruct (index !! a)|destruct (meta !! a)]; reflexivity.
  - rewrite discovered_cons in *. simpl construct.
    destruct (cpg_index_filename_re_search name); [|exact (IH index meta Hread a)].
    destruct (assembly_re_search name) as [assembly|];
      [|exact (IH index meta Hread a)].
    cbn [app forallb] in Hread. apply andb_prop in Hread as [Hhd Hread].
    unfold readable in Hhd. cbn [snd] in Hhd.
    destruct (cpg_index_read (entry_path dir name)) as [idx|] eqn:Hidx;
      [|discriminate].
    destruct (cpg_index_meta_read _) as [cim|] eqn:Hcim; [|discriminate].
    destruct (IH (emplace assembly idx index) (emplace assembly cim meta) Hread a)
      as [Hi Hm].
    rewrite Hi, Hm, !lookup_emplace. cbn [app first_found].
    destruct (String.eqb assembly a); simpl.
    + rewrite Hidx, Hcim.
      split; [destruct (index !! a)|destruct (meta !! a)]; reflexivity.
    + split; [destruct (index !! a)|destruct (meta !! a)]; reflexivity.
Qed.

Lemma first_found_elem assembly entries path :
  first_found assembly entries = Some path -> (assembly, path) ∈ entries.
Proof.
  induction entries as [|[a p] entries IH]; [discriminate|]. simpl.
  destruct (String.eqb_spec a assembly) as [->|Hne].
  - intros [= ->]. apply list_elem_of_here.
  - intros Hf. apply list_elem_of_further, IH, Hf.
Qed.

Lemma discovered_elem dir entries assembly path :
  (assembly, path) ∈ discovered dir entries ->
  exists name,
    name ∈ entries
    /\ cpg_index_filename_re_search name = true
    /\ assembly_re_search name = Some assembly
    /\ path = entry_path dir name.
Proof.
  induction entries as [|name entries IH]; [intros Hin; inversion Hin|].
  rewrite discovered_cons.
  destruct (cpg_index_filename_re_search name) eqn:Hre.
  2:{ intros Hin. destruct (IH Hin) as (n & Hn & Hrest).
      exists n. split; [apply list_elem_of_further, Hn|exact Hrest]. }
  destruct (assembly_re_search name) as [a|] eqn:Ha.
  2:{ intros Hin. destruct (IH Hin) as (n & Hn & Hrest).
      exists n. split; [apply list_elem_of_further, Hn|exact Hrest]. }
  simpl. intros Hin. apply elem_of_cons in Hin as [[= -> ->]|Hin].
  - exists name. split; [apply list_elem_of_here|auto].
  - destruct (IH Hin) as (n & Hn & Hrest).
    exists n. split; [apply list_elem_of_further, Hn|exact Hrest].
Qed.

End set_props.

Lemma assembly_prefix_chars name : all_assembly_chars (assembly_prefix name) = true.
Proof.
  induction name as [|a name IH]; [reflexivity|]. simpl.
  destruct (is_assembly_char a) eqn:Ha; [|reflexivity].
  simpl. rewrite Ha, IH. reflexivity.
Qed.

Lemma append_cons a s t : (String a s +:+ t = String a (s +:+ t))%string.
Proof. reflexivity. Qed.

Lemma append_nil t : ("" +:+ t = t)%string.
Proof. reflexivity. Qed.

Lemma assembly_prefix_split name :
  name = (assembly_prefix name +:+ after_assembly name)%string.
Proof.
  induction name as [|a name IH]; [reflexivity|]. simpl.
  destruct (is_assembly_char a); [|reflexivity].
  rewrite append_cons. f_equal. exact IH.
Qed.

Lemma after_assembly_head name a rest :
  after_assembly name = String a rest -> is_assembly_char a = false.
Proof.
  induction name as [|b name IH]; [discriminate|]. simpl.
  destruct (is_assembly_char b) eqn:Hb; [exact IH|].
  intros [= <- _]. exact Hb.
Qed.

Lemma assembly_prefix_app assembly rest :
  all_assembly_chars assembly = true ->
  match rest with
  | EmptyString => True
  | String a _ => is_assembly_char a = false
  end ->
  assembly_prefix (assembly +:+ rest) = assembly.
Proof.
  intros Hall Hrest. induction assembly as [|a assembly IH].
  - rewrite append_nil. destruct rest as [|b rest]; [reflexivity|]. simpl.
    rewrite Hrest. reflexivity.
  - simpl in Hall. apply andb_prop in Hall as [Ha Hall].
    rewrite append_cons. simpl. rewrite Ha, (IH Hall). reflexivity.
Qed.

Lemma assembly_re_search_Some name assembly :
  assembly_re_search name = Some assembly ->
  assembly = assembly_prefix name /\ assembly <> EmptyString.
Proof.
  unfold assembly_re_search. destruct (assembly_prefix name); [discriminate|].
  intros [= <-]. split; [reflexivity|discriminate].
Qed.

Section keys.
Context `{Filesystem}.

(** X14. On a constructed set the two lookups fail for the same
    assemblies, and where [get_cpg_index_with_meta] succeeds it returns
    the index stored for the assembly together with the metadata that
    [get_cpg_index_meta] returns: its second [invalid_argument] branch
    is never taken. *)
Theorem lookups_agree dir assembly :
  match get_cpg_index_with_meta (new_cpg_index_set dir) assembly with
  | found (idx, cim) =>
      assembly_to_cpg_index (new_cpg_index_set dir) !! assembly = Some idx
      /\ get_cpg_index_meta (new_cpg_index_set dir) assembly = found cim
  | invalid_argument =>
      assembly_to_cpg_index (new_cpg_index_set dir) !! assembly = None
      /\ get_cpg_index_meta (new_cpg_index_set dir) assembly = invalid_argument
  end.
Proof.
  pose proof (construct_agree dir (directory_iterator dir) ∅ ∅) as Hagree.
  unfold get_cpg_index_with_meta, get_cpg_index_meta, new_cpg_index_set.
  cbn [assembly_to_cpg_index assembly_to_cpg_index_meta].
  destruct (Hagree eq_refl) as [Hdom _].
  set (maps := construct dir (directory_iterator dir) ∅ ∅) in *.
  destruct (maps.1 !! assembly) as [idx|] eqn:Hidx.
  - assert (Hin : assembly ∈ dom maps.2).
    { rewrite <- Hdom. apply elem_of_dom. eexists; exact Hidx. }
    apply elem_of_dom in Hin as [cim Hcim]. rewrite Hcim. split; reflexivity.
  - assert (Hout : maps.2 !! assembly = None).
    { apply not_elem_of_dom. rewrite <- Hdom. apply not_elem_of_dom, Hidx. }
    rewrite Hout. split; reflexivity.
Qed.

(** X15. Every key of a constructed set comes from a directory entry
    whose name matches the file-name pattern: the key is the non-empty
    longest prefix of that name made of letters, digits and
    underscores. *)
Theorem keys_are_assemblies dir assembly :
  assembly ∈ dom (assembly_to_cpg_index (new_cpg_index_set dir)) ->
  exists name,
    name ∈ directory_iterator dir
    /\ cpg_index_filename_re_search name = true
    /\ name = (assembly +:+ after_assembly name)%string
    /\ assembly <> EmptyString
    /\ all_assembly_chars assembly = true
    /\ match after_assembly name with
       | EmptyString => True
       | String a _ => is_assembly_char a = false
       end.
Proof.
  unfold new_cpg_index_set. cbn [assembly_to_cpg_index].
  pose proof (construct_agree dir (directory_iterator dir) ∅ ∅ eq_refl)
    as (_ & Hfail & _).
  destruct (forallb readable (discovered dir (directory_iterator dir))) eqn:Hread.
  2:{ destruct (Hfail eq_refl) as [-> _]. rewrite dom_empty_L.
      intros Hin. exfalso. exact (not_elem_of_empty _ Hin). }
  intros Hin. apply elem_of_dom in Hin as [idx Hidx].
  destruct (construct_lookup dir (directory_iterator dir) ∅ ∅ Hread assembly)
    as [Hi _].
  rewrite Hidx, lookup_empty in Hi.
  destruct (first_found assembly _) as [path|] eqn:Hff; [|discriminate].
  apply first_found_elem, discovered_elem in Hff
    as (name & Hname & Hre & Hassembly & _).
  apply assembly_re_search_Some in Hassembly as [-> Hne].
  exists name. split; [exact Hname|]. split; [exact Hre|].
  split; [apply assembly_prefix_split|]. split; [exact Hne|].
  split; [apply assembly_prefix_chars|].
  destruct (after_assembly name) as [|a rest] eqn:Hafter; [exact I|].
  exact (after_assembly_head _ _ _ Hafter).
Qed.

(** X16. When every discovered file can be read, the index and the
    metadata stored for an assembly are those read from the first
    directory entry found for it; later entries with the same assembly
    change nothing. *)
Theorem first_file_wins dir assembly :
  forallb readable (discovered dir (directory_iterator dir)) = true ->
  assembly_to_cpg_index (new_cpg_index_set dir) !! assembly
  = first_found assembly (discovered dir (directory_iterator dir))
    ≫= cpg_index_read
  /\ assembly_to_cpg_index_meta (new_cpg_index_set dir) !! assembly
     = first_found assembly (discovered dir (directory_iterator dir))
       ≫= (fun path => cpg_index_meta_read
                         (get_default_cpg_index_meta_filename path)).
Proof.
  intros Hread. unfold new_cpg_index_set.
  cbn [assembly_to_cpg_index assembly_to_cpg_index_meta].
  destruct (construct_lookup dir (directory_iterator dir) ∅ ∅ Hread assembly)
    as [Hi Hm].
  rewrite Hi, Hm, !lookup_empty. split; reflexivity.
Qed.

(** X17. The assembly taken from a file name that is a non-empty word
    of letters, digits and underscores followed by nothing or by another
    character is that word. *)
Theorem assembly_of_file_name assembly rest :
  assembly <> EmptyString ->
  all_assembly_chars assembly = true ->
  match rest with
  | EmptyString => True
  | String a _ => is_assembly_char a = false
  end ->
  assembly_re_search (assembly +:+ rest) = Some assembly.
Proof.
  intros Hne Hall Hrest. unfold assembly_re_search.
  rewrite (assembly_prefix_app _ _ Hall Hrest).
  destruct assembly; [contradiction|reflexivity].
Qed.
End keys.

Lemma keys_are_assemblies_witness :
  "hg38"%string
    ∈ dom (assembly_to_cpg_index
             (@new_cpg_index_set (sample_directory true) "indexes"))
  /\ exists name,
       name ∈ @directory_iterator (sample_directory true) "indexes"
       /\ @cpg_index_filename_re_search (sample_directory true) name = true
       /\ name = ("hg38" +:+ after_assembly name)%string
       /\ "hg38"%string <> EmptyString
       /\ all_assembly_chars "hg38" = true
       /\ match after_assembly name with
          | EmptyString => True
          | String a _ => is_assembly_char a = false
          end.
Proof.
  assert (Hin : "hg38"%string
                  ∈ dom (assembly_to_cpg_index
                           (@new_cpg_index_set (sample_directory true) "indexes"))).
  { apply elem_of_dom. exists s1_index. vm_compute. reflexivity. }
  split; [exact Hin|].
  exact (@keys_are_assemblies (sample_directory true) "indexes" "hg38" Hin).
Defined.

Lemma first_file_wins_witness :
  forallb (@readable (sample_directory true))
    (@discovered (sample_directory true) "indexes"
       (@directory_iterator (sample_directory true) "indexes")) = true
  /\ assembly_to_cpg_index
       (@new_cpg_index_set (sample_directory true) "indexes") !! "mm39"%string
     = first_found "mm39"
         (@discovered (sample_directory true) "indexes"
            (@directory_iterator (sample_directory true) "indexes"))
       ≫= @cpg_index_read (sample_directory true).
Proof.
  split; [reflexivity|].
  exact (proj1 (@first_file_wins (sample_directory true) "indexes" "mm39"
                  eq_refl)).
Defined.

Lemma assembly_of_file_name_witness :
  assembly_re_search ("hg38" +:+ ".cpg_idx") = Some "hg38"%string.
Proof.
  apply (assembly_of_file_name "hg38" ".cpg_idx").
  - discriminate.
  - reflexivity.
  - reflexivity.
Defined.

End CpgIndexSetProps.

Module GenomicIntervalOutputProps.
Import Bins GenomicIntervalOutput.

Example s4_written :
  write_bins 3 true good_stream s1_meta 4 [(10, 0, 1); (5, 25, 2); (7, 3, 1)]
  = Done (0, {| device := device good_stream;
                blocks := [[99; 104; 114; 49; 9; 48; 9; 52; 9; 49; 48; 9; 48; 9; 49; 10];
                           [99; 104; 114; 49; 9; 52; 9; 56; 9; 53; 9; 50; 53; 9; 50; 10];
                           [99; 104; 114; 50; 9; 48; 9; 50; 9; 55; 9; 51; 9; 49; 10]] |},
          []).
Proof. reflexivity. Qed.

(** *** Writing into the buffer *)

Lemma to_chars_store b p v c b1 q :
  to_chars b p v = (b1, q) ->
  store b1 q c = emit b p (Request.format_u32 v ++ [c]).
Proof.
  unfold to_chars, store, emit. rewrite length_app. cbn [length].
  set (ds := Request.format_u32 v).
  destruct (Nat.leb_spec (p + length ds) (length b)) as [Hfit|Hover];
    intros [= <- <-].
  - rewrite !length_app, length_take, length_drop.
    replace (p `min` length b + (length ds + (length b - (p + length ds))))%nat
      with (length b) by lia.
    destruct (Nat.ltb_spec (p + length ds) (length b)) as [Hlt|Hge];
      destruct (Nat.leb_spec (p + (length ds + 1)) (length b)) as [Hle|Hgt];
      try lia; [|reflexivity].
    f_equal. f_equal; [|lia].
    rewrite app_assoc, insert_app_r_alt
      by (rewrite length_app, length_take; lia).
    rewrite length_app, length_take.
    replace (p + length ds - (p `min` length b + length ds))%nat with O by lia.
    destruct (drop (p + length ds) b) as [|x rest] eqn:Hdrop.
    { apply (f_equal length) in Hdrop. rewrite length_drop in Hdrop.
      simpl in Hdrop. lia. }
    cbn [insert list_insert]. rewrite <- !app_assoc. do 2 f_equal.
    cbn [app]. f_equal.
    replace (p + (length ds + 1))%nat with (S (p + length ds)) by lia.
    change (S (p + length ds)) with (1 + (p + length ds))%nat.
    rewrite Nat.add_comm, <- drop_drop, Hdrop. reflexivity.
  - destruct (Nat.ltb_spec (length b) (length b)); [lia|].
    destruct (Nat.leb_spec (p + (length ds + 1)) (length b)); [lia|].
    reflexivity.
Qed.

Lemma emit_step b p s1 s2 b1 q :
  emit b p s1 = Done (b1, q) -> emit b1 q s2 = emit b p (s1 ++ s2).
Proof.
  unfold emit. rewrite length_app.
  destruct (Nat.leb_spec (p + length s1) (length b)) as [Hfit|]; [|discriminate].
  intros [= <- <-].
  rewrite !length_app, length_take, length_drop.
  replace (p `min` length b + (length s1 + (length b - (p + length s1))))%nat
    with (length b) by lia.
  replace (p + length s1 + length s2)%nat with (p + (length s1 + length s2))%nat
    by lia.
  destruct (Nat.leb_spec (p + (length s1 + length s2)) (length b)); [|reflexivity].
  f_equal. f_equal; try lia.
  assert (Hpre : length (take p b ++ s1) = (p + length s1)%nat)
    by (rewrite length_app, length_take; lia).
  rewrite (app_assoc (take p b) s1).
  rewrite (take_app_length' _ _ _ (eq_sym Hpre)) || rewrite (take_app_length' _ _ _ Hpre).
  replace (p + (length s1 + length s2))%nat
    with (length (take p b ++ s1) + length s2)%nat at 1 by lia.
  rewrite drop_app_add, drop_drop, <- !app_assoc.
  do 4 f_equal. lia.
Qed.

Lemma emit_out_of_bounds b p s1 s2 :
  emit b p s1 = OutOfBounds -> emit b p (s1 ++ s2) = OutOfBounds.
Proof.
  unfold emit. rewrite length_app.
  destruct (Nat.leb_spec (p + length s1) (length b)); [discriminate|].
  intros _. destruct (Nat.leb_spec (p + (length s1 + length s2)) (length b));
    [lia|reflexivity].
Qed.

Lemma emit_not_out_of_fuel b p s : emit b p s <> OutOfFuel.
Proof. unfold emit. destruct (_ <=? _)%nat; discriminate. Qed.

Lemma emit_done b p s b1 q :
  emit b p s = Done (b1, q) ->
  length b1 = length b /\ take q b1 = take p b ++ s.
Proof.
  unfold emit. destruct (Nat.leb_spec (p + length s) (length b)); [|discriminate].
  intros [= <- <-]. split.
  - rewrite !length_app, length_take, length_drop. lia.
  - rewrite app_assoc. apply take_app_length'.
    rewrite length_app, length_take. lia.
Qed.

Lemma emit_fits b p s :
  (p + length s <= length b)%nat -> exists b1, emit b p s = Done (b1, (p + length s)%nat).
Proof.
  intros Hfit. unfold emit. destruct (Nat.leb_spec (p + length s) (length b)); [|lia].
  eexists. reflexivity.
Qed.

Lemma emit_too_long b p s :
  (length b < p + length s)%nat -> emit b p s = OutOfBounds.
Proof.
  intros Hfit. unfold emit. destruct (Nat.leb_spec (p + length s) (length b)); [lia|].
  reflexivity.
Qed.

Lemma write_range_emit b first beg end_ :
  write_range b first beg end_
  = emit b first (Request.format_u32 beg ++ [delim]
                    ++ Request.format_u32 end_ ++ [delim]).
Proof.
  unfold write_range.
  destruct (to_chars b first beg) as [b1 q1] eqn:H1.
  rewrite (to_chars_store _ _ _ delim _ _ H1).
  destruct (emit b first (Request.format_u32 beg ++ [delim]))
    as [[b2 q2]| |] eqn:H2; cbn [mbind outcome_bind obind].
  - destruct (to_chars b2 q2 end_) as [b3 q3] eqn:H3.
    rewrite (to_chars_store _ _ _ delim _ _ H3), (emit_step _ _ _ _ _ _ H2).
    rewrite <- !app_assoc. reflexivity.
  - destruct (emit_not_out_of_fuel _ _ _ H2).
  - rewrite app_assoc. symmetry. apply emit_out_of_bounds.
    rewrite <- H2. f_equal.
Qed.

Lemma write_counts_emit cov b ptr r :
  write_counts cov b ptr r
  = emit b ptr (Request.format_u32 r.1.1 ++ [delim] ++ Request.format_u32 r.1.2
                  ++ (if cov then delim :: Request.format_u32 r.2 else [])
                  ++ [newline]).
Proof.
  unfold write_counts.
  destruct (to_chars b ptr r.1.1) as [b1 q1] eqn:H1.
  rewrite (to_chars_store _ _ _ delim _ _ H1).
  destruct (emit b ptr (Request.format_u32 r.1.1 ++ [delim]))
    as [[b2 q2]| |] eqn:H2; cbn [mbind outcome_bind obind].
  - destruct (to_chars b2 q2 r.1.2) as [b3 q3] eqn:H3.
    destruct cov.
    + pose proof (to_chars_store _ _ _ delim _ _ H3) as H4.
      rewrite (emit_step _ _ _ _ _ _ H2) in H4. rewrite H4.
      destruct (emit b ptr _) as [[b4 q4]| |] eqn:H5 in |- * at 1;
        cbn [mbind outcome_bind obind].
      * destruct (to_chars b4 q4 r.2) as [b5 q5] eqn:H6.
        rewrite (to_chars_store _ _ _ newline _ _ H6), (emit_step _ _ _ _ _ _ H5).
        rewrite <- !app_assoc. reflexivity.
      * destruct (emit_not_out_of_fuel _ _ _ H5).
      * symmetry.
        replace (Request.format_u32 r.1.1 ++ [delim] ++ Request.format_u32 r.1.2
                   ++ (delim :: Request.format_u32 r.2) ++ [newline])
          with (((Request.format_u32 r.1.1 ++ [delim])
                   ++ Request.format_u32 r.1.2 ++ [delim])
                  ++ Request.format_u32 r.2 ++ [newline])
          by (rewrite <- !app_assoc; reflexivity).
        apply emit_out_of_bounds. exact H5.
    + cbn [mbind outcome_bind obind].
      rewrite (to_chars_store _ _ _ newline _ _ H3), (emit_step _ _ _ _ _ _ H2).
      rewrite <- !app_assoc. reflexivity.
  - destruct (emit_not_out_of_fuel _ _ _ H2).
  - rewrite app_assoc. symmetry. apply emit_out_of_bounds.
    rewrite <- H2. f_equal.
Qed.

Lemma fields_length cov beg end_ r : (length (fields cov beg end_ r) <= 55)%nat.
Proof.
  unfold fields. rewrite !length_app. cbn [length].
  pose proof (RequestProps.format_u32_length beg).
  pose proof (RequestProps.format_u32_length end_).
  pose proof (RequestProps.format_u32_length r.1.1).
  pose proof (RequestProps.format_u32_length r.1.2).
  pose proof (RequestProps.format_u32_length r.2).
  destruct cov; cbn [length]; lia.
Qed.

(** After a range at [first] and the counts behind it the buffer holds
    the fields of the line from [first] on, when they fit. *)
Lemma write_fields_emit cov b first beg end_ r :
  (write_range b first beg end_ ≫= fun '(b1, ptr) => write_counts cov b1 ptr r)
  = emit b first (fields cov beg end_ r).
Proof.
  rewrite write_range_emit.
  destruct (emit b first _) as [[b1 q1]| |] eqn:H1; cbn [mbind outcome_bind obind].
  - rewrite write_counts_emit, (emit_step _ _ _ _ _ _ H1).
    unfold fields. rewrite <- !app_assoc. reflexivity.
  - destruct (emit_not_out_of_fuel _ _ _ H1).
  - symmetry. unfold fields.
    replace (Request.format_u32 beg ++ [delim] ++ Request.format_u32 end_ ++ [delim]
               ++ Request.format_u32 r.1.1 ++ [delim] ++ Request.format_u32 r.1.2
               ++ (if cov then delim :: Request.format_u32 r.2 else []) ++ [newline])
      with ((Request.format_u32 beg ++ [delim] ++ Request.format_u32 end_ ++ [delim])
              ++ Request.format_u32 r.1.1 ++ [delim] ++ Request.format_u32 r.1.2
              ++ (if cov then delim :: Request.format_u32 r.2 else []) ++ [newline])
      by (rewrite <- !app_assoc; reflexivity).
    apply emit_out_of_bounds. exact H1.
Qed.


Lemma write_range_not_out_of_fuel b first beg end_ :
  write_range b first beg end_ <> OutOfFuel.
Proof. rewrite write_range_emit. apply emit_not_out_of_fuel. Qed.

(** *** The simple writer *)

Lemma write_lines_app lines1 : forall lines2 out rs,
  write_lines (lines1 ++ lines2) out rs
  = match write_lines lines1 out rs with
    | Done (None, out', rs') => write_lines lines2 out' rs'
    | other => other
    end.
Proof.
  induction lines1 as [|l lines1 IH]; intros lines2 out rs; [reflexivity|].
  cbn [app write_lines]. destruct rs as [|r rs]; [reflexivity|].
  unfold write. destruct (device out (length (blocks out))); [reflexivity|].
  apply IH.
Qed.

Lemma with_blocks_nil out : with_blocks out [] = out.
Proof. destruct out. unfold with_blocks. cbn. rewrite app_nil_r. reflexivity. Qed.

Lemma with_blocks_cons out x new :
  with_blocks (with_blocks out [x]) new = with_blocks out (x :: new).
Proof. unfold with_blocks. cbn. rewrite <- app_assoc. reflexivity. Qed.

Lemma write_lines_good lines : forall out rs,
  (length lines <= length rs)%nat ->
  (forall j, (j < length lines)%nat ->
             device out (length (blocks out) + j) = None) ->
  write_lines lines out rs
  = Done (None, with_blocks out (filled lines rs), drop (length lines) rs).
Proof.
  induction lines as [|l lines IH]; intros out rs Hlen Hgood.
  - cbn. rewrite with_blocks_nil. reflexivity.
  - destruct rs as [|r rs]; [cbn in Hlen; lia|]. cbn [write_lines write].
    pose proof (Hgood O ltac:(cbn; lia)) as H0. rewrite Nat.add_0_r in H0.
    rewrite H0. fold (with_blocks out [l r]).
    rewrite IH.
    + cbn [filled zip_with length drop]. rewrite with_blocks_cons. reflexivity.
    + cbn in Hlen. lia.
    + intros j Hj. cbn [with_blocks device blocks]. rewrite length_app. cbn [length].
      replace (length (blocks out) + 1 + j)%nat
        with (length (blocks out) + S j)%nat by lia.
      apply Hgood. cbn. lia.
Qed.

Lemma write_lines_too_few lines : forall out rs,
  (length rs < length lines)%nat ->
  (forall j, (j < length rs)%nat ->
             device out (length (blocks out) + j) = None) ->
  write_lines lines out rs = OutOfBounds.
Proof.
  induction lines as [|l lines IH]; intros out rs Hlen Hgood; [cbn in Hlen; lia|].
  destruct rs as [|r rs]; [reflexivity|]. cbn [write_lines write].
  pose proof (Hgood O ltac:(cbn; lia)) as H0. rewrite Nat.add_0_r in H0.
  rewrite H0. apply IH.
  - cbn in Hlen. lia.
  - intros j Hj. cbn [device blocks]. rewrite length_app. cbn [length].
    replace (length (blocks out) + 1 + j)%nat
      with (length (blocks out) + S j)%nat by lia.
    apply Hgood. cbn. lia.
Qed.

Lemma write_lines_failure lines : forall out rs k e,
  (k < length lines)%nat ->
  (k < length rs)%nat ->
  (forall j, (j < k)%nat -> device out (length (blocks out) + j) = None) ->
  device out (length (blocks out) + k) = Some e ->
  write_lines lines out rs
  = Done (Some e, with_blocks out (take (S k) (filled lines rs)), drop k rs).
Proof.
  induction lines as [|l lines IH]; intros out rs k e Hk Hrs Hgood Hfail;
    [cbn in Hk; lia|].
  destruct rs as [|r rs]; [cbn in Hrs; lia|]. cbn [write_lines write].
  destruct k as [|k].
  - rewrite Nat.add_0_r in Hfail. rewrite Hfail. reflexivity.
  - pose proof (Hgood O ltac:(lia)) as H0. rewrite Nat.add_0_r in H0.
    rewrite H0. fold (with_blocks out [l r]).
    rewrite (IH _ _ k e).
    + cbn [filled zip_with take drop]. rewrite with_blocks_cons. reflexivity.
    + cbn in Hk. lia.
    + cbn in Hrs. lia.
    + intros j Hj. cbn [with_blocks device blocks]. rewrite length_app. cbn [length].
      replace (length (blocks out) + 1 + j)%nat
        with (length (blocks out) + S j)%nat by lia.
      apply Hgood. lia.
    + cbn [with_blocks device blocks]. rewrite length_app. cbn [length].
      replace (length (blocks out) + 1 + k)%nat
        with (length (blocks out) + S k)%nat by lia.
      exact Hfail.
Qed.

(** *** One chromosome *)

Section one_chromosome.

Variables (cov : bool) (bin_size chrom_size : Z) (name : list Z).
Hypothesis Hbin : 0 < bin_size.
Hypothesis Hfits : ceil_div chrom_size bin_size * bin_size < U32.modulus.
Hypothesis Hname : (length name + 56 <= buf_size)%nat.

Let n_bins : nat := Z.to_nat (ceil_div chrom_size bin_size).

Lemma write_bins_loop_lines (fuel : nat) : forall (k : nat) b out rs,
  (k <= n_bins)%nat ->
  (n_bins - k < fuel)%nat ->
  length b = buf_size ->
  take (S (length name)) b = name ++ [delim] ->
  match write_lines (map (bin_line cov bin_size (chrom_size, name))
                         (seq k (n_bins - k))) out rs with
  | Done (returned, out', rs') =>
      exists b',
        length b' = buf_size
        /\ write_bins_loop fuel cov bin_size chrom_size (length name)
             (Z.of_nat k * bin_size) b out rs
           = Done (returned, b', out', rs')
  | OutOfFuel => False
  | OutOfBounds =>
      write_bins_loop fuel cov bin_size chrom_size (length name)
        (Z.of_nat k * bin_size) b out rs
      = OutOfBounds
  end.
Proof.
  induction fuel as [|fuel IH]; intros k b out rs Hk Hfuel Hlen Hpre; [lia|].
  pose proof (BinsProps.bin_start_in_chrom chrom_size bin_size (Z.of_nat k) Hbin)
    as Hin.
  cbn [write_bins_loop].
  destruct (Z.ltb_spec (Z.of_nat k * bin_size) chrom_size) as [Hlt|Hge].
  2:{ assert (k = n_bins) as -> by (subst n_bins; lia).
      rewrite Nat.sub_diag. cbn. exists b. split; [exact Hlen|reflexivity]. }
  assert (k < n_bins)%nat as Hk' by (subst n_bins; lia).
  assert (Z.of_nat k * bin_size + bin_size <= ceil_div chrom_size bin_size * bin_size)
    as Hnext by (subst n_bins; nia).
  rewrite (BinsProps.wrap32_small (Z.of_nat k * bin_size + bin_size)) by nia.
  replace (n_bins - k)%nat with (S (n_bins - S k)) by lia.
  cbn [seq map write_lines].
  set (bin_end := Z.min (Z.of_nat k * bin_size + bin_size) chrom_size).
  destruct rs as [|r rs].
  { destruct (write_range b (S (length name)) (Z.of_nat k * bin_size) bin_end)
      as [[b1 p1]| |] eqn:Hrange; cbn; try reflexivity.
    destruct (write_range_not_out_of_fuel _ _ _ _ Hrange). }
  pose proof (write_fields_emit cov b (S (length name))
                (Z.of_nat k * bin_size) bin_end r) as Hemit.
  pose proof (fields_length cov (Z.of_nat k * bin_size) bin_end r) as Hfields.
  destruct (emit_fits b (S (length name))
              (fields cov (Z.of_nat k * bin_size) bin_end r)) as [b2 Hb2].
  { rewrite Hlen. unfold buf_size in *. lia. }
  rewrite Hb2 in Hemit.
  destruct (write_range b (S (length name)) (Z.of_nat k * bin_size) bin_end)
    as [[b1 p1]| |]; cbn [mbind outcome_bind obind] in Hemit; try discriminate.
  cbn [mbind outcome_bind obind deref]. rewrite Hemit.
  cbn [mbind outcome_bind obind].
  destruct (emit_done _ _ _ _ _ Hb2) as [Hlen2 Htake].
  rewrite Htake, Hpre.
  assert (Hline : name ++ [delim] ++ fields cov (Z.of_nat k * bin_size) bin_end r
                  = bin_line cov bin_size (chrom_size, name) k r).
  { unfold bin_line, bin_bounds, line. cbn [fst snd]. subst bin_end.
    replace ((Z.of_nat k + 1) * bin_size) with (Z.of_nat k * bin_size + bin_size)
      by lia.
    reflexivity. }
  rewrite <- app_assoc, Hline.
  unfold write. destruct (device out (length (blocks out))) as [e|].
  { exists b2. split; [congruence|reflexivity]. }
  cbn [tail].
  replace (Z.of_nat k * bin_size + bin_size) with (Z.of_nat (S k) * bin_size) by lia.
  apply IH; [lia|lia|congruence|].
  apply (f_equal (take (S (length name)))) in Htake.
  rewrite take_take in Htake.
  replace (S (length name) `min` (S (length name)
             + length (fields cov (Z.of_nat k * bin_size) bin_end r)))%nat
    with (S (length name)) in Htake by lia.
  rewrite Htake, Hpre.
  apply take_app_length'. rewrite length_app. cbn. lia.
Qed.

End one_chromosome.

(** *** All chromosomes *)

Lemma copy_name name b :
  (S (length name) <= length b)%nat ->
  exists b2,
    (Request.copy name b ≫= fun b1 => store b1 (length name) delim)
    = Done (b2, S (length name))
    /\ length b2 = length b
    /\ take (S (length name)) b2 = name ++ [delim].
Proof.
  intros Hfit. unfold Request.copy.
  destruct (Nat.leb_spec (length name) (length b)); [|lia].
  cbn [mbind outcome_bind obind]. unfold store.
  rewrite length_app, length_drop.
  destruct (Nat.ltb_spec (length name) (length name + (length b - length name)));
    [|lia].
  eexists. split; [reflexivity|].
  rewrite length_insert, length_app, length_drop. split; [lia|].
  rewrite insert_app_r_alt by lia. rewrite Nat.sub_diag.
  destruct (drop (length name) b) as [|x rest] eqn:Hdrop.
  { apply (f_equal length) in Hdrop. rewrite length_drop in Hdrop. cbn in Hdrop. lia. }
  cbn [insert list_insert].
  change (name ++ delim :: rest) with (name ++ [delim] ++ rest).
  rewrite app_assoc. apply take_app_length'. rewrite length_app. cbn. lia.
Qed.

Lemma write_bins_chroms_lines fuel cov bin_size zipped :
  0 < bin_size ->
  Forall (chrom_fits fuel bin_size) zipped ->
  forall b out rs,
    length b = buf_size ->
    match write_lines (bin_lines cov bin_size zipped) out rs with
    | Done (returned, out', rs') =>
        write_bins_chroms fuel cov bin_size zipped b out rs
        = Done (default 0 returned, out', rs')
    | OutOfFuel => False
    | OutOfBounds =>
        write_bins_chroms fuel cov bin_size zipped b out rs = OutOfBounds
    end.
Proof.
  intros Hbin Hall. induction Hall as [|[size name] zipped Hchrom Hall IH];
    intros b out rs Hlen.
  - reflexivity.
  - destruct Hchrom as (Hsize & Hfits & Hfuel & Hname). cbn [fst snd] in *.
    unfold bin_lines. cbn [map concat]. fold (bin_lines cov bin_size zipped).
    rewrite write_lines_app. cbn [write_bins_chroms fst snd].
    destruct (copy_name name b) as (b2 & Hcopy & Hlen2 & Hpre).
    { rewrite Hlen. unfold buf_size in *. lia. }
    destruct (Request.copy name b) as [b1| |]; cbn [mbind outcome_bind obind] in Hcopy;
      try discriminate.
    cbn [mbind outcome_bind obind]. rewrite Hcopy. cbn [mbind outcome_bind obind].
    assert (Hlen2' : length b2 = buf_size) by congruence.
    assert (Hfuel' : (Z.to_nat (ceil_div size bin_size) - 0 < fuel)%nat).
    { pose proof (BinsProps.ceil_div_bounds size bin_size Hbin). nia. }
    pose proof (write_bins_loop_lines cov bin_size size name Hbin Hfits Hname
                  fuel 0 b2 out rs ltac:(lia) Hfuel' Hlen2' Hpre)
      as Hloop.
    rewrite Nat.sub_0_r in Hloop. cbn [fst] in *.
    change (Z.of_nat 0 * bin_size) with 0 in Hloop.
    destruct (write_lines (map _ _) out rs) as [[[returned out'] rs']| |];
      [|contradiction|].
    + destruct Hloop as (b' & Hlen' & ->). cbn [mbind outcome_bind obind].
      destruct returned as [e|]; [reflexivity|].
      apply IH. exact Hlen'.
    + rewrite Hloop. reflexivity.
Qed.

Lemma write_bins_lines fuel cov out cim bin_size results :
  0 < bin_size ->
  Forall (chrom_fits fuel bin_size) (zip (chrom_size cim) (chrom_order cim)) ->
  match write_lines (bin_lines cov bin_size (zip (chrom_size cim) (chrom_order cim)))
          out results with
  | Done (returned, out', rs') =>
      write_bins fuel cov out cim bin_size results
      = Done (default 0 returned, out', rs')
  | OutOfFuel => False
  | OutOfBounds => write_bins fuel cov out cim bin_size results = OutOfBounds
  end.
Proof.
  intros Hbin Hall. unfold write_bins.
  apply write_bins_chroms_lines; [exact Hbin|exact Hall|].
  apply length_replicate.
Qed.

(** X18. With a positive bin size, chromosomes whose walk does not wrap
    and whose names leave room for the numbers, a result for every bin
    and a stream that stays good, [write_bins] returns no error and has
    handed the stream one block per bin, in order: the line of the bin
    with its result.  [results_itr] is left after as many results as
    there are bins, at the end of the results when there is one for
    each bin. *)
Theorem write_bins_output fuel cov out cim bin_size results :
  0 < bin_size ->
  Forall (chrom_fits fuel bin_size) (zip (chrom_size cim) (chrom_order cim)) ->
  let lines :=
    bin_lines cov bin_size (zip (chrom_size cim) (chrom_order cim)) in
  (length lines <= length results)%nat ->
  (forall j, (j < length lines)%nat ->
             device out (length (blocks out) + j) = None) ->
  write_bins fuel cov out cim bin_size results
  = Done (0, with_blocks out (filled lines results),
          drop (length lines) results).
Proof.
  intros Hbin Hall lines Hlen Hgood.
  pose proof (write_bins_lines fuel cov out cim bin_size results Hbin Hall) as H.
  fold lines in H. rewrite (write_lines_good lines out results Hlen Hgood) in H.
  exact H.
Qed.

Lemma write_bins_output_witness :
  write_bins 3 true good_stream s1_meta 4 [(10, 0, 1); (5, 25, 2); (7, 3, 1)]
  = Done (0,
          with_blocks good_stream
            (filled (bin_lines true 4 [(8, Request.bytes "chr1");
                                       (2, Request.bytes "chr2")])
                    [(10, 0, 1); (5, 25, 2); (7, 3, 1)]),
          []).
Proof.
  apply (write_bins_output 3 true good_stream s1_meta 4
           [(10, 0, 1); (5, 25, 2); (7, 3, 1)]).
  - lia.
  - repeat constructor; vm_compute; congruence.
  - vm_compute. lia.
  - intros j _. reflexivity.
Defined.

(** X19. With fewer results than bins, [write_bins] reads past the end
    of the results. *)
Theorem write_bins_too_few_results fuel cov out cim bin_size results :
  0 < bin_size ->
  Forall (chrom_fits fuel bin_size) (zip (chrom_size cim) (chrom_order cim)) ->
  (length results
   < length (bin_lines cov bin_size (zip (chrom_size cim) (chrom_order cim))))%nat ->
  (forall j, (j < length results)%nat ->
             device out (length (blocks out) + j) = None) ->
  write_bins fuel cov out cim bin_size results = OutOfBounds.
Proof.
  intros Hbin Hall Hlen Hgood.
  pose proof (write_bins_lines fuel cov out cim bin_size results Hbin Hall) as H.
  rewrite (write_lines_too_few _ out results Hlen Hgood) in H. exact H.
Qed.

Lemma write_bins_too_few_results_witness :
  write_bins 3 true good_stream s1_meta 4 [(10, 0, 1); (5, 25, 2)] = OutOfBounds.
Proof.
  apply (write_bins_too_few_results 3 true good_stream s1_meta 4
           [(10, 0, 1); (5, 25, 2)]).
  - lia.
  - repeat constructor; vm_compute; congruence.
  - vm_compute. lia.
  - intros j _. reflexivity.
Defined.

(** X20. When the stream fails at a write, [write_bins] returns at once
    with the value of [errno] as error code: the blocks handed to the
    stream are the lines up to that of the failing write, and
    [results_itr] is left at its result. *)
Theorem write_bins_stream_failure fuel cov out cim bin_size results k e :
  0 < bin_size ->
  Forall (chrom_fits fuel bin_size) (zip (chrom_size cim) (chrom_order cim)) ->
  let lines :=
    bin_lines cov bin_size (zip (chrom_size cim) (chrom_order cim)) in
  (k < length lines)%nat ->
  (k < length results)%nat ->
  (forall j, (j < k)%nat -> device out (length (blocks out) + j) = None) ->
  device out (length (blocks out) + k) = Some e ->
  write_bins fuel cov out cim bin_size results
  = Done (e, with_blocks out (take (S k) (filled lines results)),
          drop k results).
Proof.
  intros Hbin Hall lines Hk Hrs Hgood Hfail.
  pose proof (write_bins_lines fuel cov out cim bin_size results Hbin Hall) as H.
  fold lines in H.
  rewrite (write_lines_failure lines out results k e Hk Hrs Hgood Hfail) in H.
  exact H.
Qed.

Lemma write_bins_stream_failure_witness :
  write_bins 3 true (failing_stream 1 28) s1_meta 4
    [(10, 0, 1); (5, 25, 2); (7, 3, 1)]
  = Done (28,
          with_blocks (failing_stream 1 28)
            (take 2 (filled (bin_lines true 4 [(8, Request.bytes "chr1");
                                               (2, Request.bytes "chr2")])
                            [(10, 0, 1); (5, 25, 2); (7, 3, 1)])),
          [(5, 25, 2); (7, 3, 1)]).
Proof.
  apply (write_bins_stream_failure 3 true (failing_stream 1 28) s1_meta 4
           [(10, 0, 1); (5, 25, 2); (7, 3, 1)] 1 28).
  - lia.
  - repeat constructor; vm_compute; congruence.
  - vm_compute. lia.
  - vm_compute. lia.
  - intros j Hj. assert (j = 0)%nat as -> by lia. reflexivity.
  - reflexivity.
Defined.

(** X21. When the chromosomes start with one that is not empty and the
    line of its first bin is longer than the 512 bytes of the buffer,
    [write_bins] writes past the end of the buffer. *)
Theorem write_bins_long_line fuel cov out cim bin_size results
    size sizes name names :
  chrom_size cim = size :: sizes ->
  chrom_order cim = name :: names ->
  0 < size ->
  (0 < fuel)%nat ->
  (forall r, head results = Some r ->
             (buf_size
              < length (line cov name 0 (Z.min (U32.wrap32 bin_size) size) r))%nat) ->
  write_bins fuel cov out cim bin_size results = OutOfBounds.
Proof.
  intros Hsizes Hnames Hsize Hfuel Hlong.
  unfold write_bins. rewrite Hsizes, Hnames. cbn [zip zip_with write_bins_chroms].
  unfold Request.copy. rewrite length_replicate.
  destruct (Nat.leb_spec (length name) buf_size) as [Hcopy|]; [|reflexivity].
  cbn [mbind outcome_bind obind]. unfold store at 1.
  rewrite length_app, length_drop, length_replicate.
  destruct (Nat.ltb_spec (length name) (length name + (buf_size - length name)))
    as [Hstore|]; [|reflexivity].
  cbn [mbind outcome_bind obind].
  destruct fuel as [|fuel]; [lia|]. cbn [write_bins_loop].
  destruct (Z.ltb_spec 0 size); [|lia]. rewrite Z.add_0_l.
  set (b := <[length name:=delim]> _).
  assert (Hb : length b = buf_size).
  { subst b. rewrite length_insert, length_app, length_drop, length_replicate. lia. }
  destruct results as [|r results].
  { destruct (write_range b (S (length name)) 0 _) as [[b1 p1]| |] eqn:Hrange;
      cbn; try reflexivity.
    destruct (write_range_not_out_of_fuel _ _ _ _ Hrange). }
  pose proof (write_fields_emit cov b (S (length name)) 0
                (Z.min (U32.wrap32 bin_size) size) r) as Hemit.
  rewrite emit_too_long in Hemit.
  2:{ specialize (Hlong r eq_refl). unfold line in Hlong.
      rewrite !length_app in Hlong. cbn [length] in Hlong. lia. }
  destruct (write_range b (S (length name)) 0 _) as [[b1 p1]| |];
    cbn [mbind outcome_bind obind] in Hemit; try discriminate.
  - cbn [mbind outcome_bind obind deref]. rewrite Hemit. reflexivity.
  - reflexivity.
Qed.

Lemma write_bins_long_line_witness :
  write_bins 1 true good_stream
    {| chrom_order := [replicate 501 65]; chrom_size := [8] |} 4 [(10, 0, 1)]
  = OutOfBounds.
Proof.
  apply (write_bins_long_line 1 true good_stream
           {| chrom_order := [replicate 501 65]; chrom_size := [8] |} 4
           [(10, 0, 1)] 8 [] (replicate 501 65) []).
  - reflexivity.
  - reflexivity.
  - lia.
  - lia.
  - intros r [= <-]. vm_compute. lia.
Defined.

(** *** Intervals *)

Lemma write_blocks_app ls1 : forall ls2 out,
  write_blocks (ls1 ++ ls2) out
  = match write_blocks ls1 out with
    | (None, out') => write_blocks ls2 out'
    | other => other
    end.
Proof.
  induction ls1 as [|l ls1 IH]; intros ls2 out; [reflexivity|].
  cbn [app write_blocks]. unfold write.
  destruct (device out (length (blocks out))); [reflexivity|]. apply IH.
Qed.

Lemma write_blocks_good ls : forall out,
  (forall j, (j < length ls)%nat ->
             device out (length (blocks out) + j) = None) ->
  write_blocks ls out = (None, with_blocks out ls).
Proof.
  induction ls as [|l ls IH]; intros out Hgood.
  - cbn. rewrite with_blocks_nil. reflexivity.
  - cbn [write_blocks write].
    pose proof (Hgood O ltac:(cbn; lia)) as H0. rewrite Nat.add_0_r in H0.
    rewrite H0. fold (with_blocks out [l]). rewrite IH.
    + rewrite with_blocks_cons. reflexivity.
    + intros j Hj. cbn [with_blocks device blocks]. rewrite length_app. cbn [length].
      replace (length (blocks out) + 1 + j)%nat
        with (length (blocks out) + S j)%nat by lia.
      apply Hgood. cbn. lia.
Qed.

Lemma chunk_by_same_chrom l :
  concat (chunk_by same_chrom l) = l
  /\ Forall (fun chunk =>
               match chunk with
               | [] => False
               | (front, _) :: _ =>
                   Forall (fun entry => ch_id entry.1 = ch_id front) chunk
               end) (chunk_by same_chrom l).
Proof.
  induction l as [|x l [IHc IHf]]; [split; [reflexivity|constructor]|].
  cbn [chunk_by].
  destruct (chunk_by same_chrom l) as [|[|y chunk] chunks] eqn:Hchunks.
  - cbn in IHc. subst l. split; [reflexivity|].
    constructor; [|constructor]. destruct x as [gi r].
    constructor; [reflexivity|constructor].
  - inversion IHf as [|? ? Hfalse _]. destruct Hfalse.
  - inversion IHf as [|? ? Hy Hrest]; subst.
    destruct x as [gx rx], y as [gy ry].
    destruct (same_chrom (gx, rx) (gy, ry)) eqn:Heq.
    1: apply Z.eqb_eq in Heq; cbn [fst] in Heq.
    + split; [reflexivity|]. constructor; [|exact Hrest].
      constructor; [reflexivity|].
      eapply Forall_impl; [exact Hy|]. cbn. intros entry ->. symmetry. exact Heq.
    + split; [reflexivity|]. constructor.
      * constructor; [reflexivity|constructor].
      * constructor; [exact Hy|exact Hrest].
Qed.

Lemma chunk_by_front {A : Type} (same : A -> A -> bool) x l :
  exists chunk chunks, chunk_by same (x :: l) = (x :: chunk) :: chunks.
Proof.
  cbn [chunk_by]. destruct (chunk_by same l) as [|[|y chunk] chunks].
  - exists [], []. reflexivity.
  - exists [], []. reflexivity.
  - destruct (same x y); eexists _, _; reflexivity.
Qed.

Lemma write_intervals_chunk_lines cov cim name :
  (length name + 56 <= buf_size)%nat ->
  forall chunk b out,
    length b = buf_size ->
    take (S (length name)) b = name ++ [delim] ->
    Forall (fun entry : genomic_interval * counts =>
              chrom_order cim !! Z.to_nat (ch_id entry.1) = Some name) chunk ->
    exists b',
      length b' = buf_size
      /\ write_intervals_chunk cov (length name) b out chunk
         = Done ((write_blocks (map (interval_line cov cim) chunk) out).1, b',
                 (write_blocks (map (interval_line cov cim) chunk) out).2).
Proof.
  intros Hname. induction chunk as [|[gi r] chunk IH]; intros b out Hlen Hpre Hall.
  - exists b. split; [exact Hlen|reflexivity].
  - inversion Hall as [|? ? Hgi Hrest]; subst. cbn [fst] in Hgi.
    cbn [write_intervals_chunk map write_blocks].
    pose proof (write_fields_emit cov b (S (length name)) (start gi) (stop gi) r)
      as Hemit.
    pose proof (fields_length cov (start gi) (stop gi) r) as Hfields.
    destruct (emit_fits b (S (length name)) (fields cov (start gi) (stop gi) r))
      as [b2 Hb2].
    { rewrite Hlen. unfold buf_size in *. lia. }
    rewrite Hb2 in Hemit.
    destruct (write_range b (S (length name)) (start gi) (stop gi))
      as [[b1 p1]| |]; cbn [mbind outcome_bind obind] in Hemit; try discriminate.
    cbn [mbind outcome_bind obind]. rewrite Hemit.
    cbn [mbind outcome_bind obind].
    destruct (emit_done _ _ _ _ _ Hb2) as [Hlen2 Htake].
    rewrite Htake, Hpre.
    assert (Hline : (name ++ [delim]) ++ fields cov (start gi) (stop gi) r
                    = interval_line cov cim (gi, r)).
    { unfold interval_line, line. cbn [fst snd]. rewrite Hgi. cbn [default].
      rewrite <- app_assoc. reflexivity. }
    rewrite Hline. unfold write.
    destruct (device out (length (blocks out))) as [e|].
    { exists b2. split; [congruence|reflexivity]. }
    apply IH; [congruence| |exact Hrest].
    apply (f_equal (take (S (length name)))) in Htake.
    rewrite take_take in Htake.
    replace (S (length name) `min` (S (length name)
               + length (fields cov (start gi) (stop gi) r)))%nat
      with (S (length name)) in Htake by lia.
    rewrite Htake, Hpre.
    apply take_app_length'. rewrite length_app. cbn. lia.
Qed.

Lemma write_intervals_chunks_lines cov cim chunks :
  Forall (intervals_ok cim) chunks ->
  forall b out,
    length b = buf_size ->
    write_intervals_chunks cov cim b out chunks
    = Done (default 0 (write_blocks (map (interval_line cov cim) (concat chunks))
                         out).1,
            (write_blocks (map (interval_line cov cim) (concat chunks)) out).2).
Proof.
  induction 1 as [|chunk chunks Hchunk Hall IH]; intros b out Hlen; [reflexivity|].
  cbn [write_intervals_chunks concat]. rewrite map_app, write_blocks_app.
  destruct chunk as [|[front r0] chunk']; [destruct Hchunk|].
  destruct Hchunk as [(Hid & name & Hlookup & Hname) Hsame].
  unfold chrom_of. destruct (Z.ltb_spec (ch_id front) 0); [lia|].
  rewrite Hlookup. cbn [mbind outcome_bind obind].
  destruct (copy_name name b) as (b2 & Hcopy & Hlen2 & Hpre).
  { rewrite Hlen. unfold buf_size in *. lia. }
  destruct (Request.copy name b) as [b1| |]; cbn [mbind outcome_bind obind] in Hcopy;
    try discriminate.
  cbn [mbind outcome_bind obind]. rewrite Hcopy. cbn [mbind outcome_bind obind].
  destruct (write_intervals_chunk_lines cov cim name Hname
              ((front, r0) :: chunk') b2 out ltac:(congruence) Hpre)
    as (b' & Hlen' & ->).
  { eapply Forall_impl; [exact Hsame|]. cbn. intros entry ->. exact Hlookup. }
  cbn [mbind outcome_bind obind].
  destruct (write_blocks (map (interval_line cov cim) ((front, r0) :: chunk')) out)
    as [[e|] out']; cbn [fst snd]; [reflexivity|].
  apply IH. exact Hlen'.
Qed.

Lemma chunks_ok cim (l : list (genomic_interval * counts)) :
  Forall (fun entry => interval_fits cim entry.1) l ->
  Forall (intervals_ok cim) (chunk_by same_chrom l).
Proof.
  intros Hfits. destruct (chunk_by_same_chrom l) as [Hconcat Hsame].
  rewrite <- Hconcat in Hfits. clear Hconcat. revert Hfits Hsame.
  generalize (chunk_by same_chrom l). clear l.
  induction l as [|chunk chunks IH]; intros Hfits Hsame; [constructor|].
  cbn [concat] in Hfits. apply Forall_app in Hfits as [Hchunk Hfits].
  inversion Hsame as [|? ? Hc Hrest]; subst.
  constructor; [|apply IH; assumption].
  destruct chunk as [|[front r0] chunk']; [destruct Hc|].
  split; [|exact Hc]. inversion Hchunk; subst. assumption.
Qed.

(** X22. When the [ch_id] of every interval names a chromosome whose
    name leaves room for the numbers and the stream stays good,
    [write_intervals] returns no error and has handed the stream one
    block for each interval that has a result, in order: the line of the
    interval with the name of its own chromosome.  Grouping the
    intervals by chromosome does not show in the output. *)
Theorem write_intervals_output cov out cim gis results :
  Forall (interval_fits cim) gis ->
  (forall j, (j < length (zip gis results))%nat ->
             device out (length (blocks out) + j) = None) ->
  write_intervals cov out cim gis results
  = Done (0, with_blocks out (map (interval_line cov cim) (zip gis results))).
Proof.
  intros Hfits Hgood. unfold write_intervals.
  rewrite (write_intervals_chunks_lines cov cim).
  - destruct (chunk_by_same_chrom (zip gis results)) as [-> _].
    rewrite write_blocks_good; [reflexivity|].
    rewrite length_map. exact Hgood.
  - apply chunks_ok. clear Hgood. revert results.
    induction Hfits as [|gi gis Hgi Hfits IH]; intros [|r results];
      try constructor; [exact Hgi|apply IH].
  - apply length_replicate.
Qed.

Lemma write_intervals_output_witness :
  write_intervals true good_stream s1_meta
    [ {| ch_id := 0; start := 3; stop := 7 |};
      {| ch_id := 0; start := 0; stop := 8 |};
      {| ch_id := 1; start := 0; stop := 2 |} ]
    [(5, 25, 2); (15, 25, 3); (7, 3, 1)]
  = Done (0,
          with_blocks good_stream
            [ line true (Request.bytes "chr1") 3 7 (5, 25, 2);
              line true (Request.bytes "chr1") 0 8 (15, 25, 3);
              line true (Request.bytes "chr2") 0 2 (7, 3, 1) ]).
Proof.
  apply (write_intervals_output true good_stream s1_meta
           [ {| ch_id := 0; start := 3; stop := 7 |};
             {| ch_id := 0; start := 0; stop := 8 |};
             {| ch_id := 1; start := 0; stop := 2 |} ]
           [(5, 25, 2); (15, 25, 3); (7, 3, 1)]).
  - repeat (apply Forall_cons_2;
            [split; [cbn; lia|eexists; split; [reflexivity|unfold buf_size; cbn; lia]]|]).
    apply Forall_nil_2.
  - intros j _. reflexivity.
Defined.

(** X23. When the first interval has a result and its [ch_id] is not an
    index into [chrom_order], [write_intervals] reads outside
    [chrom_order]. *)
Theorem write_intervals_bad_ch_id cov out cim gi gis r results :
  ch_id gi < 0 \/ (length (chrom_order cim) <= Z.to_nat (ch_id gi))%nat ->
  write_intervals cov out cim (gi :: gis) (r :: results) = OutOfBounds.
Proof.
  intros Hbad. unfold write_intervals. cbn [zip zip_with].
  destruct (chunk_by_front same_chrom (gi, r) (zip_with pair gis results))
    as (chunk & chunks & ->).
  cbn [write_intervals_chunks]. unfold chrom_of.
  destruct (Z.ltb_spec (ch_id gi) 0) as [|Hge]; [reflexivity|].
  destruct Hbad as [|Hbad]; [lia|].
  rewrite (lookup_ge_None_2 _ _ Hbad). reflexivity.
Qed.

Lemma write_intervals_bad_ch_id_witness :
  write_intervals true good_stream s1_meta
    [ {| ch_id := 2; start := 0; stop := 4 |} ] [(0, 0, 0)]
  = OutOfBounds.
Proof.
  apply (write_intervals_bad_ch_id true good_stream s1_meta
           {| ch_id := 2; start := 0; stop := 4 |} [] (0, 0, 0) []).
  right. cbn. lia.
Defined.

(** *** A bin size of zero *)

Lemma write_bins_loop_zero_bin_size cov chrom_size name_size fuel :
  0 < chrom_size ->
  forall b out rs,
    (length rs < fuel)%nat ->
    (forall k, device out k = None) ->
    write_bins_loop fuel cov 0 chrom_size name_size 0 b out rs = OutOfBounds.
Proof.
  intros Hsize. induction fuel as [|fuel IH]; intros b out rs Hfuel Hgood; [lia|].
  cbn [write_bins_loop]. destruct (Z.ltb_spec 0 chrom_size); [|lia].
  change (U32.wrap32 (0 + 0)) with 0.
  destruct (write_range b (S name_size) 0 _) as [[b1 p1]| |] eqn:Hrange;
    cbn [mbind outcome_bind obind]; [|destruct (write_range_not_out_of_fuel _ _ _ _ Hrange)|reflexivity].
  destruct rs as [|r rs]; cbn [deref mbind outcome_bind obind]; [reflexivity|].
  rewrite write_counts_emit.
  destruct (emit b1 p1 _) as [[b2 p2]| |] eqn:Hemit;
    cbn [mbind outcome_bind obind];
    [|destruct (emit_not_out_of_fuel _ _ _ Hemit)|reflexivity].
  unfold write. rewrite Hgood. cbn [tail]. apply IH; [|exact Hgood].
  cbn [length] in Hfuel. lia.
Qed.

(** X24. With a bin size of zero, a first chromosome that is not empty
    and a stream that stays good, [write_bins] does not return: it
    writes the line of the same bin for one result after the other,
    until it writes past the end of the buffer or reads past the end of
    the results. *)
Theorem write_bins_zero_bin_size fuel cov out cim results size sizes name names :
  chrom_size cim = size :: sizes ->
  chrom_order cim = name :: names ->
  0 < size ->
  (length results < fuel)%nat ->
  (forall k, device out k = None) ->
  write_bins fuel cov out cim 0 results = OutOfBounds.
Proof.
  intros Hsizes Hnames Hsize Hfuel Hgood.
  unfold write_bins. rewrite Hsizes, Hnames. cbn [zip zip_with write_bins_chroms].
  unfold Request.copy. destruct (_ <=? _)%nat; [|reflexivity].
  cbn [mbind outcome_bind obind].
  unfold store at 1. destruct (_ <? _)%nat; [|reflexivity].
  cbn [mbind outcome_bind obind].
  rewrite (write_bins_loop_zero_bin_size cov size (length name) fuel Hsize
             _ out results Hfuel Hgood).
  reflexivity.
Qed.

Lemma write_bins_zero_bin_size_witness :
  write_bins 4 true good_stream s1_meta 0 [(10, 0, 1); (5, 25, 2); (7, 3, 1)]
  = OutOfBounds.
Proof.
  apply (write_bins_zero_bin_size 4 true good_stream s1_meta
           [(10, 0, 1); (5, 25, 2); (7, 3, 1)] 8 [2]
           (Request.bytes "chr1") [Request.bytes "chr2"]).
  - reflexivity.
  - reflexivity.
  - lia.
  - cbn. lia.
  - intros k. reflexivity.
Defined.

End GenomicIntervalOutputProps.
